(** * LODS-MTI: the simulation kernel and the adaptive collision-resolution
      protocol, embedded from [framework.py] and [lods_mti_algo.py].

    Python integers are [Z]; Python floats are IEEE binary64 values
    ([PrimFloat.float]); [str] is [string]; [set] of identifiers is
    [gset string]; exceptions are the [Raise] outcomes of the [Result] monad.
    The bound on loop iterations that the model needs for structural
    recursion shows up as the third outcome [OutOfFuel], which the totality
    lemmas below prove is never produced. *)

From Stdlib Require Import ZArith Floats String Ascii List Lia Bool.
From stdpp Require Import base gmap sets list strings sorting.

Local Open Scope Z_scope.

(* ------------------------------------------------------------------------- *)
(** ** Exceptions and the result monad *)

Inductive exn : Type :=
  | ValueError
  | ZeroDivisionError
  | IndexError
  | KeyError
  | OverflowError
  | NameError (name : string).

Inductive Result (A : Type) : Type :=
  | Ok (a : A)
  | Raise (e : exn)
  | OutOfFuel.
Arguments Ok {A} a.
Arguments Raise {A} e.
Arguments OutOfFuel {A}.

Definition bind {A B : Type} (m : Result A) (k : A -> Result B) : Result B :=
  match m with
  | Ok a => k a
  | Raise e => Raise e
  | OutOfFuel => OutOfFuel
  end.

Declare Scope result_scope.
Delimit Scope result_scope with result.
Notation "x <- m ;; k" := (bind m (fun x => k))
  (at level 100, m at next level, right associativity) : result_scope.
Local Open Scope result_scope.

(* ------------------------------------------------------------------------- *)
(** ** Python built-ins used by the two modules *)

Module Py.

(** [a // b] and [a % b]: floor division, remainder with the divisor's
    sign; both raise on a zero divisor. *)
Definition floordiv (a b : Z) : Result Z :=
  if b =? 0 then Raise ZeroDivisionError else Ok (a / b).

Definition mod_ (a b : Z) : Result Z :=
  if b =? 0 then Raise ZeroDivisionError else Ok (a mod b).

(** [a << n] raises ValueError on a negative shift count. *)
Definition lshift (a n : Z) : Result Z :=
  if n <? 0 then Raise ValueError else Ok (Z.shiftl a n).

(** [bin(x).count('1')]: the digits of [bin] are those of [abs x]. *)
Fixpoint popcount_pos (p : positive) : Z :=
  match p with
  | xH => 1
  | xO q => popcount_pos q
  | xI q => 1 + popcount_pos q
  end.

Definition bit_count (x : Z) : Z :=
  match x with
  | Z0 => 0
  | Zpos p | Zneg p => popcount_pos p
  end.

(** [int(s, 16)] on a non-empty string of hexadecimal digits, which is
    what every EPC of the repository is ([format(n, '024X')]); any other
    string is a ValueError here. *)
Definition hex_digit (c : ascii) : option Z :=
  let n := Z.of_N (N_of_ascii c) in
  if (48 <=? n) && (n <=? 57) then Some (n - 48)
  else if (65 <=? n) && (n <=? 70) then Some (n - 55)
  else if (97 <=? n) && (n <=? 102) then Some (n - 87)
  else None.

Fixpoint int16_digits (acc : Z) (s : string) : Result Z :=
  match s with
  | EmptyString => Ok acc
  | String c r =>
      match hex_digit c with
      | Some d => int16_digits (16 * acc + d) r
      | None => Raise ValueError
      end
  end.

Definition int16 (s : string) : Result Z :=
  match s with
  | EmptyString => Raise ValueError
  | _ => int16_digits 0 s
  end.

(** [bin(n)[2:]]: the binary digits of [n]; for a negative [n] the slice
    starts at the letter b of [-0b...]. *)
Fixpoint bin_pos (p : positive) (acc : string) : string :=
  match p with
  | xH => String "1" acc
  | xO q => bin_pos q (String "0" acc)
  | xI q => bin_pos q (String "1" acc)
  end.

Definition bin_tail (n : Z) : string :=
  match n with
  | Z0 => String "0" EmptyString
  | Zpos p => bin_pos p EmptyString
  | Zneg p => String "b" (bin_pos p EmptyString)
  end.

Fixpoint zeros (n : nat) : string :=
  match n with
  | O => EmptyString
  | S m => String "0" (zeros m)
  end.

(** [s.zfill(width)]: left padding with zeros, after a leading sign. *)
Definition zfill (width : nat) (s : string) : string :=
  let pad := zeros (width - String.length s) in
  match s with
  | String c r =>
      if (Ascii.eqb c "+" || Ascii.eqb c "-")%bool
      then String c (pad +:+ r)
      else pad +:+ s
  | EmptyString => pad
  end.

(** [s.startswith(p)]. *)
Definition startswith (s p : string) : bool := String.prefix p s.

(** [l[i]] with Python's negative indices. *)
Definition getitem {A : Type} (l : list A) (i : Z) : Result A :=
  let n := Z.of_nat (length l) in
  let j := if i <? 0 then i + n else i in
  if (0 <=? j) && (j <? n)
  then match l !! Z.to_nat j with
       | Some x => Ok x
       | None => Raise IndexError
       end
  else Raise IndexError.

(** [l[a:b]]: both bounds clamped into the list. *)
Definition clamp_index (n i : Z) : Z :=
  if i <? 0 then Z.max (i + n) 0 else Z.min i n.

Definition slice {A : Type} (l : list A) (a b : Z) : list A :=
  let n := Z.of_nat (length l) in
  let a' := clamp_index n a in
  let b' := clamp_index n b in
  take (Z.to_nat (b' - a')) (drop (Z.to_nat a') l).

(** [sorted(l, key=...)] and [l.sort(key=..., reverse=True)] are stable:
    elements whose keys compare equal keep their order.  [le x y] is the
    comparison of the keys ([key x <= key y], or [key y <= key x] under
    [reverse=True]). *)
Section Sorting.
Context {A : Type} (le : A -> A -> bool).

Fixpoint insert_sorted (x : A) (l : list A) : list A :=
  match l with
  | [] => [x]
  | y :: l' => if le x y then x :: y :: l' else y :: insert_sorted x l'
  end.

Fixpoint sorted (l : list A) : list A :=
  match l with
  | [] => []
  | x :: l' => insert_sorted x (sorted l')
  end.
End Sorting.

(** Magnitudes from [2^1024 - 2^970] on round to infinity: there CPython
    raises OverflowError. *)
Definition float_overflow : Z := 2 ^ 1024 - 2 ^ 970.

(** An [int] as a [float], rounded to nearest even. *)
Definition float_of_int (z : Z) : Result float :=
  if Z.abs z <? float_overflow
  then Ok (SF2Prim (binary_normalize prec emax z 0 false))
  else Raise OverflowError.

Definition int_mantissa (z : Z) : spec_float :=
  match z with
  | Z0 => S754_zero false
  | Zpos p => S754_finite false p 0
  | Zneg p => S754_finite true p 0
  end.

(** [a / b] on two ints: the exact quotient rounded once, whatever the
    size of the operands. *)
Definition truediv_int (a b : Z) : Result float :=
  if b =? 0 then Raise ZeroDivisionError
  else if Z.abs a <? float_overflow * Z.abs b
  then Ok (SF2Prim (SFdiv prec emax (int_mantissa a) (int_mantissa b)))
  else Raise OverflowError.

(** [int(f)]: truncation towards zero. *)
Definition int_of_float (f : float) : Result Z :=
  match Prim2SF f with
  | S754_zero _ => Ok 0
  | S754_infinity _ => Raise OverflowError
  | S754_nan => Raise ValueError
  | S754_finite s m e =>
      let v := if 0 <=? e then Z.pos m * 2 ^ e else Z.pos m / 2 ^ (- e) in
      Ok (if s then - v else v)
  end.

(** [range(a, b)]. *)
Definition range (a b : Z) : list Z := seqZ a (b - a).

End Py.

(* ------------------------------------------------------------------------- *)
(** ** framework.py: data structures *)

Inductive PacketType : Type := IDLE | COLLISION | SUCCESS | QUERY | ACK.

Definition PacketType_eqb (a b : PacketType) : bool :=
  match a, b with
  | IDLE, IDLE | COLLISION, COLLISION | SUCCESS, SUCCESS
  | QUERY, QUERY | ACK, ACK => true
  | _, _ => false
  end.

Record Tag : Type := mkTag {
  epc : string;
  epc_int : Z;
  is_present : bool;
  rssi : float
}.

(** [Tag.__init__]; [rssi_draw] is the value [random.uniform(-80, -40)]
    returned for this tag. *)
Definition Tag_init (epc : string) (is_present : bool) (rssi_draw : float)
  : Result Tag :=
  n <- Py.int16 epc ;;
  Ok {| epc := epc; epc_int := n; is_present := is_present; rssi := rssi_draw |}.

Record ReaderCommand : Type := mkReaderCommand {
  payload_bits : Z;
  expected_reply_bits : Z;
  response_protocol : Tag -> Result bool;
  concatenated_tags_count : Z
}.

(** The dataclass defaults: [response_protocol = lambda t: False],
    [concatenated_tags_count = 1] ([meta_data] is never read). *)
Definition ReaderCommand_default (payload_bits expected_reply_bits : Z)
  : ReaderCommand :=
  {| payload_bits := payload_bits;
     expected_reply_bits := expected_reply_bits;
     response_protocol := fun _ => Ok false;
     concatenated_tags_count := 1 |}.

(** [extra_info] is the dict [{'erasure': mask, 'shift': offset}]. *)
Record Impairments : Type := mkImpairments {
  erasure : Z;
  shift : Z
}.

Record SlotResult : Type := mkSlotResult {
  status : PacketType;
  tag_ids : list string;
  resolved_data : option (list string);
  channel_noise_mask : Z;
  extra_info : option Impairments
}.

Record SimulationConfig : Type := mkSimulationConfig {
  TOTAL_TAGS : Z;
  MISSING_RATE : float;
  ENABLE_NOISE : bool;
  packet_error_rate : float;
  BIT_ERROR_RATE : float;
  ENABLE_CAPTURE_EFFECT : bool;
  CAPTURE_RATIO_DB : float;
  ENABLE_ENERGY_TRACKING : bool;
  CLOCK_DRIFT_RATE : float;
  BURST_ERASURE_LEN : Z;
  JITTER_OFFSET : Z;
  GUARD_INTERVAL_BITS : float
}.

(** [SimulationConfig()] with every keyword at its default. *)
Definition SimulationConfig_default : SimulationConfig :=
  {| TOTAL_TAGS := 1000;
     MISSING_RATE := 0%float;
     ENABLE_NOISE := false;
     packet_error_rate := 0%float;
     BIT_ERROR_RATE := 0%float;
     ENABLE_CAPTURE_EFFECT := false;
     CAPTURE_RATIO_DB := 3%float;
     ENABLE_ENERGY_TRACKING := false;
     CLOCK_DRIFT_RATE := 0%float;
     BURST_ERASURE_LEN := 0;
     JITTER_OFFSET := 0;
     GUARD_INTERVAL_BITS := 0%float |}.

(** The four operations a protocol implements, over its instance state
    [S], and the class attribute [supports_phy_impairments]. *)
Class AlgorithmInterface (S : Type) : Type := {
  supports_phy_impairments : S -> bool;
  initialize : S -> list Tag -> Result S;
  get_next_command : S -> SlotResult -> Result (S * ReaderCommand);
  is_finished : S -> bool;
  get_results : S -> gset string * gset string
}.

(** [CONSTANTS]. *)
Module CONSTANTS.
Definition T_PREAMBLE : float := 300%float.
Definition T1 : float := 240%float.
Definition T2 : float := 120%float.
Definition BLF : Z := 40000.
Definition READER_RATE : Z := 80000.
Definition P_TX_READER : float := 1%float.
Definition P_RX_READER : float := 0.2%float.
Definition P_TX_TAG : float := 100e-6%float.
Definition P_RX_TAG : float := 10e-6%float.
Definition MAX_SLOTS_LIMIT : Z := 200000.
End CONSTANTS.

(** The [random] module as an oracle: [next_float n] is what the [n]-th
    call returns when it is [random.random()], and [next_int n] the raw
    integer behind it when it is [random.randint(a, b)], brought into
    [a..b]. *)
Record Random : Type := mkRandom {
  next_float : nat -> float;
  next_int : nat -> Z
}.

Definition randint (R : Random) (n : nat) (a b : Z) : Z :=
  Z.max a (Z.min b (next_int R n)).

(* ------------------------------------------------------------------------- *)
(** ** framework.py: [run_high_fidelity_simulation] *)

(** The accumulators of the run, and the dict it returns from them. *)
Record Ledger : Type := mkLedger {
  total_time_us : float;
  total_reader_energy_j : float;
  total_tag_energy_j : float;
  total_slots : Z;
  collision_slots : Z;
  success_slots : Z;
  idle_slots : Z
}.

Record Statistics : Type := mkStatistics {
  stat_total_time_us : float;
  stat_total_reader_energy_j : float;
  stat_total_tag_energy_j : float;
  stat_total_slots : Z;
  stat_success_slots : Z;
  stat_collision_slots : Z;
  stat_idle_slots : Z;
  stat_phy_efficiency : float
}.

Definition Ledger_init : Ledger :=
  {| total_time_us := 0%float;
     total_reader_energy_j := 0%float;
     total_tag_energy_j := 0%float;
     total_slots := 0;
     collision_slots := 0;
     success_slots := 0;
     idle_slots := 0 |}.

(** [_calc_dynamic_reply_time]. *)
Definition _calc_dynamic_reply_time (bits_count : Z) : Result float :=
  q <- Py.truediv_int bits_count CONSTANTS.BLF ;;
  let t_data := (q * 1e6)%float in
  overhead <-
    (if bits_count <=? 1 then Ok (CONSTANTS.T1 + CONSTANTS.T2)%float
     else if bits_count <=? 20 then Ok (CONSTANTS.T1 + CONSTANTS.T2)%float
     else
       a <- Py.truediv_int 18 CONSTANTS.READER_RATE ;;
       let t_ack := (a * 1e6)%float in
       Ok (3 * CONSTANTS.T1 + 2 * CONSTANTS.T2 + t_ack)%float) ;;
  Ok (t_data + overhead)%float.

(** [rssi_map = {t.epc: t.rssi for t in present_tags}]: a later tag with
    the same identifier replaces an earlier one. *)
Definition build_rssi_map (present_tags : list Tag) : gmap string float :=
  foldl (fun m t => <[epc t := rssi t]> m) ∅ present_tags.

(** Step C: the identifiers of the present tags the predicate accepts. *)
Fixpoint responders (protocol_logic : Tag -> Result bool)
    (present_tags : list Tag) : Result (list string) :=
  match present_tags with
  | [] => Ok []
  | tag :: rest =>
      b <- protocol_logic tag ;;
      more <- responders protocol_logic rest ;;
      Ok (if b then epc tag :: more else more)
  end.

(** [signal_strengths]: the responders with their strength, strongest
    first. *)
Fixpoint lookup_strengths (rssi_map : gmap string float)
    (responding_tags : list string) : Result (list (string * float)) :=
  match responding_tags with
  | [] => Ok []
  | e :: rest =>
      match rssi_map !! e with
      | Some r =>
          more <- lookup_strengths rssi_map rest ;;
          Ok ((e, r) :: more)
      | None => Raise KeyError
      end
  end.

Definition strongest_first (l : list (string * float))
  : list (string * float) :=
  Py.sorted (fun x y => PrimFloat.leb (snd y) (snd x)) l.

(** The capture-effect arbitration of step D.1: the winner, if any. *)
Definition capture_winner (config : SimulationConfig)
    (rssi_map : gmap string float) (responding_tags : list string)
  : Result (option string) :=
  if ENABLE_CAPTURE_EFFECT config then
    l <- lookup_strengths rssi_map responding_tags ;;
    match strongest_first l with
    | s0 :: s1 :: _ =>
        if PrimFloat.leb (CAPTURE_RATIO_DB config) (snd s0 - snd s1)%float
        then Ok (Some (fst s0))
        else Ok None
    | _ => Ok None
    end
  else Ok None.

(** [if winner:] holds for a non-empty string. *)
Definition truthy (winner : option string) : bool :=
  match winner with
  | Some (String _ _) => true
  | _ => false
  end.

(** Step D.1: the status, the resolved data and the three counters. *)
Definition classify_slot (config : SimulationConfig)
    (rssi_map : gmap string float) (responding_tags : list string)
    (led : Ledger)
  : Result (PacketType * option (list string) * Ledger) :=
  let num_responses := Z.of_nat (length responding_tags) in
  let led := {| total_time_us := total_time_us led;
                total_reader_energy_j := total_reader_energy_j led;
                total_tag_energy_j := total_tag_energy_j led;
                total_slots := total_slots led + 1;
                collision_slots := collision_slots led;
                success_slots := success_slots led;
                idle_slots := idle_slots led |} in
  let counted (c s i : Z) : Ledger :=
    {| total_time_us := total_time_us led;
       total_reader_energy_j := total_reader_energy_j led;
       total_tag_energy_j := total_tag_energy_j led;
       total_slots := total_slots led;
       collision_slots := collision_slots led + c;
       success_slots := success_slots led + s;
       idle_slots := idle_slots led + i |} in
  if num_responses =? 0 then Ok (IDLE, None, counted 0 0 1)
  else if num_responses =? 1 then
    e <- Py.getitem responding_tags 0 ;;
    Ok (SUCCESS, Some [e], counted 0 1 0)
  else
    winner <- capture_winner config rssi_map responding_tags ;;
    match winner with
    | Some w =>
        if truthy winner
        then Ok (SUCCESS, Some [w], counted (1 - 1) 1 0)
        else Ok (COLLISION, None, counted 1 0 0)
    | None => Ok (COLLISION, None, counted 1 0 0)
    end.

(** The name [supports_phy] read in step D.2 is bound nowhere: it is not a
    parameter of the function, no statement of the function or of the
    module assigns it, and it is no built-in.  The capability the protocol
    declares, [supports_phy_impairments], is never read.  Evaluating the
    name raises NameError. *)
Definition supports_phy : Result bool :=
  Raise (NameError "supports_phy").

(** The per-bit flips: one draw per bit of the declared reply. *)
Definition bit_flips (R : Random) (ber : float) (expected_len : Z)
    (n : nat) (noise_mask : Z) : Z * nat :=
  foldl (fun acc i =>
           (if PrimFloat.ltb (next_float R (snd acc)) ber
            then Z.lor (fst acc) (Z.shiftl 1 i)
            else fst acc,
            S (snd acc)))
        (noise_mask, n) (Py.range 0 expected_len).

(** The clock drift: every bit from the coherence limit on is corrupted
    (the limit is not negative, the rate being positive). *)
Definition drift_flips (rate : float) (expected_len : Z) (noise_mask : Z)
  : Result Z :=
  max_safe_bits <- Py.int_of_float (0.5 / rate)%float ;;
  if expected_len >? max_safe_bits
  then Ok (foldl (fun m i => Z.lor m (Z.shiftl 1 i)) noise_mask
                 (Py.range max_safe_bits expected_len))
  else Ok noise_mask.

Record Impaired : Type := mkImpaired {
  imp_status : PacketType;
  imp_resolved_data : option (list string);
  imp_noise_mask : Z;
  imp_extra : option Impairments;
  imp_draws : nat
}.

(** Step D.2: the impairments, in the order of the source.  [n] counts the
    calls made to [random] so far. *)
Definition inject_impairments (config : SimulationConfig) (R : Random)
    (cmd : ReaderCommand) (status : PacketType)
    (resolved_data : option (list string)) (n : nat) : Result Impaired :=
  let lost :=
    if ENABLE_NOISE config
    then PrimFloat.ltb (next_float R n) (packet_error_rate config)
    else false in
  let n := if ENABLE_NOISE config then S n else n in
  if lost then Ok (mkImpaired IDLE resolved_data 0 None n)
  else if negb (PacketType_eqb status IDLE) then
    let expected_len := expected_reply_bits cmd in
    if expected_len >? 0 then
      let flips :=
        if ENABLE_NOISE config && PrimFloat.ltb 0 (BIT_ERROR_RATE config)
        then bit_flips R (BIT_ERROR_RATE config) expected_len n 0
        else (0, n) in
      let n := snd flips in
      noise_mask <-
        (if PrimFloat.ltb 0 (CLOCK_DRIFT_RATE config)
         then drift_flips (CLOCK_DRIFT_RATE config) expected_len (fst flips)
         else Ok (fst flips)) ;;
      if (BURST_ERASURE_LEN config >? 0) || (JITTER_OFFSET config >? 0) then
        let burst := BURST_ERASURE_LEN config >? 0 in
        let max_start := Z.max 0 (expected_len - BURST_ERASURE_LEN config) in
        let start_bit := randint R n 0 max_start in
        let erasure_mask :=
          if burst
          then Z.shiftl (Z.shiftl 1 (BURST_ERASURE_LEN config) - 1) start_bit
          else 0 in
        let n := if burst then S n else n in
        let extra_impairments :=
          {| erasure := erasure_mask; shift := JITTER_OFFSET config |} in
        sp <- supports_phy ;;
        if negb sp
        then Ok (mkImpaired IDLE None noise_mask (Some extra_impairments) n)
        else Ok (mkImpaired status resolved_data noise_mask
                            (Some extra_impairments) n)
      else Ok (mkImpaired status resolved_data noise_mask None n)
    else Ok (mkImpaired status resolved_data 0 None n)
  else Ok (mkImpaired status resolved_data 0 None n).

(** Step B: the downlink time and energies. *)
Definition downlink (config : SimulationConfig) (present_tags_count : Z)
    (cmd : ReaderCommand) (led : Ledger) : Result Ledger :=
  q <- Py.truediv_int (payload_bits cmd) CONSTANTS.READER_RATE ;;
  let t_reader_tx := (CONSTANTS.T_PREAMBLE + q * 1e6)%float in
  tag_energy <-
    (if ENABLE_ENERGY_TRACKING config
     then
       cnt <- Py.float_of_int present_tags_count ;;
       Ok (total_tag_energy_j led
           + cnt * (t_reader_tx * 1e-6) * CONSTANTS.P_RX_TAG)%float
     else Ok (total_tag_energy_j led)) ;;
  Ok {| total_time_us := (total_time_us led + t_reader_tx)%float;
        total_reader_energy_j :=
          (total_reader_energy_j led
           + (t_reader_tx * 1e-6) * CONSTANTS.P_TX_READER)%float;
        total_tag_energy_j := tag_energy;
        total_slots := total_slots led;
        collision_slots := collision_slots led;
        success_slots := success_slots led;
        idle_slots := idle_slots led |}.

(** Step E: the uplink time and energies. *)
Definition uplink (config : SimulationConfig) (present_tags_count : Z)
    (cmd : ReaderCommand) (status : PacketType) (num_responses : Z)
    (led : Ledger) : Result Ledger :=
  step_duration <-
    (if PacketType_eqb status IDLE then Ok CONSTANTS.T1
     else
       base_duration <- _calc_dynamic_reply_time (expected_reply_bits cmd) ;;
       gap_penalty <-
         (if (concatenated_tags_count cmd >? 1)
             && PrimFloat.ltb 0 (GUARD_INTERVAL_BITS config)
          then
            num_gaps <- Py.float_of_int (concatenated_tags_count cmd - 1) ;;
            blf <- Py.float_of_int CONSTANTS.BLF ;;
            let t_bit_us := ((1 / blf) * 1e6)%float in
            Ok (num_gaps * GUARD_INTERVAL_BITS config * t_bit_us)%float
          else Ok 0%float) ;;
       Ok (base_duration + gap_penalty)%float) ;;
  tag_energy <-
    (if ENABLE_ENERGY_TRACKING config
     then
       active_cnt <- Py.float_of_int num_responses ;;
       silent_cnt <- Py.float_of_int (present_tags_count - num_responses) ;;
       let e_active :=
         (active_cnt * (step_duration * 1e-6) * CONSTANTS.P_TX_TAG)%float in
       let e_silent :=
         (silent_cnt * (step_duration * 1e-6) * CONSTANTS.P_RX_TAG)%float in
       Ok (total_tag_energy_j led + (e_active + e_silent))%float
     else Ok (total_tag_energy_j led)) ;;
  Ok {| total_time_us := (total_time_us led + step_duration)%float;
        total_reader_energy_j :=
          (total_reader_energy_j led
           + (step_duration * 1e-6) * CONSTANTS.P_TX_READER)%float;
        total_tag_energy_j := tag_energy;
        total_slots := total_slots led;
        collision_slots := collision_slots led;
        success_slots := success_slots led;
        idle_slots := idle_slots led |}.

(** The state of the loop: the accumulators, the result of the previous
    slot, the protocol instance, the number of calls made to [random], and
    what was printed. *)
Record Kernel (S : Type) : Type := mkKernel {
  ledger : Ledger;
  prev_result : SlotResult;
  algorithm : S;
  draws : nat;
  stdout : list string
}.
Arguments mkKernel {S}.
Arguments ledger {S}.
Arguments prev_result {S}.
Arguments algorithm {S}.
Arguments draws {S}.
Arguments stdout {S}.

Inductive Flow (S : Type) : Type :=
  | Continue (ks : Kernel S)
  | Break (ks : Kernel S).
Arguments Continue {S}.
Arguments Break {S}.

(** The line printed when the circuit breaker fires. *)
Definition breaker_message : string :=
  "⚠️ [Framework] 熔断: 超过 200000 时隙。".

Section Simulation.
Context {S : Type} `{AlgorithmInterface S}.
Variable config : SimulationConfig.
Variable R : Random.
Variable true_tags : list Tag.

Definition present_tags : list Tag := List.filter is_present true_tags.
Definition present_tags_count : Z := Z.of_nat (length present_tags).
Definition rssi_map : gmap string float := build_rssi_map present_tags.

(** One pass through the body of the [while] loop. *)
Definition loop_body (ks : Kernel S) : Result (Flow S) :=
  if total_slots (ledger ks) >? CONSTANTS.MAX_SLOTS_LIMIT then
    Ok (Break (mkKernel (ledger ks) (prev_result ks) (algorithm ks) (draws ks)
                        (stdout ks ++ [breaker_message])))
  else
    r <- get_next_command (algorithm ks) (prev_result ks) ;;
    let alg := fst r in
    let cmd := snd r in
    if payload_bits cmd <? 0 then
      Ok (Break (mkKernel (ledger ks) (prev_result ks) alg (draws ks) (stdout ks)))
    else
      led <- downlink config present_tags_count cmd (ledger ks) ;;
      responding_tags <- responders (response_protocol cmd) present_tags ;;
      let num_responses := Z.of_nat (length responding_tags) in
      c <- classify_slot config rssi_map responding_tags led ;;
      let status := fst (fst c) in
      let resolved_data := snd (fst c) in
      let led := snd c in
      i <- inject_impairments config R cmd status resolved_data (draws ks) ;;
      led <- uplink config present_tags_count cmd (imp_status i) num_responses led ;;
      Ok (Continue
            (mkKernel led
                      (mkSlotResult (imp_status i) responding_tags
                                    (imp_resolved_data i) (imp_noise_mask i)
                                    (imp_extra i))
                      alg (imp_draws i) (stdout ks))).

(** [while not algorithm.is_finished(): ...]. *)
Fixpoint kernel_loop (fuel : nat) (ks : Kernel S) : Result (Kernel S) :=
  if is_finished (algorithm ks) then Ok ks
  else
    match fuel with
    | O => OutOfFuel
    | Datatypes.S fuel' =>
        f <- loop_body ks ;;
        match f with
        | Continue ks' => kernel_loop fuel' ks'
        | Break ks' => Ok ks'
        end
    end.

Definition Kernel_init (alg : S) : Kernel S :=
  mkKernel Ledger_init (mkSlotResult IDLE [] None 0 None) alg O [].

Definition statistics (led : Ledger) : Result Statistics :=
  phy_efficiency <-
    (if total_slots led >? 0
     then Py.truediv_int (success_slots led) (total_slots led)
     else Ok 0%float) ;;
  Ok {| stat_total_time_us := total_time_us led;
        stat_total_reader_energy_j := total_reader_energy_j led;
        stat_total_tag_energy_j := total_tag_energy_j led;
        stat_total_slots := total_slots led;
        stat_success_slots := success_slots led;
        stat_collision_slots := collision_slots led;
        stat_idle_slots := idle_slots led;
        stat_phy_efficiency := phy_efficiency |}.

(** The loop runs its body at most [MAX_SLOTS_LIMIT + 2] times: the slot
    counter starts at 0, grows by one with every slot, and the body breaks
    once it is above the limit. *)
Definition loop_bound : nat := Z.to_nat (CONSTANTS.MAX_SLOTS_LIMIT + 2).

(** [run_high_fidelity_simulation algorithm config true_tags]: the
    statistics returned, with the protocol instance as the run left it and
    the lines printed. *)
Definition run_high_fidelity_simulation (alg : S)
  : Result (Statistics * S * list string) :=
  ks <- kernel_loop loop_bound (Kernel_init alg) ;;
  st <- statistics (ledger ks) ;;
  Ok (st, algorithm ks, stdout ks).

End Simulation.

(* ------------------------------------------------------------------------- *)
(** ** lods_mti_algo.py: [LODS_MTI_Algorithm] *)

(** An entry of [sorted_tags_bin]: the dict with keys hex, bin and int. *)
Module SortedTag.
Record t : Type := mk { hex : string; bin : string; int : Z }.
End SortedTag.

(** An entry of [last_sent_context]: the dict with keys epc, slot, rho. *)
Module Sent.
Record t : Type := mk { epc : string; slot : Z; rho : Z }.
End Sent.

Record LODS_MTI_Algorithm : Type := mkLODS {
  max_group_size : Z;
  is_adaptive : bool;
  target_rho : Z;
  max_payload_bit : Z;
  current_rho : Z;
  sorted_tags_bin : list SortedTag.t;
  total_tags : Z;
  cursor : Z;
  is_running : bool;
  last_sent_context : list Sent.t;
  verified_present : gset string;
  verified_missing : gset string
}.

(** [__init__]; the defaults are 128, 4, True and 256. *)
Definition LODS_init (max_group_size target_rho : Z) (is_adaptive : bool)
    (max_payload_bit : Z) : LODS_MTI_Algorithm :=
  {| max_group_size := max_group_size;
     is_adaptive := is_adaptive;
     target_rho := target_rho;
     max_payload_bit := max_payload_bit;
     current_rho := if is_adaptive then 4 else target_rho;
     sorted_tags_bin := [];
     total_tags := 0;
     cursor := 0;
     is_running := true;
     last_sent_context := [];
     verified_present := ∅;
     verified_missing := ∅ |}.

Definition LODS_default : LODS_MTI_Algorithm := LODS_init 128 4 true 256.

(** [bin(int(epc, 16))[2:].zfill(96)]. *)
Definition epc_bin (epc : string) : Result string :=
  n <- Py.int16 epc ;;
  Ok (Py.zfill 96 (Py.bin_tail n)).

Fixpoint build_temp_list (expected_tags : list Tag)
  : Result (list SortedTag.t) :=
  match expected_tags with
  | [] => Ok []
  | t :: rest =>
      b_str <- epc_bin (epc t) ;;
      more <- build_temp_list rest ;;
      Ok (SortedTag.mk (epc t) b_str (epc_int t) :: more)
  end.

Definition bin_le (x y : SortedTag.t) : bool :=
  String.leb (SortedTag.bin x) (SortedTag.bin y).

Definition LODS_initialize (self : LODS_MTI_Algorithm)
    (expected_tags : list Tag) : Result LODS_MTI_Algorithm :=
  temp_list <- build_temp_list expected_tags ;;
  let sorted_tags := Py.sorted bin_le temp_list in
  Ok {| max_group_size := max_group_size self;
        is_adaptive := is_adaptive self;
        target_rho := target_rho self;
        max_payload_bit := max_payload_bit self;
        current_rho := if is_adaptive self then 4 else target_rho self;
        sorted_tags_bin := sorted_tags;
        total_tags := Z.of_nat (length sorted_tags);
        cursor := 0;
        is_running := true;
        last_sent_context := [];
        verified_present := ∅;
        verified_missing := ∅ |}.

(** [_get_lcp]: the longest common prefix. *)
Fixpoint _get_lcp (str1 str2 : string) : string :=
  match str1, str2 with
  | String a r1, String b r2 =>
      if Ascii.eqb a b then String a (_get_lcp r1 r2) else EmptyString
  | _, _ => EmptyString
  end.

(** The [for k in range(limit_k, 0, -1)] loop of [_find_dynamic_slice],
    over the values of [k] still to try; [None] when it runs to its end. *)
Fixpoint slice_scan (tags : list SortedTag.t) (start_idx : Z) (ks : list Z)
  : Result (option (Z * string)) :=
  match ks with
  | [] => Ok None
  | k :: ks' =>
      let idx_last := start_idx + k - 1 in
      tag_first <- Py.getitem tags start_idx ;;
      tag_last <- Py.getitem tags idx_last ;;
      let current_lcp :=
        _get_lcp (SortedTag.bin tag_first) (SortedTag.bin tag_last) in
      let idx_outside := start_idx + k in
      tag_outside <- Py.getitem tags idx_outside ;;
      if Py.startswith (SortedTag.bin tag_outside) current_lcp
      then slice_scan tags start_idx ks'
      else Ok (Some (k, current_lcp))
  end.

(** [range(limit_k, 0, -1)]. *)
Definition countdown (limit_k : Z) : list Z :=
  reverse (Py.range 1 (limit_k + 1)).

Definition _find_dynamic_slice (self : LODS_MTI_Algorithm) (start_idx : Z)
    (limit_k_override : option Z) : Result (Z * string) :=
  let remaining := total_tags self - start_idx in
  if remaining =? 0 then Ok (0, EmptyString)
  else
    let limit_k := Z.min (max_group_size self) remaining in
    let limit_k :=
      match limit_k_override with
      | Some o => Z.min limit_k o
      | None => limit_k
      end in
    if start_idx + limit_k >=? total_tags self then
      group_first <- Py.getitem (sorted_tags_bin self) start_idx ;;
      group_last <- Py.getitem (sorted_tags_bin self) (start_idx + limit_k - 1) ;;
      Ok (limit_k,
          _get_lcp (SortedTag.bin group_first) (SortedTag.bin group_last))
    else
      found <- slice_scan (sorted_tags_bin self) start_idx (countdown limit_k) ;;
      match found with
      | Some r => Ok r
      | None =>
          first <- Py.getitem (sorted_tags_bin self) start_idx ;;
          Ok (1, SortedTag.bin first)
      end.

(** The inner loop of [_find_perfect_seed]: does [seed] send two values to
    one sub-slot? *)
Fixpoint seed_collides (seed mod_size : Z) (epc_ints : list Z)
    (slots : gset Z) : Result bool :=
  match epc_ints with
  | [] => Ok false
  | val :: rest =>
      s <- Py.mod_ (Z.lxor val seed) mod_size ;;
      if bool_decide (s ∈ slots) then Ok true
      else seed_collides seed mod_size rest (slots ∪ {[ s ]})
  end.

Fixpoint seed_scan (seeds : list Z) (epc_ints : list Z) (mod_size : Z)
  : Result (option Z) :=
  match seeds with
  | [] => Ok None
  | seed :: seeds' =>
      collision <- seed_collides seed mod_size epc_ints ∅ ;;
      if negb collision then Ok (Some seed)
      else seed_scan seeds' epc_ints mod_size
  end.

Definition _find_perfect_seed (epc_ints : list Z) (mod_size : Z)
  : Result (option Z) :=
  seed_scan (Py.range 0 16) epc_ints mod_size.

(** Phase 1, first loop: the bitmap the responders of the group would have
    produced together. *)
Fixpoint superimpose (actual_responders_set : gset string)
    (context : list Sent.t) (ideal_superimposed_bitmap : Z) : Result Z :=
  match context with
  | [] => Ok ideal_superimposed_bitmap
  | item :: rest =>
      if bool_decide (Sent.epc item ∈ actual_responders_set) then
        let rho_used := Sent.rho item in
        let start_bit := Sent.slot item * rho_used in
        one <- Py.lshift 1 rho_used ;;
        pattern <- Py.lshift (one - 1) start_bit ;;
        superimpose actual_responders_set rest
                    (Z.lor ideal_superimposed_bitmap pattern)
      else superimpose actual_responders_set rest ideal_superimposed_bitmap
  end.

(** What the second loop of phase 1 updates. *)
Record Tally : Type := mkTally {
  tally_present : gset string;
  tally_missing : gset string;
  total_checks : Z;
  error_cnt : Z;
  error_flag : bool
}.

(** The number of set bits in the sub-field of [item]. *)
Definition match_count (received_bitmap : Z) (item : Sent.t) : Result Z :=
  let start_bit := Sent.slot item * Sent.rho item in
  one <- Py.lshift 1 (Sent.rho item) ;;
  expected_mask <- Py.lshift (one - 1) start_bit ;;
  let segment := Z.land received_bitmap expected_mask in
  Ok (Py.bit_count segment).

Definition check_item (received_bitmap vote_threshold : Z) (t : Tally)
    (item : Sent.t) : Result Tally :=
  mc <- match_count received_bitmap item ;;
  if mc >=? vote_threshold then
    let imperfect := mc <? Sent.rho item in
    Ok {| tally_present := tally_present t ∪ {[ Sent.epc item ]};
          tally_missing := tally_missing t;
          total_checks := total_checks t + 1;
          error_cnt := if imperfect then error_cnt t + 1 else error_cnt t;
          error_flag := if imperfect then true else error_flag t |}
  else
    Ok {| tally_present := tally_present t;
          tally_missing := tally_missing t ∪ {[ Sent.epc item ]};
          total_checks := total_checks t + 1;
          error_cnt := error_cnt t + 1;
          error_flag := error_flag t |}.

Fixpoint check_group (received_bitmap vote_threshold : Z)
    (context : list Sent.t) (t : Tally) : Result Tally :=
  match context with
  | [] => Ok t
  | item :: rest =>
      t' <- check_item received_bitmap vote_threshold t item ;;
      check_group received_bitmap vote_threshold rest t'
  end.

Definition vote_threshold_of (last_rho : Z) : Z :=
  if last_rho >=? 4 then 3 else last_rho.

(** The tolerance test [error_rate <= 0.3] and the redundancy it selects. *)
Definition adapted_rho (error_cnt total_checks : Z) : Result Z :=
  error_rate <- Py.truediv_int error_cnt total_checks ;;
  if PrimFloat.leb error_rate 0.3%float then Ok 2 else Ok 4.

(** Phase 1 of [get_next_command]: verification of the group sent last and
    adaptation.  Returns the instance and [error_flag]. *)
Definition verify_previous (self : LODS_MTI_Algorithm)
    (prev_result : SlotResult) : Result (LODS_MTI_Algorithm * bool) :=
  match last_sent_context self with
  | [] => Ok (self, false)
  | first :: _ =>
      let actual_responders_set : gset string :=
        if PacketType_eqb (status prev_result) IDLE then ∅
        else list_to_set (tag_ids prev_result) in
      ideal_superimposed_bitmap <-
        superimpose actual_responders_set (last_sent_context self) 0 ;;
      let received_bitmap :=
        Z.lxor ideal_superimposed_bitmap (channel_noise_mask prev_result) in
      let last_rho := Sent.rho first in
      let vote_threshold := vote_threshold_of last_rho in
      t <- check_group received_bitmap vote_threshold (last_sent_context self)
             (mkTally (verified_present self) (verified_missing self) 0 0 false) ;;
      rho <-
        (if is_adaptive self && (total_checks t >? 0)
         then adapted_rho (error_cnt t) (total_checks t)
         else Ok (current_rho self)) ;;
      Ok ({| max_group_size := max_group_size self;
             is_adaptive := is_adaptive self;
             target_rho := target_rho self;
             max_payload_bit := max_payload_bit self;
             current_rho := rho;
             sorted_tags_bin := sorted_tags_bin self;
             total_tags := total_tags self;
             cursor := cursor self;
             is_running := is_running self;
             last_sent_context := [];
             verified_present := tally_present t;
             verified_missing := tally_missing t |},
          error_flag t)
  end.

(** What the [while current_limit_k > 0] loop of phase 3 settles. *)
Record Plan : Type := mkPlan {
  final_k : Z;
  final_mask : string;
  final_seed : Z;
  final_reply_bits : Z;
  final_num_slots : Z
}.

Fixpoint group_ints (tags : list SortedTag.t) (indices : list Z)
  : Result (list Z) :=
  match indices with
  | [] => Ok []
  | i :: rest =>
      x <- Py.getitem tags i ;;
      more <- group_ints tags rest ;;
      Ok (SortedTag.int x :: more)
  end.

Fixpoint plan_group (fuel : nat) (self : LODS_MTI_Algorithm)
    (active_rho MAX_REPLY_BITS current_limit_k : Z) : Result Plan :=
  if current_limit_k >? 0 then
    match fuel with
    | O => OutOfFuel
    | S fuel' =>
        r <- _find_dynamic_slice self (cursor self) (Some current_limit_k) ;;
        let k := fst r in
        let mask := snd r in
        let desired_len := k * active_rho in
        let reply_bits := Z.max 4 (Z.min desired_len MAX_REPLY_BITS) in
        q <- Py.floordiv reply_bits active_rho ;;
        let num_logical_slots := Z.max 1 q in
        epc_ints <- group_ints (sorted_tags_bin self)
                      (Py.range (cursor self) (cursor self + k)) ;;
        seed <- _find_perfect_seed epc_ints num_logical_slots ;;
        match seed with
        | Some sd => Ok (mkPlan k mask sd reply_bits num_logical_slots)
        | None => plan_group fuel' self active_rho MAX_REPLY_BITS (k - 1)
        end
    end
  else Ok (mkPlan 0 EmptyString 0 0 0).

Fixpoint build_context (current_group : list SortedTag.t)
    (final_seed final_num_slots active_rho : Z) : Result (list Sent.t) :=
  match current_group with
  | [] => Ok []
  | item :: rest =>
      s <- Py.mod_ (Z.lxor (SortedTag.int item) final_seed) final_num_slots ;;
      more <- build_context rest final_seed final_num_slots active_rho ;;
      Ok (Sent.mk (SortedTag.hex item) s active_rho :: more)
  end.

(** The closure [protocol_logic] handed to the kernel. *)
Definition protocol_logic (final_mask : string) (tag : Tag) : Result bool :=
  t_bin <- epc_bin (epc tag) ;;
  Ok (Py.startswith t_bin final_mask).

(** Phases 2 and 3 of [get_next_command]. *)
Definition schedule_next (self : LODS_MTI_Algorithm) (error_flag : bool)
  : Result (LODS_MTI_Algorithm * ReaderCommand) :=
  if cursor self >=? total_tags self then
    Ok ({| max_group_size := max_group_size self;
           is_adaptive := is_adaptive self;
           target_rho := target_rho self;
           max_payload_bit := max_payload_bit self;
           current_rho := current_rho self;
           sorted_tags_bin := sorted_tags_bin self;
           total_tags := total_tags self;
           cursor := cursor self;
           is_running := false;
           last_sent_context := last_sent_context self;
           verified_present := verified_present self;
           verified_missing := verified_missing self |},
        ReaderCommand_default (-1) 0)
  else
    let active_rho := current_rho self in
    let MAX_REPLY_BITS :=
      if (active_rho >=? 4) && error_flag
      then Z.min 128 (max_payload_bit self)
      else max_payload_bit self in
    max_phys_k <- Py.floordiv MAX_REPLY_BITS active_rho ;;
    let current_limit_k := Z.min (max_group_size self) max_phys_k in
    let current_limit_k :=
      Z.min current_limit_k (total_tags self - cursor self) in
    p <- plan_group (Z.to_nat current_limit_k) self active_rho MAX_REPLY_BITS
           current_limit_k ;;
    let current_group :=
      Py.slice (sorted_tags_bin self) (cursor self) (cursor self + final_k p) in
    current_context <-
      build_context current_group (final_seed p) (final_num_slots p) active_rho ;;
    let base_len := Z.of_nat (String.length (final_mask p)) + 4 + 4 in
    let crc_len := if base_len <? 32 then 5 else 16 in
    let payload_cost := base_len + crc_len in
    Ok ({| max_group_size := max_group_size self;
           is_adaptive := is_adaptive self;
           target_rho := target_rho self;
           max_payload_bit := max_payload_bit self;
           current_rho := current_rho self;
           sorted_tags_bin := sorted_tags_bin self;
           total_tags := total_tags self;
           cursor := cursor self + final_k p;
           is_running := is_running self;
           last_sent_context := current_context;
           verified_present := verified_present self;
           verified_missing := verified_missing self |},
        {| payload_bits := payload_cost;
           expected_reply_bits := final_reply_bits p;
           response_protocol := protocol_logic (final_mask p);
           concatenated_tags_count := 1 |}).

Definition LODS_get_next_command (self : LODS_MTI_Algorithm)
    (prev_result : SlotResult) : Result (LODS_MTI_Algorithm * ReaderCommand) :=
  v <- verify_previous self prev_result ;;
  schedule_next (fst v) (snd v).

Definition LODS_is_finished (self : LODS_MTI_Algorithm) : bool :=
  negb (is_running self).

Definition LODS_get_results (self : LODS_MTI_Algorithm)
  : gset string * gset string :=
  (verified_present self, verified_missing self).

#[global] Instance LODS_interface : AlgorithmInterface LODS_MTI_Algorithm := {
  supports_phy_impairments := fun _ => false;
  initialize := LODS_initialize;
  get_next_command := LODS_get_next_command;
  is_finished := LODS_is_finished;
  get_results := LODS_get_results
}.


(* ------------------------------------------------------------------------- *)
(** * Properties *)

(** ** The result monad *)

Lemma bind_Ok {A B : Type} (m : Result A) (k : A -> Result B) (b : B) :
  bind m k = Ok b -> exists a, m = Ok a /\ k a = Ok b.
Proof. destruct m; simpl; intros E; try discriminate. eauto. Qed.

Lemma bind_not_OutOfFuel {A B : Type} (m : Result A) (k : A -> Result B) :
  m <> OutOfFuel -> (forall a, k a <> OutOfFuel) -> bind m k <> OutOfFuel.
Proof. destruct m; simpl; auto. Qed.

Ltac inv_bind H :=
  let a := fresh "a" in
  let E := fresh "E" in
  apply bind_Ok in H as (a & E & H).

(** ** The perfect-seed search *)

(** C6.  For a list of one identifier value and a positive modulus the
    search returns seed 0: the first seed tried cannot make a lone value
    collide. *)
Theorem singleton_seed_is_zero (val mod_size : Z) :
  0 < mod_size -> _find_perfect_seed [val] mod_size = Ok (Some 0).
Proof.
  intros Hm. unfold _find_perfect_seed, Py.range.
  change (seqZ 0 (16 - 0)) with (0 :: seqZ 1 15).
  cbn [seed_scan seed_collides]. unfold Py.mod_.
  destruct (Z.eqb_spec mod_size 0) as [->|_]; [lia|].
  cbn [bind]. rewrite bool_decide_eq_false_2 by set_solver.
  reflexivity.
Qed.

Lemma singleton_seed_is_zero_witness :
  _find_perfect_seed [69943612219623985531800518666] 2 = Ok (Some 0).
Proof. apply singleton_seed_is_zero. lia. Defined.

(** ** Strings: prefixes and the lexicographic order *)

Lemma prefix_lcp_l (a b : string) : String.prefix (_get_lcp a b) a = true.
Proof.
  revert b. induction a as [|x a IH]; intros [|y b]; simpl; auto.
  destruct (Ascii.eqb_spec x y) as [->|]; simpl; auto.
  destruct (ascii_dec y y); [apply IH|congruence].
Qed.

Lemma prefix_lcp_r (a b : string) : String.prefix (_get_lcp a b) b = true.
Proof.
  revert b. induction a as [|x a IH]; intros [|y b]; simpl; auto.
  destruct (Ascii.eqb_spec x y) as [->|]; simpl; auto.
  destruct (ascii_dec y y); [apply IH|congruence].
Qed.

Lemma prefix_refl (s : string) : String.prefix s s = true.
Proof.
  induction s as [|x s IH]; simpl; auto.
  destruct (ascii_dec x x); [apply IH|congruence].
Qed.

Lemma lcp_self (s : string) : _get_lcp s s = s.
Proof.
  induction s as [|x s IH]; simpl; auto.
  rewrite Ascii.eqb_refl, IH. reflexivity.
Qed.

Lemma prefix_same_length (p s : string) :
  String.prefix p s = true -> String.length p = String.length s -> p = s.
Proof.
  revert s. induction p as [|x p IH]; intros [|y s]; simpl; try discriminate; auto.
  destruct (ascii_dec x y) as [->|]; [|discriminate].
  intros Hp Hl. f_equal. apply IH; auto.
Qed.

Lemma ascii_compare_refl (x : ascii) : Ascii.compare x x = Eq.
Proof. unfold Ascii.compare. apply N.compare_refl. Qed.

Lemma string_leb_refl (s : string) : String.leb s s = true.
Proof.
  unfold String.leb.
  assert (String.compare s s = Eq) as ->; [|reflexivity].
  induction s as [|x s IH]; simpl; auto. rewrite ascii_compare_refl. exact IH.
Qed.

Lemma string_compare_trans_le (a b c : string) :
  String.compare a b <> Gt -> String.compare b c <> Gt ->
  String.compare a c <> Gt.
Proof.
  revert b c. induction a as [|x a IH]; intros [|y b] [|z c]; simpl; try congruence.
  unfold Ascii.compare.
  destruct (N.compare_spec (N_of_ascii x) (N_of_ascii y)) as [Exy|Lxy|Gxy];
    destruct (N.compare_spec (N_of_ascii y) (N_of_ascii z)) as [Eyz|Lyz|Gyz];
    try congruence.
  - rewrite Exy, Eyz, N.compare_refl. apply IH.
  - rewrite Exy. apply N.compare_lt_iff in Lyz. rewrite Lyz. congruence.
  - rewrite <- Eyz. apply N.compare_lt_iff in Lxy. rewrite Lxy. congruence.
  - assert (N_of_ascii x < N_of_ascii z)%N as L by lia.
    apply N.compare_lt_iff in L. rewrite L. congruence.
Qed.

Lemma string_leb_trans (a b c : string) :
  String.leb a b = true -> String.leb b c = true -> String.leb a c = true.
Proof.
  unfold String.leb. intros H1 H2.
  pose proof (string_compare_trans_le a b c) as T.
  destruct (String.compare a b), (String.compare b c), (String.compare a c);
    try discriminate; try reflexivity; exfalso; apply T; congruence.
Qed.

(** A string that lies between two strings with a common prefix has that
    prefix too. *)
Lemma prefix_between (p a b c : string) :
  String.leb a b = true -> String.leb b c = true ->
  String.prefix p a = true -> String.prefix p c = true ->
  String.prefix p b = true.
Proof.
  unfold String.leb.
  revert a b c. induction p as [|x p IH]; intros a b c Hab Hbc Ha Hc.
  { destruct b; reflexivity. }
  destruct a as [|xa a]; [discriminate|].
  destruct c as [|xc c]; [discriminate|].
  simpl in Ha, Hc.
  destruct (ascii_dec x xa) as [<-|]; [|discriminate].
  destruct (ascii_dec x xc) as [<-|]; [|discriminate].
  destruct b as [|y b]; [discriminate|].
  simpl in Hab, Hbc. simpl.
  unfold Ascii.compare in Hab, Hbc.
  destruct (N.compare_spec (N_of_ascii x) (N_of_ascii y)) as [Exy|Lxy|Gxy];
    [| |discriminate].
  - rewrite <- Exy, N.compare_refl in Hbc.
    assert (x = y) as <-.
    { rewrite <- (ascii_N_embedding x), <- (ascii_N_embedding y). congruence. }
    destruct (ascii_dec x x); [|congruence].
    eapply IH; eauto.
  - destruct (N.compare_spec (N_of_ascii y) (N_of_ascii x)) as [E|L|G];
      try discriminate; lia.
Qed.

(** ** Lists: indexing, slices and the stable sort *)

Lemma getitem_Some {A : Type} (l : list A) (i : Z) (x : A) :
  0 <= i -> l !! Z.to_nat i = Some x -> Py.getitem l i = Ok x.
Proof.
  intros Hi Hl. unfold Py.getitem.
  apply lookup_lt_Some in Hl as Hlt.
  destruct (Z.ltb_spec i 0); [lia|].
  destruct (Z.leb_spec 0 i); [|lia].
  destruct (Z.ltb_spec i (Z.of_nat (length l))); [|lia].
  simpl. rewrite Hl. reflexivity.
Qed.

Lemma getitem_Ok {A : Type} (l : list A) (i : Z) (x : A) :
  0 <= i -> Py.getitem l i = Ok x ->
  l !! Z.to_nat i = Some x /\ i < Z.of_nat (length l).
Proof.
  intros Hi. unfold Py.getitem.
  destruct (Z.ltb_spec i 0); [lia|].
  destruct (Z.leb_spec 0 i); [|lia].
  destruct (Z.ltb_spec i (Z.of_nat (length l))); simpl; [|discriminate].
  destruct (l !! Z.to_nat i); [|discriminate].
  intros [= ->]. auto.
Qed.

Lemma getitem_in_range {A : Type} (l : list A) (i : Z) :
  0 <= i < Z.of_nat (length l) -> exists x, Py.getitem l i = Ok x.
Proof.
  intros Hi. destruct (lookup_lt_is_Some_2 l (Z.to_nat i)) as [x Hx]; [lia|].
  exists x. apply getitem_Some; [lia|exact Hx].
Qed.

Lemma slice_nonneg {A : Type} (l : list A) (a b : Z) :
  0 <= a <= b -> b <= Z.of_nat (length l) ->
  Py.slice l a b = take (Z.to_nat (b - a)) (drop (Z.to_nat a) l).
Proof.
  intros Ha Hb. unfold Py.slice, Py.clamp_index.
  destruct (Z.ltb_spec a 0); [lia|].
  destruct (Z.ltb_spec b 0); [lia|].
  rewrite !Z.min_l by lia. reflexivity.
Qed.

Section SortFacts.
Context {A : Type} (le : A -> A -> bool).
Hypothesis le_total : forall x y, le x y = true \/ le y x = true.
Hypothesis le_trans : forall x y z, le x y = true -> le y z = true -> le x z = true.

Lemma insert_sorted_Permutation (x : A) (l : list A) :
  Py.insert_sorted le x l ≡ₚ x :: l.
Proof.
  induction l as [|y l IH]; simpl; [reflexivity|].
  destruct (le x y); [reflexivity|].
  rewrite IH. apply Permutation_swap.
Qed.

Lemma sorted_Permutation (l : list A) : Py.sorted le l ≡ₚ l.
Proof.
  induction l as [|x l IH]; simpl; [reflexivity|].
  rewrite insert_sorted_Permutation, IH. reflexivity.
Qed.

Lemma insert_sorted_StronglySorted (x : A) (l : list A) :
  StronglySorted (fun a b => le a b = true) l ->
  StronglySorted (fun a b => le a b = true) (Py.insert_sorted le x l).
Proof.
  induction 1 as [|y l Hs IH Hy]; simpl.
  - repeat constructor.
  - destruct (le x y) eqn:E.
    + constructor; [constructor; assumption|].
      constructor; [exact E|].
      eapply Forall_impl; [exact Hy|]. intros z Hz. eapply le_trans; eauto.
    + constructor; [exact IH|].
      rewrite insert_sorted_Permutation. constructor; [|exact Hy].
      destruct (le_total x y); congruence.
Qed.

Lemma sorted_StronglySorted (l : list A) :
  StronglySorted (fun a b => le a b = true) (Py.sorted le l).
Proof.
  induction l as [|x l IH]; simpl; [constructor|].
  apply insert_sorted_StronglySorted, IH.
Qed.

Lemma sorted_length (l : list A) : length (Py.sorted le l) = length l.
Proof. apply Permutation_length, sorted_Permutation. Qed.

End SortFacts.

Lemma StronglySorted_lookup_le {A : Type} (R : A -> A -> Prop) (l : list A)
    (i j : nat) (x y : A) :
  (forall a, R a a) -> StronglySorted R l -> (i <= j)%nat ->
  l !! i = Some x -> l !! j = Some y -> R x y.
Proof.
  intros Hrefl Hs. revert i j. induction Hs as [|a l Hs IH Ha]; intros i j Hij Hi Hj.
  - discriminate.
  - destruct i as [|i], j as [|j]; simpl in *; try lia.
    + injection Hi as <-. injection Hj as <-. apply Hrefl.
    + injection Hi as <-. rewrite Forall_forall in Ha. apply Ha.
      eapply list_elem_of_lookup_2; eauto.
    + eapply (IH i j); eauto. lia.
Qed.

(** ** The slicing step *)

Lemma elem_of_countdown (limit_k k : Z) :
  k ∈ countdown limit_k <-> 1 <= k <= limit_k.
Proof.
  unfold countdown, Py.range. rewrite elem_of_reverse, elem_of_seqZ. lia.
Qed.

Lemma slice_scan_Some (tags : list SortedTag.t) (start_idx : Z) (ks : list Z)
    (k : Z) (mask : string) :
  0 <= start_idx -> (forall k', k' ∈ ks -> 1 <= k') ->
  slice_scan tags start_idx ks = Ok (Some (k, mask)) ->
  k ∈ ks /\
  exists first last outside,
    tags !! Z.to_nat start_idx = Some first /\
    tags !! Z.to_nat (start_idx + k - 1) = Some last /\
    tags !! Z.to_nat (start_idx + k) = Some outside /\
    mask = _get_lcp (SortedTag.bin first) (SortedTag.bin last) /\
    Py.startswith (SortedTag.bin outside) mask = false.
Proof.
  intros Hs. induction ks as [|k0 ks IH]; intros Hks E; simpl in E; [discriminate|].
  assert (1 <= k0) as Hk0 by (apply Hks; left).
  inv_bind E. rename a into first. inv_bind E. rename a into last.
  inv_bind E. rename a into outside.
  apply getitem_Ok in E0 as [E0 _]; [|lia].
  apply getitem_Ok in E1 as [E1 _]; [|lia].
  apply getitem_Ok in E2 as [E2 _]; [|lia].
  destruct (Py.startswith _ _) eqn:Hp.
  - destruct IH as [Hin Hex]; [intros; apply Hks; right; assumption|exact E|].
    split; [right; exact Hin|exact Hex].
  - injection E as <- <-. split; [left|]. eauto 10.
Qed.

Lemma slice_scan_total (tags : list SortedTag.t) (start_idx : Z) (ks : list Z) :
  0 <= start_idx ->
  (forall k, k ∈ ks -> 1 <= k /\ start_idx + k < Z.of_nat (length tags)) ->
  exists r, slice_scan tags start_idx ks = Ok r.
Proof.
  intros Hs. induction ks as [|k0 ks IH]; intros Hks; simpl; [eauto|].
  destruct (Hks k0) as [H1 H2]; [left|].
  destruct (getitem_in_range tags start_idx) as [x ->]; [lia|].
  destruct (getitem_in_range tags (start_idx + k0 - 1)) as [y ->]; [lia|].
  destruct (getitem_in_range tags (start_idx + k0)) as [z ->]; [lia|].
  simpl. destruct (Py.startswith _ _); [|eauto].
  apply IH. intros; apply Hks; right; assumption.
Qed.

(** The group size limit [_find_dynamic_slice] works with. *)
Definition slice_limit (self : LODS_MTI_Algorithm) (start_idx : Z)
    (limit_k_override : option Z) : Z :=
  let limit_k := Z.min (max_group_size self) (total_tags self - start_idx) in
  match limit_k_override with
  | Some o => Z.min limit_k o
  | None => limit_k
  end.

Lemma find_dynamic_slice_at_end (self : LODS_MTI_Algorithm)
    (limit_k_override : option Z) :
  _find_dynamic_slice self (total_tags self) limit_k_override
  = Ok (0, EmptyString).
Proof. unfold _find_dynamic_slice. rewrite Z.sub_diag. reflexivity. Qed.

Lemma find_dynamic_slice_spec (self : LODS_MTI_Algorithm) (start_idx : Z)
    (limit_k_override : option Z) (k : Z) (mask : string) :
  total_tags self = Z.of_nat (length (sorted_tags_bin self)) ->
  0 <= start_idx < total_tags self ->
  _find_dynamic_slice self start_idx limit_k_override = Ok (k, mask) ->
  1 <= k <= total_tags self - start_idx /\
  k <= Z.max 1 (slice_limit self start_idx limit_k_override) /\
  exists first last,
    sorted_tags_bin self !! Z.to_nat start_idx = Some first /\
    sorted_tags_bin self !! Z.to_nat (start_idx + k - 1) = Some last /\
    mask = _get_lcp (SortedTag.bin first) (SortedTag.bin last) /\
    (start_idx + k = total_tags self
     \/ (exists outside,
           sorted_tags_bin self !! Z.to_nat (start_idx + k) = Some outside /\
           Py.startswith (SortedTag.bin outside) mask = false)
     \/ k = 1).
Proof.
  intros Htot Hs E. unfold _find_dynamic_slice in E.
  destruct (Z.eqb_spec (total_tags self - start_idx) 0); [lia|].
  fold (slice_limit self start_idx limit_k_override) in E.
  assert (slice_limit self start_idx limit_k_override
          <= total_tags self - start_idx) as Hlim.
  { unfold slice_limit. destruct limit_k_override; lia. }
  set (lim := slice_limit self start_idx limit_k_override) in *.
  destruct (Z.geb_spec (start_idx + lim) (total_tags self)) as [Hend|Hin].
  - inv_bind E. rename a into first. inv_bind E. rename a into last.
    injection E as <- <-.
    apply getitem_Ok in E0 as [E0 _]; [|lia].
    apply getitem_Ok in E1 as [E1 _]; [|lia].
    split; [lia|]. split; [lia|]. exists first, last.
    repeat split; auto. left; lia.
  - inv_bind E. destruct a as [[k' mask']|].
    + injection E as -> ->.
      apply slice_scan_Some in E0 as (Hk & first & last & outside & H1 & H2 & H3 & H4 & H5);
        [|lia|intros ? ?%elem_of_countdown; lia].
      apply elem_of_countdown in Hk.
      pose proof (lookup_lt_Some _ _ _ H3) as Hlt.
      split; [lia|]. split; [lia|]. exists first, last.
      repeat split; auto. right; left. eauto.
    + inv_bind E. rename a into first. injection E as <- <-.
      apply getitem_Ok in E1 as [E1 _]; [|lia].
      split; [lia|]. split; [lia|]. exists first, first.
      replace (start_idx + 1 - 1) with start_idx by lia.
      rewrite lcp_self. repeat split; auto.
Qed.

Lemma find_dynamic_slice_total (self : LODS_MTI_Algorithm) (start_idx : Z)
    (limit_k_override : option Z) :
  total_tags self = Z.of_nat (length (sorted_tags_bin self)) ->
  0 <= start_idx <= total_tags self ->
  exists r, _find_dynamic_slice self start_idx limit_k_override = Ok r.
Proof.
  intros Htot Hs. unfold _find_dynamic_slice.
  destruct (Z.eqb_spec (total_tags self - start_idx) 0); [eauto|].
  fold (slice_limit self start_idx limit_k_override).
  assert (slice_limit self start_idx limit_k_override
          <= total_tags self - start_idx) as Hlim.
  { unfold slice_limit. destruct limit_k_override; lia. }
  set (lim := slice_limit self start_idx limit_k_override) in *.
  destruct (getitem_in_range (sorted_tags_bin self) start_idx) as [x Hx]; [lia|].
  destruct (Z.geb_spec (start_idx + lim) (total_tags self)) as [Hend|Hin].
  - rewrite Hx.
    destruct (getitem_in_range (sorted_tags_bin self) (start_idx + lim - 1))
      as [y ->]; [lia|].
    simpl. eauto.
  - destruct (slice_scan_total (sorted_tags_bin self) start_idx (countdown lim))
      as [r ->]; [lia|intros ? ?%elem_of_countdown; lia|].
    simpl. destruct r as [r|]; [eauto|]. rewrite Hx. simpl. eauto.
Qed.

Lemma slice_scan_mem (tags : list SortedTag.t) (start_idx : Z) (ks : list Z)
    (k : Z) (mask : string) :
  slice_scan tags start_idx ks = Ok (Some (k, mask)) -> k ∈ ks.
Proof.
  induction ks as [|k0 ks IH]; simpl; intros E; [discriminate|].
  inv_bind E. inv_bind E. inv_bind E.
  destruct (Py.startswith _ _).
  - right. auto.
  - injection E as <- <-. left.
Qed.

(** Whatever the state, the size returned is at most the limit (or 1). *)
Lemma find_dynamic_slice_le (self : LODS_MTI_Algorithm) (start_idx : Z)
    (limit_k_override : option Z) (k : Z) (mask : string) :
  _find_dynamic_slice self start_idx limit_k_override = Ok (k, mask) ->
  k <= Z.max 1 (slice_limit self start_idx limit_k_override).
Proof.
  unfold _find_dynamic_slice.
  fold (slice_limit self start_idx limit_k_override).
  destruct (_ =? 0); [intros [= <- <-]; lia|].
  destruct (_ >=? _).
  - intros E. inv_bind E. inv_bind E. injection E as <- <-. lia.
  - intros E. inv_bind E. destruct a as [[k' m']|].
    + injection E as -> ->. apply slice_scan_mem, elem_of_countdown in E0. lia.
    + inv_bind E. injection E as <- <-. lia.
Qed.

(** ** The perfect-seed search, in general *)

Definition sub_slot (seed mod_size val : Z) : Z := Z.lxor val seed mod mod_size.

Lemma seed_collides_false (seed mod_size : Z) (epc_ints : list Z)
    (slots : gset Z) :
  seed_collides seed mod_size epc_ints slots = Ok false ->
  NoDup (sub_slot seed mod_size <$> epc_ints) /\
  (forall s, s ∈ sub_slot seed mod_size <$> epc_ints -> s ∉ slots) /\
  (epc_ints <> [] -> mod_size <> 0).
Proof.
  revert slots. induction epc_ints as [|val rest IH]; intros slots E.
  - simpl. split; [constructor|]. split; [intros s Hs; inversion Hs|congruence].
  - simpl in E. inv_bind E. unfold Py.mod_ in E0.
    destruct (Z.eqb_spec mod_size 0) as [|Hm]; [discriminate|].
    injection E0 as <-. fold (sub_slot seed mod_size val) in E.
    destruct (bool_decide_reflect (sub_slot seed mod_size val ∈ slots)) as [|Hnot];
      [discriminate|].
    apply IH in E as (Hnd & Hfresh & _).
    split; [|split; [|auto]].
    + rewrite fmap_cons. constructor; [|exact Hnd].
      intros Hin. apply Hfresh in Hin. set_solver.
    + intros s Hs. rewrite fmap_cons in Hs.
      apply elem_of_cons in Hs as [->|Hs]; [exact Hnot|].
      apply Hfresh in Hs. set_solver.
Qed.

Lemma seed_scan_Some (seeds epc_ints : list Z) (mod_size seed : Z) :
  seed_scan seeds epc_ints mod_size = Ok (Some seed) ->
  seed ∈ seeds /\ seed_collides seed mod_size epc_ints ∅ = Ok false.
Proof.
  induction seeds as [|s0 seeds IH]; simpl; intros E; [discriminate|].
  inv_bind E. destruct a; simpl in E.
  - apply IH in E as [? ?]. split; [right|]; assumption.
  - injection E as <-. split; [left|assumption].
Qed.

Lemma find_perfect_seed_injective (epc_ints : list Z) (mod_size seed : Z) :
  _find_perfect_seed epc_ints mod_size = Ok (Some seed) ->
  NoDup (sub_slot seed mod_size <$> epc_ints) /\
  (epc_ints <> [] -> mod_size <> 0) /\ 0 <= seed < 16.
Proof.
  intros E. apply seed_scan_Some in E as [Hin E].
  apply seed_collides_false in E as (? & _ & ?).
  unfold Py.range in Hin. apply elem_of_seqZ in Hin. repeat split; auto; lia.
Qed.

(** ** Building a group and its context *)

Lemma group_ints_seqZ (tags : list SortedTag.t) (n : nat) (c : Z)
    (ints : list Z) :
  0 <= c ->
  group_ints tags (seqZ c (Z.of_nat n)) = Ok ints ->
  ints = SortedTag.int <$> take n (drop (Z.to_nat c) tags) /\
  (0 < Z.of_nat n -> c + Z.of_nat n <= Z.of_nat (length tags)).
Proof.
  revert c ints. induction n as [|n IH]; intros c ints Hc E.
  - simpl in E. injection E as <-. rewrite take_0. split; [reflexivity|lia].
  - rewrite seqZ_cons in E by lia. simpl in E.
    inv_bind E. rename a into x. inv_bind E. rename a into more.
    injection E as <-.
    apply getitem_Ok in E0 as [E0 Hlt]; [|lia].
    replace (Z.pred (Z.of_nat (S n))) with (Z.of_nat n) in E1 by lia.
    replace (Z.succ c) with (c + 1) in E1 by lia.
    apply IH in E1 as [-> Hle]; [|lia].
    split; [|lia].
    rewrite (drop_S _ _ _ E0). simpl.
    replace (Z.to_nat (c + 1)) with (S (Z.to_nat c)) by lia. reflexivity.
Qed.

Lemma group_ints_range (tags : list SortedTag.t) (c k : Z) (ints : list Z) :
  0 <= c -> 0 <= k ->
  group_ints tags (Py.range c (c + k)) = Ok ints ->
  ints = SortedTag.int <$> take (Z.to_nat k) (drop (Z.to_nat c) tags) /\
  (0 < k -> c + k <= Z.of_nat (length tags)).
Proof.
  intros Hc Hk E. unfold Py.range in E.
  replace (c + k - c) with (Z.of_nat (Z.to_nat k)) in E by lia.
  apply group_ints_seqZ in E as [-> ?]; [|lia]. split; [reflexivity|lia].
Qed.

Definition sent_of (seed num_slots rho : Z) (item : SortedTag.t) : Sent.t :=
  Sent.mk (SortedTag.hex item) (sub_slot seed num_slots (SortedTag.int item)) rho.

Lemma build_context_spec (group : list SortedTag.t)
    (seed num_slots rho : Z) (context : list Sent.t) :
  build_context group seed num_slots rho = Ok context ->
  context = sent_of seed num_slots rho <$> group.
Proof.
  revert context. induction group as [|item rest IH]; intros context E; simpl in E.
  - injection E as <-. reflexivity.
  - inv_bind E. inv_bind E. injection E as <-.
    unfold Py.mod_ in E0. destruct (num_slots =? 0); [discriminate|].
    injection E0 as <-. rewrite (IH _ E1). reflexivity.
Qed.

Lemma build_context_total (group : list SortedTag.t) (seed num_slots rho : Z) :
  num_slots <> 0 ->
  build_context group seed num_slots rho
  = Ok (sent_of seed num_slots rho <$> group).
Proof.
  intros Hm. induction group as [|item rest IH]; simpl; [reflexivity|].
  unfold Py.mod_. destruct (Z.eqb_spec num_slots 0); [contradiction|].
  simpl. rewrite IH. reflexivity.
Qed.

(** ** Bit fields *)

(** The number of set bits of [x] among the [n] positions from [k] on. *)
Fixpoint count_bits (x k : Z) (n : nat) : Z :=
  match n with
  | O => 0
  | S n' => Z.b2z (Z.testbit x k) + count_bits x (k + 1) n'
  end.

Lemma count_bits_bounds (x k : Z) (n : nat) :
  0 <= count_bits x k n <= Z.of_nat n.
Proof.
  revert k. induction n as [|n IH]; intros k; simpl count_bits; [lia|].
  specialize (IH (k + 1)). destruct (Z.testbit x k); simpl Z.b2z; lia.
Qed.

Lemma count_bits_ext (x y k : Z) (n : nat) :
  (forall t, k <= t < k + Z.of_nat n -> Z.testbit x t = Z.testbit y t) ->
  count_bits x k n = count_bits y k n.
Proof.
  revert k. induction n as [|n IH]; intros k H; simpl; [reflexivity|].
  rewrite (H k) by lia. rewrite (IH (k + 1)); [reflexivity|].
  intros t Ht. apply H. lia.
Qed.

Lemma count_bits_app (x k : Z) (n m : nat) :
  count_bits x k (n + m) = count_bits x k n + count_bits x (k + Z.of_nat n) m.
Proof.
  revert k. induction n as [|n IH]; intros k.
  - simpl. rewrite Z.add_0_r. reflexivity.
  - cbn [Nat.add count_bits]. rewrite IH.
    replace (k + 1 + Z.of_nat n) with (k + Z.of_nat (S n)) by lia. lia.
Qed.

Lemma count_bits_zero (x k : Z) (n : nat) :
  (forall t, k <= t < k + Z.of_nat n -> Z.testbit x t = false) ->
  count_bits x k n = 0.
Proof.
  revert k. induction n as [|n IH]; intros k H; simpl; [reflexivity|].
  rewrite (H k) by lia. rewrite IH; [reflexivity|]. intros t Ht. apply H. lia.
Qed.

Lemma count_bits_full (x k : Z) (n : nat) :
  (forall t, k <= t < k + Z.of_nat n -> Z.testbit x t = true) ->
  count_bits x k n = Z.of_nat n.
Proof.
  revert k. induction n as [|n IH]; intros k H; [reflexivity|].
  cbn [count_bits]. rewrite (H k) by lia. rewrite IH; [simpl Z.b2z; lia|].
  intros t Ht. apply H. lia.
Qed.

(** Complementing every bit of the field complements the count. *)
Lemma count_bits_negb (x y k : Z) (n : nat) :
  (forall t, k <= t < k + Z.of_nat n -> Z.testbit x t = negb (Z.testbit y t)) ->
  count_bits x k n = Z.of_nat n - count_bits y k n.
Proof.
  revert k. induction n as [|n IH]; intros k H; [reflexivity|].
  cbn [count_bits]. rewrite (H k) by lia. rewrite IH.
  - destruct (Z.testbit y k); simpl; lia.
  - intros t Ht. apply H. lia.
Qed.

Lemma count_bits_shift (x k : Z) (n : nat) :
  0 <= k -> count_bits x (k + 1) n = count_bits (Z.div2 x) k n.
Proof.
  revert k. induction n as [|n IH]; intros k Hk; simpl; [reflexivity|].
  rewrite IH by lia. rewrite (Z.div2_spec x), Z.shiftr_spec by lia. reflexivity.
Qed.

Lemma popcount_pos_spec (p : positive) (n : nat) :
  Z.pos p < 2 ^ Z.of_nat n -> Py.popcount_pos p = count_bits (Z.pos p) 0 n.
Proof.
  revert p. induction n as [|n IH]; intros p Hp.
  - simpl in Hp. lia.
  - rewrite Nat2Z.inj_succ, Z.pow_succ_r in Hp by lia.
    cbn [count_bits]. rewrite count_bits_shift by lia.
    destruct p as [q|q|]; cbn [Py.popcount_pos Z.div2 Z.testbit Z.b2z Pos.testbit].
    + rewrite (IH q) by lia. reflexivity.
    + rewrite (IH q) by lia. reflexivity.
    + rewrite count_bits_zero; [reflexivity|]. intros t _. apply Z.bits_0.
Qed.

Lemma bit_count_spec (x : Z) (n : nat) :
  0 <= x < 2 ^ Z.of_nat n -> Py.bit_count x = count_bits x 0 n.
Proof.
  intros [H0 Hn]. destruct x as [|p|p]; [| |lia].
  - symmetry. apply count_bits_zero. intros t _. apply Z.bits_0.
  - apply popcount_pos_spec. exact Hn.
Qed.

(** The mask of a sub-field: [((1 << rho) - 1) << start_bit]. *)
Lemma field_mask_testbit (rho start_bit t : Z) :
  0 <= rho -> 0 <= start_bit -> 0 <= t ->
  Z.testbit (Z.shiftl (Z.shiftl 1 rho - 1) start_bit) t
  = (start_bit <=? t) && (t <? start_bit + rho).
Proof.
  intros Hr Hs Ht. rewrite Z.shiftl_spec by lia.
  rewrite Z.sub_1_r. change (Z.pred (Z.shiftl 1 rho)) with (Z.ones rho).
  destruct (Z.leb_spec start_bit t).
  - rewrite Z.testbit_ones by lia.
    destruct (Z.leb_spec 0 (t - start_bit)); [|lia]. simpl.
    destruct (Z.ltb_spec (t - start_bit) rho), (Z.ltb_spec t (start_bit + rho));
      try reflexivity; lia.
  - rewrite Z.testbit_neg_r by lia. reflexivity.
Qed.

Lemma field_mask_range (rho start_bit : Z) :
  0 <= rho -> 0 <= start_bit ->
  0 <= Z.shiftl (Z.shiftl 1 rho - 1) start_bit < 2 ^ (start_bit + rho).
Proof.
  intros Hr Hs. rewrite Z.sub_1_r. change (Z.pred (Z.shiftl 1 rho)) with (Z.ones rho).
  rewrite Z.shiftl_mul_pow2 by lia. rewrite Z.ones_equiv.
  assert (0 < 2 ^ rho) by (apply Z.pow_pos_nonneg; lia).
  assert (0 < 2 ^ start_bit) by (apply Z.pow_pos_nonneg; lia).
  rewrite Z.pow_add_r by lia. nia.
Qed.

(** [match_count] counts the set bits of the received bitmap inside the
    sub-field of the item. *)
Lemma match_count_spec (received_bitmap : Z) (item : Sent.t) (mc : Z) :
  match_count received_bitmap item = Ok mc ->
  0 <= Sent.rho item /\ 0 <= Sent.slot item * Sent.rho item /\
  mc = count_bits received_bitmap (Sent.slot item * Sent.rho item)
                  (Z.to_nat (Sent.rho item)).
Proof.
  unfold match_count, Py.lshift. intros E.
  destruct (Z.ltb_spec (Sent.rho item) 0) as [|Hr]; [discriminate|]. simpl in E.
  destruct (Z.ltb_spec (Sent.slot item * Sent.rho item) 0) as [|Hs]; [discriminate|].
  simpl in E. injection E as <-. split; [exact Hr|]. split; [exact Hs|].
  set (k := Sent.slot item * Sent.rho item) in *.
  set (r := Sent.rho item) in *.
  set (M := Z.shiftl (Z.shiftl 1 r - 1) k).
  pose proof (field_mask_range r k Hr Hs) as HM. fold M in HM.
  assert (0 <= Z.land received_bitmap M < 2 ^ Z.of_nat (Z.to_nat k + Z.to_nat r)) as Hseg.
  { replace (Z.of_nat (Z.to_nat k + Z.to_nat r)) with (k + r) by lia.
    split.
    - apply Z.land_nonneg. right. lia.
    - destruct (Z.eq_dec (Z.land received_bitmap M) 0) as [->|Hne].
      + apply Z.pow_pos_nonneg; lia.
      + apply Z.log2_lt_pow2.
        * assert (0 <= Z.land received_bitmap M) by (apply Z.land_nonneg; right; lia). lia.
        * destruct (Z.eq_dec M 0) as [HM0|HM0].
          { rewrite HM0, Z.land_0_r in Hne. congruence. }
          assert (Z.log2 M < k + r) by (apply Z.log2_lt_pow2; lia).
          assert (Z.log2 (Z.land received_bitmap M) <= Z.log2 M); [|lia].
          destruct (Z.le_gt_cases (Z.log2 (Z.land received_bitmap M)) (Z.log2 M)) as [|Hgt];
            [assumption|exfalso].
          assert (0 < Z.land received_bitmap M) as Hpos.
          { assert (0 <= Z.land received_bitmap M) by (apply Z.land_nonneg; right; lia). lia. }
          pose proof (Z.bit_log2 _ Hpos) as Hb.
          rewrite Z.land_spec in Hb. apply andb_true_iff in Hb as [_ Hb].
          rewrite Z.bits_above_log2 in Hb by lia. discriminate. }
  rewrite (bit_count_spec _ _ Hseg). rewrite count_bits_app.
  rewrite count_bits_zero.
  - rewrite Z.add_0_l, Z.add_0_l. replace (Z.of_nat (Z.to_nat k)) with k by lia.
    apply count_bits_ext. intros t Ht.
    rewrite Z.land_spec. unfold M. rewrite field_mask_testbit by lia.
    destruct (Z.leb_spec k t); [|lia]. destruct (Z.ltb_spec t (k + r)); [|lia].
    apply andb_true_r.
  - intros t Ht. rewrite Z.land_spec. unfold M. rewrite field_mask_testbit by lia.
    destruct (Z.leb_spec k t); [lia|]. apply andb_false_r.
Qed.

Lemma match_count_total (received_bitmap : Z) (item : Sent.t) :
  0 <= Sent.rho item -> 0 <= Sent.slot item ->
  exists mc, match_count received_bitmap item = Ok mc.
Proof.
  intros Hr Hs. unfold match_count, Py.lshift.
  destruct (Z.ltb_spec (Sent.rho item) 0); [lia|]. simpl.
  destruct (Z.ltb_spec (Sent.slot item * Sent.rho item) 0); [nia|]. simpl. eauto.
Qed.

(** ** Verification of a group *)

Definition in_field (item : Sent.t) (t : Z) : bool :=
  (Sent.slot item * Sent.rho item <=? t)
  && (t <? Sent.slot item * Sent.rho item + Sent.rho item).

Definition responds (actual_responders_set : gset string) (item : Sent.t)
  : bool :=
  bool_decide (Sent.epc item ∈ actual_responders_set).

Lemma superimpose_spec (actual_responders_set : gset string)
    (context : list Sent.t) (acc bitmap : Z) :
  superimpose actual_responders_set context acc = Ok bitmap ->
  forall t, 0 <= t ->
    Z.testbit bitmap t
    = Z.testbit acc t
      || existsb (fun item => responds actual_responders_set item
                              && in_field item t) context.
Proof.
  revert acc. induction context as [|item rest IH]; intros acc E t Ht; simpl in E.
  - injection E as <-. cbn [existsb]. rewrite orb_false_r. reflexivity.
  - cbn [existsb]. unfold responds at 1.
    destruct (bool_decide (Sent.epc item ∈ actual_responders_set)).
    + unfold Py.lshift in E.
      destruct (Z.ltb_spec (Sent.rho item) 0) as [|Hr]; [discriminate|]. simpl in E.
      destruct (Z.ltb_spec (Sent.slot item * Sent.rho item) 0) as [|Hs];
        [discriminate|]. simpl in E.
      rewrite (IH _ E t Ht). rewrite Z.lor_spec.
      rewrite field_mask_testbit by lia. unfold in_field.
      rewrite orb_assoc. reflexivity.
    + rewrite (IH _ E t Ht). reflexivity.
Qed.

Lemma superimpose_total (actual_responders_set : gset string)
    (context : list Sent.t) (acc : Z) :
  (forall item, item ∈ context -> 0 <= Sent.rho item /\ 0 <= Sent.slot item) ->
  exists bitmap, superimpose actual_responders_set context acc = Ok bitmap.
Proof.
  revert acc. induction context as [|item rest IH]; intros acc H; simpl; [eauto|].
  destruct (H item) as [Hr Hs]; [left|].
  assert (forall i, i ∈ rest -> 0 <= Sent.rho i /\ 0 <= Sent.slot i) as H'
    by (intros; apply H; right; assumption).
  destruct (bool_decide _); [|apply IH, H'].
  unfold Py.lshift.
  destruct (Z.ltb_spec (Sent.rho item) 0); [lia|]. simpl.
  destruct (Z.ltb_spec (Sent.slot item * Sent.rho item) 0); [nia|]. simpl.
  apply IH, H'.
Qed.

(** A context as the scheduling step builds it: one redundancy for the
    whole group, and no two tags in one sub-slot. *)
Record context_ok (context : list Sent.t) (r : Z) : Prop := {
  ctx_rho : forall item, item ∈ context -> Sent.rho item = r;
  ctx_slot : forall item, item ∈ context -> 0 <= Sent.slot item;
  ctx_slots_distinct : NoDup (Sent.slot <$> context)
}.

Lemma NoDup_fmap_inj_on {A B : Type} (f : A -> B) (l : list A) (x y : A) :
  NoDup (f <$> l) -> x ∈ l -> y ∈ l -> f x = f y -> x = y.
Proof.
  induction l as [|a l IH]; intros Hnd Hx Hy Hf; [inversion Hx|].
  rewrite fmap_cons in Hnd. apply NoDup_cons in Hnd as [Ha Hnd].
  apply elem_of_cons in Hx as [->|Hx]; apply elem_of_cons in Hy as [->|Hy]; auto.
  - exfalso. apply Ha. rewrite Hf. apply list_elem_of_fmap_2. exact Hy.
  - exfalso. apply Ha. rewrite <- Hf. apply list_elem_of_fmap_2. exact Hx.
Qed.

(** Inside the sub-field of an item the superimposed bitmap carries that
    item's own answer and nothing else. *)
Lemma ideal_bit (actual_responders_set : gset string) (context : list Sent.t)
    (r bitmap : Z) (item : Sent.t) (t : Z) :
  context_ok context r -> 1 <= r ->
  superimpose actual_responders_set context 0 = Ok bitmap ->
  item ∈ context ->
  Sent.slot item * r <= t < Sent.slot item * r + r ->
  Z.testbit bitmap t = responds actual_responders_set item.
Proof.
  intros [Hrho Hslot Hnd] Hr E Hin Ht.
  assert (0 <= Sent.slot item) as Hs by (apply Hslot; exact Hin).
  rewrite (superimpose_spec _ _ _ _ E) by nia.
  rewrite Z.bits_0. simpl.
  destruct (responds actual_responders_set item) eqn:Hresp.
  - apply existsb_exists. exists item. split.
    + apply list_elem_of_In. exact Hin.
    + rewrite Hresp. unfold in_field. rewrite (Hrho _ Hin).
      destruct (Z.leb_spec (Sent.slot item * r) t); [|lia].
      destruct (Z.ltb_spec t (Sent.slot item * r + r)); [reflexivity|lia].
  - destruct (existsb _ context) eqn:Hex; [|reflexivity].
    apply existsb_exists in Hex as (j & Hj & Hb).
    apply list_elem_of_In in Hj.
    apply andb_true_iff in Hb as [Hrj Hfj].
    unfold in_field in Hfj. rewrite (Hrho _ Hj) in Hfj.
    apply andb_true_iff in Hfj as [H1 H2].
    apply Z.leb_le in H1. apply Z.ltb_lt in H2.
    assert (Sent.slot j = Sent.slot item) as Heq by nia.
    assert (j = item) as -> by (eapply NoDup_fmap_inj_on; eauto).
    congruence.
Qed.

(** The count a tag gets: the full field minus the flipped bits when it
    answered, the flipped bits alone when it did not. *)
Lemma match_count_received (actual_responders_set : gset string)
    (context : list Sent.t) (r bitmap noise mc : Z) (item : Sent.t) :
  context_ok context r -> 1 <= r ->
  superimpose actual_responders_set context 0 = Ok bitmap ->
  item ∈ context ->
  match_count (Z.lxor bitmap noise) item = Ok mc ->
  mc = if responds actual_responders_set item
       then r - count_bits noise (Sent.slot item * r) (Z.to_nat r)
       else count_bits noise (Sent.slot item * r) (Z.to_nat r).
Proof.
  intros Hok Hr E Hin Hmc.
  apply match_count_spec in Hmc as (_ & _ & ->).
  rewrite (ctx_rho _ _ Hok _ Hin).
  destruct (responds actual_responders_set item) eqn:Hresp.
  - replace r with (Z.of_nat (Z.to_nat r)) at 3 by lia.
    apply count_bits_negb. intros t Ht.
    rewrite Z.lxor_spec, (ideal_bit _ _ _ _ _ _ Hok Hr E Hin) by lia.
    rewrite Hresp. reflexivity.
  - apply count_bits_ext. intros t Ht.
    rewrite Z.lxor_spec, (ideal_bit _ _ _ _ _ _ Hok Hr E Hin) by lia.
    rewrite Hresp. reflexivity.
Qed.

(** The verdict of the second loop on one item. *)
Definition voted_present (received_bitmap vote_threshold : Z) (item : Sent.t)
  : bool :=
  match match_count received_bitmap item with
  | Ok mc => mc >=? vote_threshold
  | _ => false
  end.

(** An imperfect check: the tag is judged missing, or present with fewer
    than [rho] set bits. *)
Definition imperfect (received_bitmap vote_threshold : Z) (item : Sent.t)
  : bool :=
  match match_count received_bitmap item with
  | Ok mc => negb (mc >=? vote_threshold) || (mc <? Sent.rho item)
  | _ => false
  end.

Definition degraded (received_bitmap vote_threshold : Z) (item : Sent.t)
  : bool :=
  match match_count received_bitmap item with
  | Ok mc => (mc >=? vote_threshold) && (mc <? Sent.rho item)
  | _ => false
  end.

Definition epcs_of (context : list Sent.t) : gset string :=
  list_to_set (Sent.epc <$> context).

Lemma check_item_spec (received_bitmap vote_threshold : Z) (t0 t : Tally)
    (item : Sent.t) :
  check_item received_bitmap vote_threshold t0 item = Ok t ->
  let v := voted_present received_bitmap vote_threshold item in
  tally_present t
  = (if v then tally_present t0 ∪ {[ Sent.epc item ]} else tally_present t0) /\
  tally_missing t
  = (if v then tally_missing t0 else tally_missing t0 ∪ {[ Sent.epc item ]}) /\
  total_checks t = total_checks t0 + 1 /\
  error_cnt t
  = (if imperfect received_bitmap vote_threshold item
     then error_cnt t0 + 1 else error_cnt t0) /\
  error_flag t
  = error_flag t0 || degraded received_bitmap vote_threshold item.
Proof.
  unfold check_item, voted_present, imperfect, degraded. intros E.
  inv_bind E. rename a into mc. rewrite E0. cbv zeta.
  destruct (mc >=? vote_threshold); injection E as <-;
    cbn [tally_present tally_missing total_checks error_cnt error_flag negb orb andb];
    destruct (mc <? Sent.rho item); repeat split;
    destruct (error_flag t0); reflexivity.
Qed.

Lemma check_group_spec (received_bitmap vote_threshold : Z)
    (context : list Sent.t) (t0 t : Tally) :
  check_group received_bitmap vote_threshold context t0 = Ok t ->
  tally_present t
  = tally_present t0
    ∪ epcs_of (List.filter (voted_present received_bitmap vote_threshold) context) /\
  tally_missing t
  = tally_missing t0
    ∪ epcs_of (List.filter
                 (fun i => negb (voted_present received_bitmap vote_threshold i))
                 context) /\
  total_checks t = total_checks t0 + Z.of_nat (length context) /\
  error_cnt t
  = error_cnt t0
    + Z.of_nat (length (List.filter (imperfect received_bitmap vote_threshold) context)) /\
  error_flag t
  = error_flag t0 || existsb (degraded received_bitmap vote_threshold) context.
Proof.
  revert t0. induction context as [|item rest IH]; intros t0 E; simpl in E.
  - injection E as <-. unfold epcs_of. cbn [List.filter existsb length].
    rewrite fmap_nil, list_to_set_nil, !(right_id_L ∅ (∪)), orb_false_r.
    repeat split; lia.
  - inv_bind E. rename a into t1.
    apply check_item_spec in E0 as (Hp1 & Hm1 & Hc1 & He1 & Hf1).
    apply IH in E as (Hp & Hm & Hc & He & Hf).
    rewrite Hp, Hm, Hc, He, Hf, Hp1, Hm1, Hc1, He1, Hf1.
    clear Hp Hm Hc He Hf Hp1 Hm1 Hc1 He1 Hf1.
    cbn [List.filter existsb]. unfold epcs_of.
    destruct (voted_present received_bitmap vote_threshold item);
      destruct (imperfect received_bitmap vote_threshold item);
      cbn [negb length]; rewrite ?fmap_cons, ?list_to_set_cons,
        ?(assoc_L (∪)), ?orb_assoc;
      repeat split; lia.
Qed.

Lemma check_group_total (received_bitmap vote_threshold : Z)
    (context : list Sent.t) (t0 : Tally) :
  (forall item, item ∈ context -> 0 <= Sent.rho item /\ 0 <= Sent.slot item) ->
  exists t, check_group received_bitmap vote_threshold context t0 = Ok t.
Proof.
  revert t0. induction context as [|item rest IH]; intros t0 H; simpl; [eauto|].
  destruct (H item) as [Hr Hs]; [left|].
  destruct (match_count_total received_bitmap item Hr Hs) as [mc Hmc].
  unfold check_item. rewrite Hmc. simpl.
  destruct (mc >=? vote_threshold); simpl; apply IH; intros; apply H; right; assumption.
Qed.

(** ** Scheduling a group *)

Definition group_of (self : LODS_MTI_Algorithm) (k : Z) : list SortedTag.t :=
  take (Z.to_nat k) (drop (Z.to_nat (cursor self)) (sorted_tags_bin self)).

(** What a plan with a non-empty group guarantees. *)
Record good_plan (self : LODS_MTI_Algorithm) (rho : Z) (p : Plan) : Prop := {
  gp_k : 1 <= final_k p <= total_tags self - cursor self;
  gp_rho : rho <> 0;
  gp_slots : 1 <= final_num_slots p;
  gp_distinct :
    NoDup (sub_slot (final_seed p) (final_num_slots p)
             <$> (SortedTag.int <$> group_of self (final_k p)));
  gp_mask :
    exists first last,
      sorted_tags_bin self !! Z.to_nat (cursor self) = Some first /\
      sorted_tags_bin self !! Z.to_nat (cursor self + final_k p - 1) = Some last /\
      final_mask p = _get_lcp (SortedTag.bin first) (SortedTag.bin last)
}.

Definition empty_plan : Plan := mkPlan 0 EmptyString 0 0 0.

Lemma plan_group_spec (fuel : nat) (self : LODS_MTI_Algorithm)
    (rho MAX_REPLY_BITS lim : Z) (p : Plan) :
  total_tags self = Z.of_nat (length (sorted_tags_bin self)) ->
  0 <= cursor self ->
  lim <= total_tags self - cursor self ->
  plan_group fuel self rho MAX_REPLY_BITS lim = Ok p ->
  p = empty_plan \/ (good_plan self rho p /\ final_k p <= lim).
Proof.
  intros Htot Hc. revert lim. induction fuel as [|fuel IH]; intros lim Hlim E.
  - simpl in E. destruct (lim >? 0); [discriminate|]. injection E as <-. left; reflexivity.
  - simpl in E. destruct (Z.gtb_spec lim 0) as [Hpos|]; [|injection E as <-; left; reflexivity].
    inv_bind E. destruct a as [k mask]. cbn [fst snd] in E.
    inv_bind E. rename a into q. inv_bind E. rename a into epc_ints.
    inv_bind E. rename a into seed.
    pose proof (find_dynamic_slice_le _ _ _ _ _ E0) as Hle.
    unfold slice_limit in Hle.
    apply find_dynamic_slice_spec in E0 as (Hk & _ & first & last & H1 & H2 & H3 & _);
      [|assumption|lia].
    unfold Py.floordiv in E1. destruct (Z.eqb_spec rho 0) as [|Hrho]; [discriminate|].
    injection E1 as <-.
    destruct seed as [sd|].
    + injection E as <-. right. split; [|cbn; lia].
      apply group_ints_range in E2 as [-> _]; [|lia|lia].
      apply find_perfect_seed_injective in E3 as (Hnd & _ & _).
      constructor; cbn [final_k final_mask final_seed final_num_slots]; auto; try lia.
      eauto.
    + apply IH in E; [|lia]. destruct E as [->|[Hg Hk']]; [left; reflexivity|].
      right. split; [exact Hg|lia].
Qed.


(** ** The bounds of the model are never reached *)

(** [settled r]: the computation ended, with a value or an exception. *)
Definition settled {A : Type} (r : Result A) : Prop := r <> OutOfFuel.

Lemma settled_Ok {A : Type} (a : A) : settled (Ok a).
Proof. discriminate. Qed.

Lemma settled_Raise {A : Type} (e : exn) : settled (@Raise A e).
Proof. discriminate. Qed.

Lemma settled_bind {A B : Type} (m : Result A) (k : A -> Result B) :
  settled m -> (forall a, m = Ok a -> settled (k a)) -> settled (bind m k).
Proof. unfold settled. destruct m; simpl; auto. Qed.

Create HintDb settled.
#[local] Hint Resolve settled_Ok settled_Raise : settled.

Lemma settled_getitem {A : Type} (l : list A) (i : Z) : settled (Py.getitem l i).
Proof. unfold Py.getitem. repeat case_match; auto with settled. Qed.

Lemma settled_floordiv (a b : Z) : settled (Py.floordiv a b).
Proof. unfold Py.floordiv. case_match; auto with settled. Qed.

Lemma settled_mod (a b : Z) : settled (Py.mod_ a b).
Proof. unfold Py.mod_. case_match; auto with settled. Qed.

Lemma settled_lshift (a n : Z) : settled (Py.lshift a n).
Proof. unfold Py.lshift. case_match; auto with settled. Qed.

Lemma settled_float_of_int (z : Z) : settled (Py.float_of_int z).
Proof. unfold Py.float_of_int. case_match; auto with settled. Qed.

Lemma settled_truediv_int (a b : Z) : settled (Py.truediv_int a b).
Proof. unfold Py.truediv_int. repeat case_match; auto with settled. Qed.

Lemma settled_int_of_float (f : float) : settled (Py.int_of_float f).
Proof. unfold Py.int_of_float. repeat case_match; auto with settled. Qed.

#[local] Hint Resolve settled_getitem settled_floordiv settled_mod
  settled_lshift settled_float_of_int settled_truediv_int
  settled_int_of_float : settled.

Ltac settle :=
  repeat first
    [ solve [auto with settled]
    | match goal with
      | |- settled (bind _ _) => apply settled_bind; [|intros ? ?]
      | |- settled (if ?c then _ else _) => destruct c
      | |- settled (match ?c with _ => _ end) => destruct c
      end ].

Lemma settled_slice_scan (tags : list SortedTag.t) (start_idx : Z) (ks : list Z) :
  settled (slice_scan tags start_idx ks).
Proof. induction ks as [|k ks IH]; simpl; settle. Qed.

Lemma settled_find_dynamic_slice (self : LODS_MTI_Algorithm) (start_idx : Z)
    (limit_k_override : option Z) :
  settled (_find_dynamic_slice self start_idx limit_k_override).
Proof. unfold _find_dynamic_slice. pose proof settled_slice_scan. settle. Qed.

Lemma settled_seed_collides (seed mod_size : Z) (epc_ints : list Z)
    (slots : gset Z) :
  settled (seed_collides seed mod_size epc_ints slots).
Proof.
  revert slots. induction epc_ints as [|v rest IH]; intros slots; simpl; settle.
Qed.

Lemma settled_find_perfect_seed (epc_ints : list Z) (mod_size : Z) :
  settled (_find_perfect_seed epc_ints mod_size).
Proof.
  unfold _find_perfect_seed. generalize (Py.range 0 16). intros seeds.
  pose proof settled_seed_collides.
  induction seeds as [|s seeds IH]; simpl; settle.
Qed.

Lemma settled_group_ints (tags : list SortedTag.t) (indices : list Z) :
  settled (group_ints tags indices).
Proof. induction indices as [|i rest IH]; simpl; settle. Qed.

Lemma settled_build_context (group : list SortedTag.t) (seed num rho : Z) :
  settled (build_context group seed num rho).
Proof. induction group as [|i rest IH]; simpl; settle. Qed.

#[local] Hint Resolve settled_find_dynamic_slice settled_find_perfect_seed
  settled_group_ints settled_build_context : settled.

(** The [while] loop of phase 3 loses at least one candidate per pass. *)
Lemma settled_plan_group (fuel : nat) (self : LODS_MTI_Algorithm)
    (rho MAX_REPLY_BITS lim : Z) :
  (Z.to_nat lim <= fuel)%nat ->
  settled (plan_group fuel self rho MAX_REPLY_BITS lim).
Proof.
  revert lim. induction fuel as [|fuel IH]; intros lim Hf; simpl.
  - destruct (Z.gtb_spec lim 0); [lia|settle].
  - destruct (Z.gtb_spec lim 0) as [Hpos|]; [|settle].
    apply settled_bind; [settle|]. intros [k mask] E0.
    pose proof (find_dynamic_slice_le _ _ _ _ _ E0) as Hle. unfold slice_limit in Hle.
    cbn [fst snd]. apply settled_bind; [settle|]. intros q _.
    apply settled_bind; [settle|]. intros ints _.
    apply settled_bind; [settle|]. intros [sd|] _; [settle|].
    apply IH. lia.
Qed.

Lemma settled_superimpose (R : gset string) (context : list Sent.t) (acc : Z) :
  settled (superimpose R context acc).
Proof. revert acc. induction context as [|i rest IH]; intros acc; simpl; settle. Qed.

Lemma settled_check_group (rb th : Z) (context : list Sent.t) (t : Tally) :
  settled (check_group rb th context t).
Proof.
  revert t. induction context as [|i rest IH]; intros t; simpl; [settle|].
  apply settled_bind; [|auto]. unfold check_item, match_count. settle.
Qed.

Lemma settled_verify_previous (self : LODS_MTI_Algorithm) (prev : SlotResult) :
  settled (verify_previous self prev).
Proof.
  unfold verify_previous, adapted_rho.
  pose proof settled_superimpose. pose proof settled_check_group. settle.
Qed.

Lemma settled_schedule_next (self : LODS_MTI_Algorithm) (flag : bool) :
  settled (schedule_next self flag).
Proof.
  unfold schedule_next. destruct (_ >=? _); [settle|].
  apply settled_bind; [settle|]. intros q _.
  apply settled_bind; [apply settled_plan_group; lia|]. intros p _. settle.
Qed.

Lemma settled_LODS_get_next_command (self : LODS_MTI_Algorithm)
    (prev : SlotResult) :
  settled (LODS_get_next_command self prev).
Proof.
  unfold LODS_get_next_command. apply settled_bind.
  - apply settled_verify_previous.
  - intros. apply settled_schedule_next.
Qed.

(** ** The partition invariant of the protocol *)

Lemma elem_of_epcs_of (e : string) (context : list Sent.t) :
  e ∈ epcs_of context <-> exists item, item ∈ context /\ Sent.epc item = e.
Proof.
  unfold epcs_of. rewrite elem_of_list_to_set, list_elem_of_fmap.
  split; intros (item & H1 & H2); exists item; auto.
Qed.

Lemma elem_of_List_filter {A : Type} (f : A -> bool) (l : list A) (x : A) :
  x ∈ List.filter f l <-> x ∈ l /\ f x = true.
Proof. rewrite !list_elem_of_In. apply filter_In. Qed.

Lemma epcs_of_filter_union (f : Sent.t -> bool) (context : list Sent.t) :
  epcs_of (List.filter f context)
  ∪ epcs_of (List.filter (fun i => negb (f i)) context)
  = epcs_of context.
Proof.
  apply set_eq. intros e. rewrite elem_of_union, !elem_of_epcs_of. split.
  - intros [(i & Hi & He)|(i & Hi & He)]; apply elem_of_List_filter in Hi as [Hi _]; eauto.
  - intros (i & Hi & He). destruct (f i) eqn:Hf.
    + left. exists i. rewrite elem_of_List_filter. auto.
    + right. exists i. rewrite elem_of_List_filter, Hf. auto.
Qed.

Lemma epcs_of_filter_disjoint (f : Sent.t -> bool) (context : list Sent.t) :
  NoDup (Sent.epc <$> context) ->
  epcs_of (List.filter f context)
  ## epcs_of (List.filter (fun i => negb (f i)) context).
Proof.
  intros Hnd. apply elem_of_disjoint. intros e.
  rewrite !elem_of_epcs_of. intros (i & Hi & He) (j & Hj & He').
  apply elem_of_List_filter in Hi as [Hi Hfi].
  apply elem_of_List_filter in Hj as [Hj Hfj].
  assert (i = j) as -> by (eapply NoDup_fmap_inj_on; eauto; congruence).
  rewrite Hfi in Hfj. discriminate.
Qed.

(** [c0] tags have been verified; the pending context holds the tags from
    [c0] to the cursor. *)
Record lods_inv (L : list SortedTag.t) (c0 : nat) (self : LODS_MTI_Algorithm)
  : Prop := {
  inv_tags : sorted_tags_bin self = L;
  inv_total : total_tags self = Z.of_nat (length L);
  inv_cursor_nonneg : 0 <= cursor self;
  inv_cursor : (c0 <= Z.to_nat (cursor self) <= length L)%nat;
  inv_context :
    Sent.epc <$> last_sent_context self
    = SortedTag.hex <$> take (Z.to_nat (cursor self) - c0) (drop c0 L);
  inv_cover :
    verified_present self ∪ verified_missing self
    = list_to_set (SortedTag.hex <$> take c0 L);
  inv_disjoint : verified_present self ## verified_missing self;
  inv_done : is_running self = false -> c0 = length L
}.

Section Partition.
Variable L : list SortedTag.t.
Hypothesis L_distinct : NoDup (SortedTag.hex <$> L).

Lemma verify_previous_inv (c0 : nat) (self self1 : LODS_MTI_Algorithm)
    (prev : SlotResult) (flag : bool) :
  lods_inv L c0 self ->
  verify_previous self prev = Ok (self1, flag) ->
  lods_inv L (Z.to_nat (cursor self)) self1 /\
  last_sent_context self1 = [] /\ cursor self1 = cursor self.
Proof.
  intros [Ht Htot Hc0 Hc Hctx Hcov Hdis Hdone] E. unfold verify_previous in E.
  destruct (last_sent_context self) as [|first rest] eqn:Hl.
  - injection E as <- <-. rewrite Hl. split; [|auto].
    assert (Z.to_nat (cursor self) = c0) as Hcc.
    { symmetry in Hctx. apply fmap_nil_inv in Hctx.
      apply (f_equal length) in Hctx. rewrite length_take, length_drop in Hctx.
      simpl in Hctx. lia. }
    rewrite Hcc. constructor; auto; try lia.
    rewrite Hl, Hcc, Nat.sub_diag. reflexivity.
  - set (ctx := first :: rest) in *. clearbody ctx.
    inv_bind E. rename a into bitmap. inv_bind E. rename a into t.
    inv_bind E. rename a into rho'. injection E as <- <-.
    cbn [last_sent_context cursor]. split; [|auto].
    apply check_group_spec in E1 as (Hp & Hm & _).
    cbn [tally_present tally_missing] in Hp, Hm.
    set (c1 := Z.to_nat (cursor self)) in *.
    assert (take c1 L = take c0 L ++ take (c1 - c0) (drop c0 L)) as Hsplit.
    { rewrite take_take_drop. f_equal. lia. }
    assert (NoDup (Sent.epc <$> ctx)) as Hnd.
    { rewrite Hctx, fmap_take, fmap_drop.
      apply (sublist_NoDup _ (SortedTag.hex <$> L)); [exact L_distinct|].
      etransitivity; [apply sublist_take|apply sublist_drop]. }
    assert (forall e, e ∈ epcs_of ctx ->
                      e ∉ verified_present self ∪ verified_missing self) as Hfresh.
    { intros e He. unfold epcs_of in He. rewrite Hctx in He.
      rewrite Hcov, elem_of_list_to_set. rewrite elem_of_list_to_set in He.
      pose proof L_distinct as Hd. rewrite <- (take_drop c0 L), fmap_app in Hd.
      apply NoDup_app in Hd as (_ & Hd & _). intros Hin. apply (Hd _ Hin).
      rewrite fmap_take in He. eapply subseteq_take. exact He. }
    set (v := voted_present _ _) in *.
    pose proof (epcs_of_filter_union v ctx) as Hu.
    pose proof (epcs_of_filter_disjoint v ctx Hnd) as Hd.
    constructor; cbn [sorted_tags_bin total_tags cursor last_sent_context
                      verified_present verified_missing is_running]; auto.
    + lia.
    + fold c1. rewrite Nat.sub_diag. reflexivity.
    + fold c1. rewrite Hp, Hm, Hsplit, fmap_app, list_to_set_app_L, <- Hcov.
      rewrite <- Hctx. fold (epcs_of ctx). rewrite <- Hu.
      set_solver.
    + rewrite Hp, Hm.
      assert (forall e, e ∈ epcs_of (List.filter v ctx) -> e ∈ epcs_of ctx)
        as H1 by set_solver.
      assert (forall e, e ∈ epcs_of (List.filter (fun i => negb (v i)) ctx) ->
                        e ∈ epcs_of ctx) as H2 by set_solver.
      set_solver.
    + intros Hr. specialize (Hdone Hr). lia.
Qed.

Lemma schedule_next_inv (self self' : LODS_MTI_Algorithm) (flag : bool)
    (cmd : ReaderCommand) :
  lods_inv L (Z.to_nat (cursor self)) self ->
  last_sent_context self = [] ->
  schedule_next self flag = Ok (self', cmd) ->
  lods_inv L (Z.to_nat (cursor self)) self'.
Proof.
  intros [Ht Htot Hc0 Hc Hctx Hcov Hdis Hdone] Hnil E. unfold schedule_next in E.
  destruct (Z.geb_spec (cursor self) (total_tags self)) as [Hend|Hmore].
  - injection E as <- <-.
    constructor; cbn [sorted_tags_bin total_tags cursor last_sent_context
                      verified_present verified_missing is_running]; auto.
    intros _. lia.
  - inv_bind E. rename a into max_phys_k. inv_bind E. rename a into p.
    inv_bind E. rename a into context. injection E as <- <-.
    assert (total_tags self = Z.of_nat (length (sorted_tags_bin self))) as Htot'
      by (rewrite Ht; exact Htot).
    apply (plan_group_spec _ _ _ _ _ _ Htot' Hc0) in E1; [|lia].
    apply build_context_spec in E2.
    assert (0 <= final_k p <= total_tags self - cursor self) as Hk.
    { destruct E1 as [->|[[Hk _ _ _ _] _]]; cbn [final_k empty_plan]; lia. }
    rewrite slice_nonneg in E2 by lia.
    replace (cursor self + final_k p - cursor self) with (final_k p) in E2 by lia.
    constructor; cbn [sorted_tags_bin total_tags cursor last_sent_context
                      verified_present verified_missing is_running]; auto; try lia.
    rewrite E2, <- list_fmap_compose, Ht.
    replace (Z.to_nat (cursor self + final_k p) - Z.to_nat (cursor self))%nat
      with (Z.to_nat (final_k p)) by lia.
    reflexivity.
Qed.

Lemma get_next_command_inv (c0 : nat) (self self' : LODS_MTI_Algorithm)
    (prev : SlotResult) (cmd : ReaderCommand) :
  lods_inv L c0 self ->
  LODS_get_next_command self prev = Ok (self', cmd) ->
  exists c1, lods_inv L c1 self'.
Proof.
  intros Hinv E. unfold LODS_get_next_command in E.
  inv_bind E. destruct a as [self1 flag]. cbn [fst snd] in E.
  destruct (verify_previous_inv _ _ _ _ _ Hinv E0) as (H1 & H2 & H3).
  rewrite <- H3 in H1. exists (Z.to_nat (cursor self1)).
  eapply schedule_next_inv; eauto.
Qed.

(** Once the protocol reports completion the two sets cover the whole
    sorted list. *)
Lemma lods_inv_finished (c0 : nat) (self : LODS_MTI_Algorithm) :
  lods_inv L c0 self -> is_running self = false ->
  verified_present self ∪ verified_missing self
  = list_to_set (SortedTag.hex <$> L).
Proof.
  intros [Ht Htot Hc0 Hc Hctx Hcov Hdis Hdone] Hr.
  rewrite Hcov, (Hdone Hr), firstn_all. reflexivity.
Qed.

End Partition.

(** [initialize] establishes the invariant. *)
Lemma build_temp_list_hex (expected_tags : list Tag) (temp_list : list SortedTag.t) :
  build_temp_list expected_tags = Ok temp_list ->
  SortedTag.hex <$> temp_list = epc <$> expected_tags.
Proof.
  revert temp_list. induction expected_tags as [|t rest IH]; intros tl E; simpl in E.
  - injection E as <-. reflexivity.
  - inv_bind E. inv_bind E. injection E as <-.
    rewrite !fmap_cons, (IH _ E1). reflexivity.
Qed.

Lemma initialize_inv (self0 self : LODS_MTI_Algorithm) (expected_tags : list Tag) :
  LODS_initialize self0 expected_tags = Ok self ->
  lods_inv (sorted_tags_bin self) 0 self /\
  SortedTag.hex <$> sorted_tags_bin self ≡ₚ epc <$> expected_tags /\
  is_running self = true.
Proof.
  unfold LODS_initialize. intros E. inv_bind E. rename a into tl.
  injection E as <-. cbn [sorted_tags_bin is_running]. split; [|split; [|reflexivity]].
  - constructor; cbn [sorted_tags_bin total_tags cursor last_sent_context
                      verified_present verified_missing is_running];
      auto; try lia; try discriminate; set_solver.
  - rewrite <- (build_temp_list_hex _ _ E0).
    apply fmap_Permutation, sorted_Permutation.
Qed.

(** ** The kernel loop *)

Lemma float_overflow_gt_1 : 1 < Py.float_overflow.
Proof. reflexivity. Qed.

Lemma truediv_int_fraction (a b : Z) :
  0 <= a <= b -> 0 < b -> exists f, Py.truediv_int a b = Ok f.
Proof.
  intros Ha Hb. unfold Py.truediv_int.
  destruct (Z.eqb_spec b 0); [lia|].
  pose proof float_overflow_gt_1 as Hf.
  destruct (Z.ltb_spec (Z.abs a) (Py.float_overflow * Z.abs b)); [eauto|].
  exfalso. generalize dependent Py.float_overflow. intros F HF1 HF2. nia.
Qed.

Section KernelFacts.
Context {S : Type} `{AlgorithmInterface S}.
Variable config : SimulationConfig.
Variable R : Random.
Variable true_tags : list Tag.

#[local] Abbreviation body := (loop_body config R true_tags).
#[local] Abbreviation loop := (kernel_loop config R true_tags).

(** [reaches n ks0 ks]: from [ks0] the loop gets to [ks] by running [n]
    slots. *)
Inductive reaches (ks0 : Kernel S) : nat -> Kernel S -> Prop :=
  | reaches_start : reaches ks0 O ks0
  | reaches_slot n ks ks' :
      reaches ks0 n ks ->
      is_finished (algorithm ks) = false ->
      body ks = Ok (Continue ks') ->
      reaches ks0 (Datatypes.S n) ks'.

(** How the loop ended: the protocol was finished at the test of the
    [while], or the body broke out of it. *)
Definition exits (ks ks' : Kernel S) : Prop :=
  (is_finished (algorithm ks) = true /\ ks' = ks)
  \/ (is_finished (algorithm ks) = false /\ body ks = Ok (Break ks')).

Lemma kernel_loop_Ok (fuel : nat) (ks ks' : Kernel S) :
  loop fuel ks = Ok ks' ->
  exists n ks1, reaches ks n ks1 /\ exits ks1 ks'.
Proof.
  revert ks. induction fuel as [|fuel IH]; intros ks E; simpl in E.
  - destruct (is_finished (algorithm ks)) eqn:Hf; [|discriminate].
    injection E as <-. exists O, ks. split; [constructor|left; auto].
  - destruct (is_finished (algorithm ks)) eqn:Hf.
    + injection E as <-. exists O, ks. split; [constructor|left; auto].
    + inv_bind E. destruct a as [ks1|ks1].
      * apply IH in E as (n & ks2 & Hr & Hx). exists (Datatypes.S n), ks2. split; [|exact Hx].
        clear Hx. induction Hr.
        -- econstructor; [constructor|exact Hf|exact E0].
        -- econstructor; eauto.
      * injection E as <-. exists O, ks. split; [constructor|right; auto].
Qed.

(** The protocol step behind a pass through the body. *)
Lemma body_protocol_step (ks : Kernel S) (f : Flow S) :
  body ks = Ok f ->
  let ks' := match f with Continue k | Break k => k end in
  algorithm ks' = algorithm ks
  \/ exists cmd,
       get_next_command (algorithm ks) (prev_result ks) = Ok (algorithm ks', cmd).
Proof.
  unfold loop_body. intros E.
  destruct (_ >? _).
  - injection E as <-. left. reflexivity.
  - inv_bind E. destruct a as [alg cmd]. cbn [fst snd] in E.
    destruct (payload_bits cmd <? 0).
    + injection E as <-. right. exists cmd. exact E0.
    + inv_bind E. inv_bind E. inv_bind E. inv_bind E. inv_bind E.
      injection E as <-. right. exists cmd. exact E0.
Qed.

Section ProtocolInvariant.
Variable P : S -> Prop.
Hypothesis P_step :
  forall s r s' cmd, P s -> get_next_command s r = Ok (s', cmd) -> P s'.

Lemma reaches_invariant (ks0 ks : Kernel S) (n : nat) :
  P (algorithm ks0) -> reaches ks0 n ks -> P (algorithm ks).
Proof.
  intros H0. induction 1 as [|n ks ks' _ IH _ E]; [exact H0|].
  destruct (body_protocol_step _ _ E) as [Heq|[cmd Hc]]; cbn in *.
  - rewrite Heq. exact IH.
  - eapply P_step; eauto.
Qed.

Lemma exits_invariant (ks ks' : Kernel S) :
  P (algorithm ks) -> exits ks ks' -> P (algorithm ks').
Proof.
  intros H0 [[_ ->]|[_ E]]; [exact H0|].
  destruct (body_protocol_step _ _ E) as [Heq|[cmd Hc]]; cbn in *.
  - rewrite Heq. exact H0.
  - eapply P_step; eauto.
Qed.

Lemma kernel_loop_invariant (fuel : nat) (ks ks' : Kernel S) :
  P (algorithm ks) -> loop fuel ks = Ok ks' -> P (algorithm ks').
Proof.
  intros H0 E. apply kernel_loop_Ok in E as (n & ks1 & Hr & Hx).
  eapply exits_invariant; [|exact Hx]. eapply reaches_invariant; eauto.
Qed.

End ProtocolInvariant.

Lemma run_Ok (alg alg' : S) (st : Statistics) (out : list string) :
  run_high_fidelity_simulation config R true_tags alg = Ok (st, alg', out) ->
  exists ks', loop loop_bound (Kernel_init alg) = Ok ks' /\
              algorithm ks' = alg' /\ stdout ks' = out /\
              statistics (ledger ks') = Ok st.
Proof.
  unfold run_high_fidelity_simulation. intros E.
  inv_bind E. rename a into ks'. inv_bind E. injection E as <- <- <-.
  exists ks'. auto.
Qed.

End KernelFacts.

(** ** The partition invariant of a run *)

Definition partitioned_so_far (L : list SortedTag.t) (self : LODS_MTI_Algorithm)
  : Prop :=
  exists c0, lods_inv L c0 self.

(** The scenario of the examples: four expected tags, one of them absent. *)
Definition example_tags : list Tag :=
  [ mkTag "000000000000000000000000" 0 true (-40)%float;
    mkTag "000000000000000000000001" 1 false (-50)%float;
    mkTag "000000000000000000000002" 2 true (-60)%float;
    mkTag "000000000000000000000005" 5 true (-70)%float ].

Definition example_random : Random :=
  {| next_float := fun _ => 0.5%float; next_int := fun _ => 0 |}.

Definition example_algorithm : LODS_MTI_Algorithm :=
  match initialize LODS_default example_tags with
  | Ok alg => alg
  | _ => LODS_default
  end.

(** C1.  In every run of the flagship protocol over an expected population
    with pairwise distinct identifiers, whatever the channel does: the sets
    returned as verified_present and verified_missing are disjoint after
    any number of slots and when the run returns, and if the run returns
    with the protocol finished their union is the set of all expected
    identifiers. *)
Theorem partition_invariant (self0 alg0 : LODS_MTI_Algorithm)
    (config : SimulationConfig) (R : Random)
    (expected_tags true_tags : list Tag) :
  NoDup (epc <$> expected_tags) ->
  initialize self0 expected_tags = Ok alg0 ->
  (forall n ks,
     reaches config R true_tags (Kernel_init alg0) n ks ->
     (get_results (algorithm ks)).1 ## (get_results (algorithm ks)).2) /\
  (forall st alg out,
     run_high_fidelity_simulation config R true_tags alg0 = Ok (st, alg, out) ->
     (get_results alg).1 ## (get_results alg).2 /\
     (is_finished alg = true ->
      (get_results alg).1 ∪ (get_results alg).2
      = list_to_set (epc <$> expected_tags))).
Proof.
  intros Hnd Hinit. cbn [initialize LODS_interface] in Hinit.
  apply initialize_inv in Hinit as (Hinv & Hperm & _).
  set (L := sorted_tags_bin alg0) in *.
  assert (NoDup (SortedTag.hex <$> L)) as HL by (rewrite Hperm; exact Hnd).
  assert (forall s r s' cmd,
            partitioned_so_far L s -> get_next_command s r = Ok (s', cmd) ->
            partitioned_so_far L s') as Hstep.
  { intros s r s' cmd [c0 Hs] E. eapply get_next_command_inv; eauto. }
  assert (partitioned_so_far L (algorithm (Kernel_init alg0))) as H0
    by (exists O; exact Hinv).
  split.
  - intros n ks Hr.
    destruct (reaches_invariant config R true_tags _ Hstep _ _ _ H0 Hr) as [c0 Hc].
    exact (inv_disjoint _ _ _ Hc).
  - intros st alg out E. apply run_Ok in E as (ks' & E & <- & _ & _).
    destruct (kernel_loop_invariant config R true_tags _ Hstep _ _ _ H0 E) as [c0 Hc].
    split; [exact (inv_disjoint _ _ _ Hc)|].
    intros Hfin. cbn [is_finished LODS_interface] in Hfin. unfold LODS_is_finished in Hfin.
    apply negb_true_iff in Hfin.
    cbn [get_results LODS_interface LODS_get_results fst snd].
    rewrite (lods_inv_finished L c0 _ Hc Hfin).
    apply list_to_set_perm_L. exact Hperm.
Qed.

Lemma partition_invariant_witness :
  exists st alg out,
    run_high_fidelity_simulation SimulationConfig_default example_random
      example_tags example_algorithm = Ok (st, alg, out) /\
    is_finished alg = true /\
    (get_results alg).1 ∪ (get_results alg).2
    = list_to_set (epc <$> example_tags).
Proof.
  eexists _, _, _. split; [vm_compute; reflexivity|]. split; [reflexivity|].
  refine (proj2 (proj2 (partition_invariant LODS_default example_algorithm
            SimulationConfig_default example_random example_tags example_tags
            _ _) _ _ _ _) _).
  - apply (bool_decide_eq_true_1 (NoDup (epc <$> example_tags))).
    vm_compute. reflexivity.
  - vm_compute. reflexivity.
  - vm_compute. reflexivity.
  - reflexivity.
Defined.

(** ** The kernel without impairments *)

Definition impairments_disabled (config : SimulationConfig) : Prop :=
  ENABLE_NOISE config = false /\
  packet_error_rate config = 0%float /\
  BIT_ERROR_RATE config = 0%float /\
  CLOCK_DRIFT_RATE config = 0%float /\
  BURST_ERASURE_LEN config = 0 /\
  JITTER_OFFSET config = 0.

Lemma responders_spec (f : Tag -> Result bool) (l : list Tag)
    (resp : list string) :
  responders f l = Ok resp ->
  forall e, e ∈ resp <-> exists t, t ∈ l /\ epc t = e /\ f t = Ok true.
Proof.
  revert resp. induction l as [|t l IH]; intros resp E e; simpl in E.
  - injection E as <-. split; [intros Hin; inversion Hin|].
    intros (t & Hin & _). inversion Hin.
  - inv_bind E. rename a into b. inv_bind E. rename a into more.
    injection E as <-. specialize (IH _ E1 e).
    destruct b.
    + rewrite elem_of_cons, IH. split.
      * intros [->|(t' & Hin & He & Hf)]; [exists t|exists t'];
          repeat split; auto; [left|right; exact Hin].
      * intros (t' & Hin & He & Hf). apply elem_of_cons in Hin as [->|Hin];
          [left; auto|right; eauto].
    + rewrite IH. split.
      * intros (t' & Hin & He & Hf). exists t'. repeat split; auto. right; exact Hin.
      * intros (t' & Hin & He & Hf). apply elem_of_cons in Hin as [->|Hin];
          [congruence|eauto].
Qed.

Lemma classify_slot_idle (config : SimulationConfig)
    (rssi_map : gmap string float) (resp : list string) (led led' : Ledger)
    (st : PacketType) (rd : option (list string)) :
  classify_slot config rssi_map resp led = Ok (st, rd, led') ->
  (st = IDLE <-> resp = []).
Proof.
  unfold classify_slot. intros E.
  destruct resp as [|e1 [|e2 resp]].
  - simpl in E. injection E as <- _ _. split; auto.
  - simpl in E. injection E as <- _ _. split; discriminate.
  - destruct (_ =? 0) eqn:H0; [apply Z.eqb_eq in H0; simpl in H0; lia|].
    destruct (_ =? 1) eqn:H1; [apply Z.eqb_eq in H1; simpl in H1; lia|].
    inv_bind E. destruct a as [w|]; [destruct (truthy (Some w))|];
      injection E as <- _ _; split; discriminate.
Qed.

Lemma inject_clean (config : SimulationConfig) (R : Random)
    (cmd : ReaderCommand) (st : PacketType) (rd : option (list string))
    (n : nat) (i : Impaired) :
  impairments_disabled config ->
  inject_impairments config R cmd st rd n = Ok i ->
  imp_status i = st /\ imp_noise_mask i = 0.
Proof.
  intros (Hn & _ & _ & Hd & Hb & Hj). unfold inject_impairments.
  rewrite Hn, Hd, Hb, Hj. cbn [andb orb].
  change (PrimFloat.ltb 0 0) with false. cbn [Z.gtb Z.compare orb].
  destruct (negb (PacketType_eqb st IDLE)); [destruct (_ >? 0)|];
    intros [= <-]; auto.
Qed.

Lemma check_group_counts (received_bitmap vote_threshold : Z)
    (context : list Sent.t) (t0 t : Tally) :
  check_group received_bitmap vote_threshold context t0 = Ok t ->
  forall item, item ∈ context ->
    exists mc, match_count received_bitmap item = Ok mc.
Proof.
  revert t0. induction context as [|i rest IH]; intros t0 E item Hin; simpl in E.
  - inversion Hin.
  - inv_bind E. unfold check_item in E0. inv_bind E0.
    apply elem_of_cons in Hin as [->|Hin]; [eauto|]. eapply IH; eauto.
Qed.

Lemma bin_le_total (x y : SortedTag.t) : bin_le x y = true \/ bin_le y x = true.
Proof. apply String.leb_total. Qed.

Lemma bin_le_trans (x y z : SortedTag.t) :
  bin_le x y = true -> bin_le y z = true -> bin_le x z = true.
Proof. apply string_leb_trans. Qed.

(** In a sorted list the common prefix of the first and the last tag of a
    range is a prefix of every tag of the range. *)
Lemma group_shares_prefix (L : list SortedTag.t) (c k : Z)
    (first last x : SortedTag.t) :
  StronglySorted (fun a b => bin_le a b = true) L ->
  0 <= c -> 1 <= k ->
  L !! Z.to_nat c = Some first ->
  L !! Z.to_nat (c + k - 1) = Some last ->
  x ∈ take (Z.to_nat k) (drop (Z.to_nat c) L) ->
  Py.startswith (SortedTag.bin x)
    (_get_lcp (SortedTag.bin first) (SortedTag.bin last)) = true.
Proof.
  intros Hs Hc Hk Hf Hl Hx.
  apply elem_of_take in Hx as (i & Hi & Hlt). rewrite lookup_drop in Hi.
  unfold Py.startswith.
  assert (forall a, bin_le a a = true) as Hrefl by (intros; apply string_leb_refl).
  eapply (prefix_between _ (SortedTag.bin first) _ (SortedTag.bin last)).
  - change (bin_le first x = true).
    apply (StronglySorted_lookup_le (fun a b => bin_le a b = true) L
             (Z.to_nat c) (Z.to_nat c + i)); auto. lia.
  - change (bin_le x last = true).
    apply (StronglySorted_lookup_le (fun a b => bin_le a b = true) L
             (Z.to_nat c + i) (Z.to_nat (c + k - 1))); auto. lia.
  - apply prefix_lcp_l.
  - apply prefix_lcp_r.
Qed.

Section NoiseFree.
Variable tags : list Tag.
Variable L : list SortedTag.t.
Hypothesis tags_distinct : NoDup (epc <$> tags).
Hypothesis L_perm : SortedTag.hex <$> L ≡ₚ epc <$> tags.
Hypothesis L_bin : forall x, x ∈ L -> epc_bin (SortedTag.hex x) = Ok (SortedTag.bin x).
Hypothesis L_sorted : StronglySorted (fun a b => bin_le a b = true) L.

Definition present_epc (e : string) : Prop :=
  exists t, t ∈ tags /\ epc t = e /\ is_present t = true.

Definition absent_epc (e : string) : Prop :=
  exists t, t ∈ tags /\ epc t = e /\ is_present t = false.

Definition verdicts_right (self : LODS_MTI_Algorithm) : Prop :=
  (forall e, e ∈ verified_present self -> present_epc e) /\
  (forall e, e ∈ verified_missing self -> absent_epc e).

(** The set phase 1 takes for the responders. *)
Definition actual_set (prev : SlotResult) : gset string :=
  if PacketType_eqb (status prev) IDLE then ∅ else list_to_set (tag_ids prev).

(** The result of the slot says the truth about the pending group. *)
Definition pending_ok (self : LODS_MTI_Algorithm) (prev : SlotResult) : Prop :=
  last_sent_context self = []
  \/ exists r,
       context_ok (last_sent_context self) r /\ r <> 0 /\
       channel_noise_mask prev = 0 /\
       forall item, item ∈ last_sent_context self ->
         (responds (actual_set prev) item = true <-> present_epc (Sent.epc item)).

Lemma L_distinct' : NoDup (SortedTag.hex <$> L).
Proof. rewrite L_perm. exact tags_distinct. Qed.

Lemma expected_epc (e : string) :
  e ∈ SortedTag.hex <$> L -> present_epc e \/ absent_epc e.
Proof.
  rewrite L_perm. intros (t & -> & Hin)%list_elem_of_fmap.
  destruct (is_present t) eqn:Hp; [left|right]; exists t; auto.
Qed.

Lemma present_not_absent (e : string) : present_epc e -> absent_epc e -> False.
Proof.
  intros (t & Hin & He & Hp) (t' & Hin' & He' & Hp').
  assert (t = t') as -> by (eapply NoDup_fmap_inj_on; eauto; congruence).
  congruence.
Qed.

Lemma verify_clean (c0 : nat) (self self1 : LODS_MTI_Algorithm)
    (prev : SlotResult) (flag : bool) :
  lods_inv L c0 self -> verdicts_right self -> pending_ok self prev ->
  verify_previous self prev = Ok (self1, flag) ->
  verdicts_right self1.
Proof.
  intros Hinv [HP HM] Hpend E. unfold verify_previous in E.
  destruct (last_sent_context self) as [|first rest] eqn:Hl.
  { injection E as <- _. split; assumption. }
  destruct Hpend as [Hnil|(r & Hok & Hr0 & Hnoise & Hresp)]; [congruence|].
  pose proof (inv_context _ _ _ Hinv) as Hctx. rewrite Hl in Hctx, Hok, Hresp.
  set (ctx := first :: rest) in *.
  assert (first ∈ ctx) as Hfirst by left.
  clearbody ctx.
  inv_bind E. rename a into bitmap. inv_bind E. rename a into t.
  inv_bind E. injection E as <- _.
  rewrite Hnoise in E1. fold (actual_set prev) in E0.
  pose proof (check_group_counts _ _ _ _ _ E1) as Hcounts.
  apply check_group_spec in E1 as (Hp & Hm & _).
  cbn [tally_present tally_missing verified_present verified_missing] in *.
  rewrite (ctx_rho _ _ Hok _ Hfirst) in Hp, Hm.
  assert (1 <= r) as Hr1.
  { destruct (Hcounts first Hfirst) as [mc Hmc].
    apply match_count_spec in Hmc as (H0 & _ & _).
    rewrite (ctx_rho _ _ Hok _ Hfirst) in H0. lia. }
  assert (forall item, item ∈ ctx ->
            voted_present (Z.lxor bitmap 0) (vote_threshold_of r) item
            = responds (actual_set prev) item) as Hvote.
  { intros item Hin. destruct (Hcounts item Hin) as [mc Hmc].
    unfold voted_present. rewrite Hmc.
    rewrite (match_count_received _ _ _ _ _ _ _ Hok Hr1 E0 Hin Hmc).
    rewrite count_bits_zero by (intros; apply Z.bits_0).
    unfold vote_threshold_of.
    destruct (responds (actual_set prev) item);
      destruct (Z.geb_spec r 4); lia. }
  split; intros e He.
  - rewrite Hp in He. apply elem_of_union in He as [He|He]; [auto|].
    apply elem_of_epcs_of in He as (item & Hin & <-).
    apply elem_of_List_filter in Hin as [Hin Hv].
    rewrite (Hvote _ Hin) in Hv. apply Hresp; assumption.
  - rewrite Hm in He. apply elem_of_union in He as [He|He]; [auto|].
    apply elem_of_epcs_of in He as (item & Hin & <-).
    apply elem_of_List_filter in Hin as [Hin Hv].
    rewrite (Hvote _ Hin) in Hv. apply negb_true_iff in Hv.
    destruct (expected_epc (Sent.epc item)) as [Hpres|Habs]; [|  |exact Habs].
    + apply (list_elem_of_fmap_2 Sent.epc) in Hin. rewrite Hctx in Hin.
      rewrite fmap_take, fmap_drop in Hin.
      eapply subseteq_drop, subseteq_take. exact Hin.
    + apply Hresp in Hpres; [congruence|exact Hin].
Qed.

(** What phase 3 hands to the kernel with a non-empty group. *)
Definition group_command (self' : LODS_MTI_Algorithm) (cmd : ReaderCommand)
  : Prop :=
  exists mask r,
    response_protocol cmd = protocol_logic mask /\
    context_ok (last_sent_context self') r /\ r <> 0 /\
    forall item, item ∈ last_sent_context self' ->
      exists x, x ∈ L /\ Sent.epc item = SortedTag.hex x /\
                Py.startswith (SortedTag.bin x) mask = true.

Lemma schedule_clean (self self' : LODS_MTI_Algorithm) (flag : bool)
    (cmd : ReaderCommand) :
  lods_inv L (Z.to_nat (cursor self)) self ->
  last_sent_context self = [] ->
  schedule_next self flag = Ok (self', cmd) ->
  verified_present self' = verified_present self /\
  verified_missing self' = verified_missing self /\
  (last_sent_context self' = [] \/ group_command self' cmd).
Proof.
  intros [Ht Htot Hc0 Hc Hctx Hcov Hdis Hdone] Hnil E. unfold schedule_next in E.
  destruct (Z.geb_spec (cursor self) (total_tags self)) as [Hend|Hmore].
  { injection E as <- <-. cbn. auto. }
  inv_bind E. rename a into max_phys_k. inv_bind E. rename a into p.
  inv_bind E. rename a into context. injection E as <- <-.
  cbn [verified_present verified_missing last_sent_context response_protocol].
  split; [reflexivity|]. split; [reflexivity|].
  assert (total_tags self = Z.of_nat (length (sorted_tags_bin self))) as Htot'
    by (rewrite Ht; exact Htot).
  apply (plan_group_spec _ _ _ _ _ _ Htot' Hc0) in E1; [|lia].
  apply build_context_spec in E2.
  destruct E1 as [->|[[Hk Hrho Hslots Hnd (first & last & Hf & Hla & Hmask)] _]].
  { left. rewrite E2. cbn [final_k empty_plan].
    rewrite Z.add_0_r. unfold Py.slice.
    rewrite Z.sub_diag. reflexivity. }
  right. exists (final_mask p), (current_rho self).
  cbn [last_sent_context response_protocol].
  rewrite slice_nonneg in E2 by lia.
  replace (cursor self + final_k p - cursor self) with (final_k p) in E2 by lia.
  fold (group_of self (final_k p)) in E2.
  split; [reflexivity|]. split; [|split; [exact Hrho|]].
  - constructor.
    + intros item Hin. rewrite E2 in Hin.
      apply list_elem_of_fmap in Hin as (x & -> & _). reflexivity.
    + intros item Hin. rewrite E2 in Hin.
      apply list_elem_of_fmap in Hin as (x & -> & _).
      cbn [sent_of Sent.slot]. unfold sub_slot.
      apply Z.mod_pos_bound. lia.
    + rewrite E2, <- list_fmap_compose.
      rewrite <- list_fmap_compose in Hnd. exact Hnd.
  - intros item Hin. rewrite E2 in Hin.
    apply list_elem_of_fmap in Hin as (x & -> & Hx).
    exists x. split; [|split; [reflexivity|]].
    + unfold group_of in Hx. rewrite Ht in Hx.
      eapply subseteq_drop, subseteq_take. exact Hx.
    + rewrite Hmask. unfold group_of in Hx. rewrite Ht in Hx, Hf, Hla.
      apply (group_shares_prefix L (cursor self) (final_k p) first last x);
        auto; lia.
Qed.


Lemma get_next_command_clean (c0 : nat) (self self' : LODS_MTI_Algorithm)
    (prev : SlotResult) (cmd : ReaderCommand) :
  lods_inv L c0 self -> verdicts_right self -> pending_ok self prev ->
  LODS_get_next_command self prev = Ok (self', cmd) ->
  partitioned_so_far L self' /\ verdicts_right self' /\
  (last_sent_context self' = [] \/ group_command self' cmd).
Proof.
  intros Hinv Hv Hp E.
  pose proof (get_next_command_inv L L_distinct' _ _ _ _ _ Hinv E) as Hpart.
  unfold LODS_get_next_command in E. inv_bind E. destruct a as [self1 flag].
  cbn [fst snd] in E.
  pose proof (verify_clean _ _ _ _ _ Hinv Hv Hp E0) as [HP1 HM1].
  destruct (verify_previous_inv L L_distinct' _ _ _ _ _ Hinv E0) as (H1 & H2 & H3).
  rewrite <- H3 in H1.
  destruct (schedule_clean _ _ _ _ H1 H2 E) as (Ep & Em & Hg).
  split; [exact Hpart|]. split; [|exact Hg].
  split; intros e; [rewrite Ep|rewrite Em]; auto.
Qed.

Variable config : SimulationConfig.
Variable R : Random.
Hypothesis config_clean : impairments_disabled config.

Definition clean_inv (ks : Kernel LODS_MTI_Algorithm) : Prop :=
  partitioned_so_far L (algorithm ks) /\ verdicts_right (algorithm ks) /\
  pending_ok (algorithm ks) (prev_result ks).

Lemma elem_of_present_tags (t : Tag) :
  t ∈ present_tags tags <-> t ∈ tags /\ is_present t = true.
Proof. unfold present_tags. apply elem_of_List_filter. Qed.

Lemma body_clean (ks : Kernel LODS_MTI_Algorithm)
    (f : Flow LODS_MTI_Algorithm) :
  clean_inv ks -> loop_body config R tags ks = Ok f ->
  match f with
  | Continue ks' => clean_inv ks'
  | Break ks' =>
      partitioned_so_far L (algorithm ks') /\ verdicts_right (algorithm ks')
  end.
Proof.
  intros ([c0 Hinv] & Hv & Hp) E. unfold loop_body in E.
  destruct (_ >? _).
  { injection E as <-. cbn [algorithm]. split; [exists c0|]; assumption. }
  inv_bind E. destruct a as [alg cmd]. cbn [fst snd] in E.
  cbn [get_next_command LODS_interface] in E0.
  destruct (get_next_command_clean _ _ _ _ _ Hinv Hv Hp E0) as (Hpart & Hv' & Hg).
  destruct (payload_bits cmd <? 0).
  { injection E as <-. cbn [algorithm]. split; assumption. }
  inv_bind E. inv_bind E. rename a0 into resp. inv_bind E.
  destruct a0 as [[st rd] led]. cbn [fst snd] in E.
  inv_bind E. rename a0 into i. inv_bind E. injection E as <-.
  destruct (inject_clean _ _ _ _ _ _ _ config_clean E4) as [Hst Hmask].
  apply classify_slot_idle in E3.
  split; [exact Hpart|]. split; [exact Hv'|].
  cbn [algorithm prev_result]. destruct Hg as [Hnil|(mask & r & Hproto & Hok & Hr & Hgroup)];
    [left; exact Hnil|right].
  exists r. split; [exact Hok|]. split; [exact Hr|]. split; [exact Hmask|].
  intros item Hin. unfold actual_set. cbn [status tag_ids]. rewrite Hst.
  assert ((if PacketType_eqb st IDLE then ∅ else list_to_set resp)
          = (list_to_set resp : gset string)) as ->.
  { destruct st; cbn [PacketType_eqb]; try reflexivity.
    rewrite (proj1 E3 eq_refl). reflexivity. }
  unfold responds. rewrite bool_decide_eq_true, elem_of_list_to_set.
  rewrite (responders_spec _ _ _ E2). rewrite Hproto.
  destruct (Hgroup item Hin) as (x & Hx & Hepc & Hpre).
  split.
  - intros (t & Ht & He & _). apply elem_of_present_tags in Ht as [Ht Hpr].
    exists t. auto.
  - intros (t & Ht & He & Hpr). exists t.
    split; [apply elem_of_present_tags; auto|]. split; [exact He|].
    unfold protocol_logic. rewrite He, Hepc, (L_bin x Hx). cbn [bind].
    rewrite Hpre. reflexivity.
Qed.

Lemma reaches_clean (ks0 ks : Kernel LODS_MTI_Algorithm) (n : nat) :
  clean_inv ks0 -> reaches config R tags ks0 n ks -> clean_inv ks.
Proof.
  intros H0. induction 1 as [|n ks ks' _ IH _ E]; [exact H0|].
  exact (body_clean _ _ IH E).
Qed.

Lemma kernel_loop_clean (fuel : nat) (ks ks' : Kernel LODS_MTI_Algorithm) :
  clean_inv ks -> kernel_loop config R tags fuel ks = Ok ks' ->
  partitioned_so_far L (algorithm ks') /\ verdicts_right (algorithm ks').
Proof.
  intros H0 E. apply kernel_loop_Ok in E as (n & ks1 & Hr & Hx).
  pose proof (reaches_clean _ _ _ H0 Hr) as H1.
  destruct Hx as [[_ ->]|[_ E]].
  - destruct H1 as (? & ? & _). auto.
  - exact (body_clean _ _ H1 E).
Qed.

End NoiseFree.

Lemma build_temp_list_bin (expected_tags : list Tag) (temp_list : list SortedTag.t) :
  build_temp_list expected_tags = Ok temp_list ->
  forall x, x ∈ temp_list -> epc_bin (SortedTag.hex x) = Ok (SortedTag.bin x).
Proof.
  revert temp_list. induction expected_tags as [|t rest IH]; intros tl E x Hx; simpl in E.
  - injection E as <-. inversion Hx.
  - inv_bind E. inv_bind E. injection E as <-.
    apply elem_of_cons in Hx as [->|Hx]; [exact E0|]. eapply IH; eauto.
Qed.

Lemma initialize_sorted (self0 self : LODS_MTI_Algorithm) (expected_tags : list Tag) :
  LODS_initialize self0 expected_tags = Ok self ->
  StronglySorted (fun a b => bin_le a b = true) (sorted_tags_bin self) /\
  forall x, x ∈ sorted_tags_bin self ->
    epc_bin (SortedTag.hex x) = Ok (SortedTag.bin x).
Proof.
  unfold LODS_initialize. intros E. inv_bind E. rename a into tl.
  injection E as <-. cbn [sorted_tags_bin]. split.
  - apply sorted_StronglySorted; [apply bin_le_total|apply bin_le_trans].
  - intros x Hx. rewrite sorted_Permutation in Hx.
    eapply build_temp_list_bin; eauto.
Qed.

Lemma initialize_fresh (self0 self : LODS_MTI_Algorithm) (expected_tags : list Tag) :
  LODS_initialize self0 expected_tags = Ok self ->
  verified_present self = ∅ /\ verified_missing self = ∅ /\
  last_sent_context self = [].
Proof.
  unfold LODS_initialize. intros E. inv_bind E. injection E as <-. auto.
Qed.

(** C2.  With every impairment disabled, when the run of the flagship
    protocol over a population of pairwise distinct identifiers returns
    with the protocol finished, every present expected tag is in
    verified_present and every absent one in verified_missing; and no tag
    is in the other set. *)
Theorem noise_free_correctness (self0 alg0 alg : LODS_MTI_Algorithm)
    (config : SimulationConfig) (R : Random) (tags : list Tag)
    (st : Statistics) (out : list string) :
  impairments_disabled config ->
  NoDup (epc <$> tags) ->
  initialize self0 tags = Ok alg0 ->
  run_high_fidelity_simulation config R tags alg0 = Ok (st, alg, out) ->
  is_finished alg = true ->
  forall t, t ∈ tags ->
    (is_present t = true <-> epc t ∈ (get_results alg).1) /\
    (is_present t = false <-> epc t ∈ (get_results alg).2).
Proof.
  intros Hclean Hnd Hinit Erun Hfin t Ht.
  cbn [initialize LODS_interface] in Hinit.
  destruct (initialize_sorted _ _ _ Hinit) as [Hsorted Hbin].
  destruct (initialize_fresh _ _ _ Hinit) as (HP0 & HM0 & Hctx0).
  apply initialize_inv in Hinit as (Hinv & Hperm & _).
  set (L := sorted_tags_bin alg0) in *.
  apply run_Ok in Erun as (ks' & E & <- & _ & _).
  assert (clean_inv tags L (Kernel_init alg0)) as H0.
  { split; [exists O; exact Hinv|]. split.
    - split; intros e He; exfalso; cbn [Kernel_init algorithm] in He;
        rewrite ?HP0, ?HM0 in He; exact (not_elem_of_empty e He).
    - left. exact Hctx0. }
  destruct (kernel_loop_clean tags L Hnd Hperm Hbin Hsorted config R Hclean _ _ _ H0 E)
    as [[c0 Hc] [HP HM]].
  cbn [is_finished LODS_interface] in Hfin. unfold LODS_is_finished in Hfin.
  apply negb_true_iff in Hfin.
  pose proof (lods_inv_finished L c0 _ Hc Hfin) as Hall.
  cbn [get_results LODS_interface LODS_get_results fst snd].
  assert (epc t ∈ verified_present (algorithm ks') ∪ verified_missing (algorithm ks'))
    as Hin.
  { rewrite Hall, elem_of_list_to_set, Hperm. apply list_elem_of_fmap_2. exact Ht. }
  assert (forall b, is_present t = b ->
            (if b then present_epc tags (epc t) else absent_epc tags (epc t))) as Hself.
  { intros [|] Hb; exists t; auto. }
  pose proof (present_not_absent tags Hnd (epc t)) as Hexcl.
  split; split.
  - intros Hp. apply elem_of_union in Hin as [|Hm]; [assumption|].
    exfalso. apply Hexcl; [exact (Hself true Hp)|apply HM; exact Hm].
  - intros Hp. destruct (is_present t) eqn:Hb; [reflexivity|].
    exfalso. apply Hexcl; [apply HP; exact Hp|exact (Hself false eq_refl)].
  - intros Hp. apply elem_of_union in Hin as [Hpr|]; [|assumption].
    exfalso. apply Hexcl; [apply HP; exact Hpr|exact (Hself false Hp)].
  - intros Hm. destruct (is_present t) eqn:Hb; [|reflexivity].
    exfalso. apply Hexcl; [exact (Hself true eq_refl)|apply HM; exact Hm].
Qed.

Lemma noise_free_correctness_witness :
  exists st alg out,
    run_high_fidelity_simulation SimulationConfig_default example_random
      example_tags example_algorithm = Ok (st, alg, out) /\
    forall t, t ∈ example_tags ->
      (is_present t = true <-> epc t ∈ (get_results alg).1) /\
      (is_present t = false <-> epc t ∈ (get_results alg).2).
Proof.
  eexists _, _, _. split; [vm_compute; reflexivity|].
  eapply (noise_free_correctness LODS_default example_algorithm _
            SimulationConfig_default example_random example_tags).
  - repeat split; reflexivity.
  - apply (bool_decide_eq_true_1 (NoDup (epc <$> example_tags))).
    vm_compute. reflexivity.
  - vm_compute. reflexivity.
  - vm_compute. reflexivity.
  - reflexivity.
Defined.

(** ** The prefix of a slice *)

Definition example_algorithm_pairs : LODS_MTI_Algorithm :=
  match initialize (LODS_init 2 4 true 256) example_tags with
  | Ok alg => alg
  | _ => LODS_default
  end.

(** The mask 93 zeros long that the slice of the last two tags of
    [example_tags] gets. *)
Definition zeros93 : string := Py.zeros 93.

(** C3, as stated, fails: with groups of at most two tags the slice that
    starts at the third tag of [example_tags] (identifiers 0, 1, 2, 5) is
    the pair (2, 5) with a prefix of 93 zeros, and the first tag, which
    lies before the cursor, starts with that prefix too. *)
Lemma slice_prefix_matches_earlier_tag :
  _find_dynamic_slice example_algorithm_pairs 2 (Some 2) = Ok (2, zeros93) /\
  exists before tag,
    sorted_tags_bin example_algorithm_pairs !! 0%nat = Some before /\
    Py.startswith (SortedTag.bin before) zeros93 = true /\
    example_tags !! 0%nat = Some tag /\
    epc tag = SortedTag.hex before /\
    protocol_logic zeros93 tag = Ok true.
Proof.
  split; [vm_compute; reflexivity|].
  do 2 eexists. repeat split; vm_compute; reflexivity.
Qed.

Section SlicePrefix.
Variable self : LODS_MTI_Algorithm.
Variable width : nat.
Hypothesis tags_counted :
  total_tags self = Z.of_nat (length (sorted_tags_bin self)).
Hypothesis tags_sorted :
  StronglySorted (fun a b => bin_le a b = true) (sorted_tags_bin self).
Hypothesis tags_width :
  forall x, x ∈ sorted_tags_bin self -> String.length (SortedTag.bin x) = width.
Hypothesis tags_distinct : NoDup (SortedTag.bin <$> sorted_tags_bin self).

Lemma bin_le_refl (a : SortedTag.t) : bin_le a a = true.
Proof. apply string_leb_refl. Qed.

Lemma later_tag_excluded (start_idx k : Z) (mask : string)
    (first outside x : SortedTag.t) (j : nat) :
  0 <= start_idx -> 1 <= k ->
  sorted_tags_bin self !! Z.to_nat start_idx = Some first ->
  sorted_tags_bin self !! Z.to_nat (start_idx + k) = Some outside ->
  String.prefix mask (SortedTag.bin first) = true ->
  Py.startswith (SortedTag.bin outside) mask = false ->
  sorted_tags_bin self !! j = Some x ->
  start_idx + k <= Z.of_nat j ->
  Py.startswith (SortedTag.bin x) mask = false.
Proof.
  intros Hs Hk Hf Ho Hpf Hout Hx Hj.
  destruct (Py.startswith (SortedTag.bin x) mask) eqn:Hpx; [|reflexivity].
  exfalso. unfold Py.startswith in *.
  assert (String.prefix mask (SortedTag.bin outside) = true); [|congruence].
  apply (prefix_between mask (SortedTag.bin first) _ (SortedTag.bin x)); auto.
  - change (bin_le first outside = true).
    apply (StronglySorted_lookup_le (fun a b => bin_le a b = true)
             (sorted_tags_bin self)
             (Z.to_nat start_idx) (Z.to_nat (start_idx + k)));
      auto using bin_le_refl. lia.
  - change (bin_le outside x = true).
    apply (StronglySorted_lookup_le (fun a b => bin_le a b = true)
             (sorted_tags_bin self)
             (Z.to_nat (start_idx + k)) j); auto using bin_le_refl. lia.
Qed.

(** C3, amended.  On a sorted list of distinct identifiers of one width,
    from any cursor position, the slicing step returns a group and a prefix
    such that, among the tags from the cursor on, exactly the tags of the
    group start with the prefix: every tag of the group does, and no tag
    after the group does.  (Tags before the cursor may match it.) *)
Theorem slice_prefix_excludes_later_tags (start_idx : Z)
    (limit_k_override : option Z) :
  0 <= start_idx <= total_tags self ->
  exists k mask,
    _find_dynamic_slice self start_idx limit_k_override = Ok (k, mask) /\
    0 <= k <= total_tags self - start_idx /\
    forall (j : nat) (x : SortedTag.t),
      sorted_tags_bin self !! j = Some x ->
      start_idx <= Z.of_nat j ->
      (Py.startswith (SortedTag.bin x) mask = true
       <-> Z.of_nat j < start_idx + k).
Proof.
  intros Hs.
  destruct (find_dynamic_slice_total self start_idx limit_k_override tags_counted Hs)
    as [[k mask] E].
  exists k, mask. split; [exact E|].
  destruct (Z.eq_dec start_idx (total_tags self)) as [->|Hne].
  { rewrite find_dynamic_slice_at_end in E. injection E as <- <-.
    split; [lia|]. intros j x Hx Hj. apply lookup_lt_Some in Hx. lia. }
  apply find_dynamic_slice_spec in E
    as (Hk & _ & first & last & Hf & Hl & -> & Hcase); [|exact tags_counted|lia].
  split; [lia|]. intros j x Hx Hj.
  destruct (Z.lt_ge_cases (Z.of_nat j) (start_idx + k)) as [Hin|Hout].
  - split; [intros _; exact Hin|intros _].
    apply (group_shares_prefix (sorted_tags_bin self) start_idx k first last x);
      auto; try lia.
    apply elem_of_take. exists (j - Z.to_nat start_idx)%nat.
    rewrite lookup_drop. split; [|lia].
    rewrite <- Hx. f_equal. lia.
  - split; [|lia]. intros Hpx. exfalso.
    destruct Hcase as [Hend|[(outside & Ho & Hno)|Hk1]].
    + apply lookup_lt_Some in Hx. lia.
    + rewrite (later_tag_excluded start_idx k _ first outside x j) in Hpx;
        auto; try lia; try discriminate.
      apply prefix_lcp_l.
    + subst k. replace (start_idx + 1 - 1) with start_idx in Hl by lia.
      rewrite Hf in Hl. injection Hl as <-. rewrite lcp_self in Hpx.
      unfold Py.startswith in Hpx.
      apply prefix_same_length in Hpx.
      2:{ rewrite (tags_width first), (tags_width x); auto;
            eapply list_elem_of_lookup_2; eauto. }
      assert (Z.to_nat start_idx = j); [|lia].
      eapply (NoDup_lookup (SortedTag.bin <$> sorted_tags_bin self)); eauto.
      * rewrite list_lookup_fmap, Hf. reflexivity.
      * rewrite list_lookup_fmap, Hx, Hpx. reflexivity.
Qed.

End SlicePrefix.

Lemma slice_prefix_excludes_later_tags_witness :
  exists k mask,
    _find_dynamic_slice example_algorithm_pairs 0 (Some 2) = Ok (k, mask) /\
    0 <= k <= total_tags example_algorithm_pairs - 0 /\
    forall (j : nat) (x : SortedTag.t),
      sorted_tags_bin example_algorithm_pairs !! j = Some x ->
      0 <= Z.of_nat j ->
      (Py.startswith (SortedTag.bin x) mask = true <-> Z.of_nat j < 0 + k).
Proof.
  apply (slice_prefix_excludes_later_tags example_algorithm_pairs 96).
  - vm_compute. reflexivity.
  - apply sorted_StronglySorted; [apply bin_le_total|apply bin_le_trans].
  - apply Forall_forall. 
    apply (bool_decide_eq_true_1
             (Forall (fun x => String.length (SortedTag.bin x) = 96%nat)
                     (sorted_tags_bin example_algorithm_pairs))).
    vm_compute. reflexivity.
  - apply (bool_decide_eq_true_1
             (NoDup (SortedTag.bin <$> sorted_tags_bin example_algorithm_pairs))).
    vm_compute. reflexivity.
  - vm_compute. split; discriminate.
Defined.

(** ** Majority vote *)

Lemma testbit_flip (x b t : Z) :
  0 <= b -> 0 <= t ->
  Z.testbit (Z.lxor x (2 ^ b)) t = xorb (Z.testbit x t) (t =? b).
Proof.
  intros Hb Ht. rewrite Z.lxor_spec, Z.pow2_bits_eqb by lia.
  rewrite (Z.eqb_sym b t). reflexivity.
Qed.

(** Flipping one bit inside a field changes the count of the field by one. *)
Lemma count_bits_flip (x b k : Z) (n : nat) :
  0 <= k -> k <= b < k + Z.of_nat n ->
  count_bits (Z.lxor x (2 ^ b)) k n
  = count_bits x k n + (if Z.testbit x b then -1 else 1).
Proof.
  revert k. induction n as [|n IH]; intros k Hk Hb; [lia|].
  cbn [count_bits]. rewrite testbit_flip by lia.
  destruct (Z.eqb_spec k b) as [->|Hne].
  - rewrite (count_bits_ext (Z.lxor x (2 ^ b)) x (b + 1) n).
    + destruct (Z.testbit x b); simpl; lia.
    + intros t Ht. rewrite testbit_flip by lia.
      destruct (Z.eqb_spec t b); [lia|]. apply xorb_false_r.
  - rewrite xorb_false_r, IH by lia. lia.
Qed.

(** The vote of one tag of a group sent at redundancy 4, on the received
    bitmap.  With the tag's 4-bit sub-field of the noise mask clean the vote
    is the ground truth; so it is with any single bit of the sub-field
    flipped (a responding tag keeps 3 of 4 bits, a silent one has 1); with
    two bits flipped a responding tag is voted missing. *)
Lemma sub_field_vote (responders_set : gset string)
    (context : list Sent.t) (bitmap noise : Z) (item : Sent.t) :
  context_ok context 4 ->
  superimpose responders_set context 0 = Ok bitmap ->
  item ∈ context ->
  (forall t, Sent.slot item * 4 <= t < Sent.slot item * 4 + 4 ->
             Z.testbit noise t = false) ->
  let verdict (noise_mask : Z) :=
    voted_present (Z.lxor bitmap noise_mask) (vote_threshold_of 4) item in
  verdict noise = responds responders_set item /\
  (forall b, Sent.slot item * 4 <= b < Sent.slot item * 4 + 4 ->
     verdict (Z.lxor noise (2 ^ b)) = responds responders_set item) /\
  (forall b1 b2,
     Sent.slot item * 4 <= b1 < Sent.slot item * 4 + 4 ->
     Sent.slot item * 4 <= b2 < Sent.slot item * 4 + 4 ->
     b1 <> b2 ->
     responds responders_set item = true ->
     verdict (Z.lxor (Z.lxor noise (2 ^ b1)) (2 ^ b2)) = false).
Proof.
  intros Hok E Hin Hclean verdict.
  pose proof (ctx_rho _ _ Hok _ Hin) as Hrho.
  pose proof (ctx_slot _ _ Hok _ Hin) as Hslot.
  assert (forall m, exists mc,
            match_count (Z.lxor bitmap m) item = Ok mc /\
            mc = if responds responders_set item
                 then 4 - count_bits m (Sent.slot item * 4) 4
                 else count_bits m (Sent.slot item * 4) 4) as Hmc.
  { intros m. destruct (match_count_total (Z.lxor bitmap m) item) as [mc Hm]; [lia|lia|].
    exists mc. split; [exact Hm|].
    exact (match_count_received _ _ _ _ _ _ _ Hok ltac:(lia) E Hin Hm). }
  assert (count_bits noise (Sent.slot item * 4) 4 = 0) as H0
    by (apply count_bits_zero; intros; apply Hclean; lia).
  assert (forall b, Sent.slot item * 4 <= b < Sent.slot item * 4 + 4 ->
            count_bits (Z.lxor noise (2 ^ b)) (Sent.slot item * 4) 4 = 1) as H1.
  { intros b Hb. rewrite count_bits_flip by lia. rewrite Hclean, H0 by lia. lia. }
  unfold verdict, voted_present, vote_threshold_of. cbn [Z.geb Z.compare].
  split; [|split].
  - destruct (Hmc noise) as (mc & -> & ->). rewrite H0.
    destruct (responds responders_set item); reflexivity.
  - intros b Hb. destruct (Hmc (Z.lxor noise (2 ^ b))) as (mc & -> & ->).
    rewrite (H1 b Hb). destruct (responds responders_set item); reflexivity.
  - intros b1 b2 Hb1 Hb2 Hne Hresp.
    destruct (Hmc (Z.lxor (Z.lxor noise (2 ^ b1)) (2 ^ b2))) as (mc & -> & ->).
    rewrite Hresp, count_bits_flip, (H1 b1 Hb1) by lia.
    rewrite testbit_flip, Hclean by lia.
    destruct (Z.eqb_spec b2 b1); [congruence|]. reflexivity.
Qed.

(** ** Adaptation *)

(** What phase 1 does with a pending group. *)
Lemma verify_previous_spec (self self1 : LODS_MTI_Algorithm)
    (prev : SlotResult) (flag : bool) (first : Sent.t) (rest : list Sent.t) :
  last_sent_context self = first :: rest ->
  verify_previous self prev = Ok (self1, flag) ->
  exists bitmap,
    superimpose (actual_set prev) (first :: rest) 0 = Ok bitmap /\
    let received := Z.lxor bitmap (channel_noise_mask prev) in
    let threshold := vote_threshold_of (Sent.rho first) in
    let errors :=
      Z.of_nat (length (List.filter (imperfect received threshold) (first :: rest))) in
    let checks := Z.of_nat (length (first :: rest)) in
    verified_present self1
    = verified_present self
      ∪ epcs_of (List.filter (voted_present received threshold) (first :: rest)) /\
    verified_missing self1
    = verified_missing self
      ∪ epcs_of (List.filter (fun i => negb (voted_present received threshold i))
                             (first :: rest)) /\
    (if is_adaptive self
     then adapted_rho errors checks = Ok (current_rho self1)
     else current_rho self1 = current_rho self).
Proof.
  intros Hl E. unfold verify_previous in E. rewrite Hl in E.
  inv_bind E. rename a into bitmap. inv_bind E. rename a into t.
  inv_bind E. rename a into rho'. injection E as <- _.
  exists bitmap. fold (actual_set prev) in E0. split; [exact E0|].
  apply check_group_spec in E1 as (Hp & Hm & Hc & He & _).
  cbn [tally_present tally_missing total_checks error_cnt
       verified_present verified_missing current_rho] in *.
  split; [exact Hp|]. split; [exact Hm|].
  rewrite Hc, He in E2. rewrite !Z.add_0_l in E2.
  destruct (is_adaptive self); cbn [andb] in E2.
  - destruct (Z.gtb_spec (Z.of_nat (length (first :: rest))) 0) as [|Hle];
      [exact E2|]. cbn [length] in Hle. lia.
  - injection E2 as <-. reflexivity.
Qed.

(** Phase 3 sends the next group at the current redundancy. *)
Lemma schedule_next_rho (self self' : LODS_MTI_Algorithm) (flag : bool)
    (cmd : ReaderCommand) :
  last_sent_context self = [] ->
  schedule_next self flag = Ok (self', cmd) ->
  current_rho self' = current_rho self /\
  verified_present self' = verified_present self /\
  verified_missing self' = verified_missing self /\
  forall item, item ∈ last_sent_context self' -> Sent.rho item = current_rho self.
Proof.
  intros Hnil E. unfold schedule_next in E.
  destruct (_ >=? _).
  - injection E as <- <-. cbn. rewrite Hnil. repeat split. intros ? Hin. inversion Hin.
  - inv_bind E. inv_bind E. inv_bind E. injection E as <- <-. cbn.
    repeat split. intros item Hin. apply build_context_spec in E2. rewrite E2 in Hin.
    apply list_elem_of_fmap in Hin as (x & -> & _). reflexivity.
Qed.

Lemma verify_previous_clears (self self1 : LODS_MTI_Algorithm)
    (prev : SlotResult) (flag : bool) :
  verify_previous self prev = Ok (self1, flag) -> last_sent_context self1 = [].
Proof.
  unfold verify_previous. destruct (last_sent_context self) eqn:Hl.
  - intros [= <- _]. exact Hl.
  - intros E. inv_bind E. inv_bind E. inv_bind E. injection E as <- _. reflexivity.
Qed.

(** The float test of the tolerance agrees with the exact fraction for
    every group of up to 256 tags. *)
Definition tolerance_agrees (checks : Z) : bool :=
  forallb (fun errors =>
             match Py.truediv_int errors checks with
             | Ok f => Bool.eqb (PrimFloat.leb f 0.3%float)
                                (10 * errors <=? 3 * checks)
             | _ => false
             end)
          (seqZ 0 (checks + 1)).

Lemma tolerance_agrees_upto_256 : forallb tolerance_agrees (seqZ 1 256) = true.
Proof. vm_compute. reflexivity. Qed.

Lemma tolerance_exact (errors checks : Z) (fraction : float) :
  0 <= errors <= checks -> 1 <= checks <= 256 ->
  Py.truediv_int errors checks = Ok fraction ->
  (PrimFloat.leb fraction 0.3%float = true <-> 10 * errors <= 3 * checks).
Proof.
  intros He Hc E.
  pose proof tolerance_agrees_upto_256 as H.
  rewrite forallb_forall in H. specialize (H checks).
  unfold tolerance_agrees in H. rewrite forallb_forall in H.
  specialize (H ltac:(apply list_elem_of_In, elem_of_seqZ; lia) errors
                ltac:(apply list_elem_of_In, elem_of_seqZ; lia)).
  rewrite E in H. apply eqb_prop in H. rewrite H. apply Z.leb_le.
Qed.

(** C5.  In adaptive mode, after the verification of a group with at
    least one tag, the redundancy of the next group is 2 if the measured
    fraction of imperfect checks (tags judged missing, or judged present
    with fewer than rho set bits) passes the test against 0.3, and 4
    otherwise; the fraction is that of the group just verified alone.  For
    groups of up to 256 tags the float test is exactly the comparison of
    the fraction with 3/10. *)
Theorem adaptation_rule (self self' : LODS_MTI_Algorithm) (prev : SlotResult)
    (cmd : ReaderCommand) (first : Sent.t) (rest : list Sent.t) :
  is_adaptive self = true ->
  last_sent_context self = first :: rest ->
  LODS_get_next_command self prev = Ok (self', cmd) ->
  exists bitmap fraction,
    superimpose (actual_set prev) (first :: rest) 0 = Ok bitmap /\
    let received := Z.lxor bitmap (channel_noise_mask prev) in
    let threshold := vote_threshold_of (Sent.rho first) in
    let errors :=
      Z.of_nat (length (List.filter (imperfect received threshold) (first :: rest))) in
    let checks := Z.of_nat (length (first :: rest)) in
    Py.truediv_int errors checks = Ok fraction /\
    current_rho self' = (if PrimFloat.leb fraction 0.3%float then 2 else 4) /\
    (forall item, item ∈ last_sent_context self' ->
                  Sent.rho item = current_rho self') /\
    (checks <= 256 ->
     (current_rho self' = 2 <-> 10 * errors <= 3 * checks)).
Proof.
  intros Had Hl E. unfold LODS_get_next_command in E.
  inv_bind E. destruct a as [self1 flag]. cbn [fst snd] in E.
  pose proof (verify_previous_clears _ _ _ _ E0) as Hnil.
  destruct (verify_previous_spec _ _ _ _ _ _ Hl E0) as (bitmap & Hs & _ & _ & Hrho).
  rewrite Had in Hrho. unfold adapted_rho in Hrho.
  inv_bind Hrho. rename a into fraction.
  destruct (schedule_next_rho _ _ _ _ Hnil E) as (Hr & _ & _ & Hitems).
  exists bitmap, fraction. split; [exact Hs|]. cbv zeta.
  split; [exact E1|].
  assert (current_rho self' = (if PrimFloat.leb fraction 0.3 then 2 else 4)) as Hnew.
  { rewrite Hr. destruct (PrimFloat.leb fraction 0.3); injection Hrho as <-; reflexivity. }
  split; [exact Hnew|]. split; [intros item Hin; rewrite Hr; auto|].
  intros Hsmall. rewrite Hnew.
  assert (1 <= Z.of_nat (length (first :: rest))) as Hpos by (cbn [length]; lia).
  set (ctx := first :: rest) in *.
  set (errors := Z.of_nat (length (List.filter _ ctx))) in *.
  assert (0 <= errors <= Z.of_nat (length ctx)) as Hbound.
  { unfold errors. pose proof (filter_length_le
      (imperfect (Z.lxor bitmap (channel_noise_mask prev))
                 (vote_threshold_of (Sent.rho first))) ctx). lia. }
  rewrite <- (tolerance_exact errors (Z.of_nat (length ctx)) fraction Hbound);
    [|lia|exact E1].
  destruct (PrimFloat.leb fraction 0.3); split; congruence.
Qed.

(** The state of the example run after its first command, and the result
    of its first slot. *)
Definition example_pending : LODS_MTI_Algorithm :=
  match LODS_get_next_command example_algorithm (mkSlotResult IDLE [] None 0 None) with
  | Ok r => fst r
  | _ => example_algorithm
  end.

Definition example_prev : SlotResult :=
  mkSlotResult COLLISION
    ["000000000000000000000000"; "000000000000000000000002"] None 0 None.

Definition example_next : LODS_MTI_Algorithm * ReaderCommand :=
  match LODS_get_next_command example_pending example_prev with
  | Ok r => r
  | _ => (example_pending, ReaderCommand_default (-1) 0)
  end.

Lemma adaptation_rule_witness : current_rho (fst example_next) = 4.
Proof.
  destruct (adaptation_rule example_pending (fst example_next) example_prev
              (snd example_next)
              (Sent.mk "000000000000000000000000" 0 4)
              [Sent.mk "000000000000000000000001" 1 4;
               Sent.mk "000000000000000000000002" 2 4])
    as (bitmap & fraction & Hs & Hf & Hrho & _).
  - reflexivity.
  - vm_compute. reflexivity.
  - vm_compute. reflexivity.
  - rewrite Hrho. vm_compute in Hs. injection Hs as <-.
    vm_compute in Hf. injection Hf as <-. reflexivity.
Defined.

(** ** Structural damage: the unbound name *)

(** A configuration as the burst-erasure experiment sets it: noise
    enabled with both error rates at 0, no drift, a burst of 3 bits. *)
Definition burst_config : SimulationConfig :=
  {| TOTAL_TAGS := 4;
     MISSING_RATE := 0%float;
     ENABLE_NOISE := true;
     packet_error_rate := 0%float;
     BIT_ERROR_RATE := 0%float;
     ENABLE_CAPTURE_EFFECT := false;
     CAPTURE_RATIO_DB := 3%float;
     ENABLE_ENERGY_TRACKING := false;
     CLOCK_DRIFT_RATE := 0%float;
     BURST_ERASURE_LEN := 3;
     JITTER_OFFSET := 0;
     GUARD_INTERVAL_BITS := 0%float |}.

(** Whenever a slot that is not idle, with a positive reply length and
    without packet loss, reaches the structural-damage block, the kernel
    raises NameError, whatever the protocol declares. *)
Lemma structural_damage_raises (config : SimulationConfig) (R : Random)
    (cmd : ReaderCommand) (st : PacketType) (rd : option (list string))
    (n : nat) :
  (ENABLE_NOISE config = true ->
   PrimFloat.ltb (next_float R n) (packet_error_rate config) = false) ->
  PacketType_eqb st IDLE = false ->
  0 < expected_reply_bits cmd ->
  PrimFloat.ltb 0 (CLOCK_DRIFT_RATE config) = false ->
  0 < BURST_ERASURE_LEN config \/ 0 < JITTER_OFFSET config ->
  inject_impairments config R cmd st rd n = Raise (NameError "supports_phy").
Proof.
  intros Hlost Hst Hlen Hdrift Hdamage. unfold inject_impairments.
  assert ((if ENABLE_NOISE config
           then PrimFloat.ltb (next_float R n) (packet_error_rate config)
           else false) = false) as ->.
  { destruct (ENABLE_NOISE config); auto. }
  rewrite Hst. cbn [negb].
  destruct (Z.gtb_spec (expected_reply_bits cmd) 0); [|lia].
  rewrite Hdrift. cbn [bind].
  assert ((BURST_ERASURE_LEN config >? 0) || (JITTER_OFFSET config >? 0) = true) as ->.
  { apply orb_true_iff. destruct Hdamage; [left|right]; apply Z.gtb_lt; lia. }
  reflexivity.
Qed.

(** C8, at the failing input: the default flagship protocol over
    [example_tags] with a 3-bit burst erasure configured.  The first slot
    has two responders; the run ends in NameError instead of degrading the
    slot to idle. *)
Theorem burst_erasure_run_raises_NameError :
  run_high_fidelity_simulation burst_config example_random example_tags
    example_algorithm
  = Raise (NameError "supports_phy").
Proof. vm_compute. reflexivity. Qed.

(** Every idle result this kernel hands out carries an empty noise mask. *)
Lemma idle_result_has_clean_mask (config : SimulationConfig) (R : Random)
    (cmd : ReaderCommand) (st : PacketType) (rd : option (list string))
    (n : nat) (i : Impaired) :
  inject_impairments config R cmd st rd n = Ok i ->
  imp_status i = IDLE -> imp_noise_mask i = 0.
Proof.
  unfold inject_impairments.
  destruct (if ENABLE_NOISE config then _ else false); [intros [= <-]; auto|].
  destruct (PacketType_eqb st IDLE) eqn:Hst; cbn [negb]; [intros [= <-]; auto|].
  destruct (_ >? 0); [|intros [= <-]; auto].
  intros E. inv_bind E.
  destruct (_ || _); [discriminate|].
  injection E as <-. cbn. intros ->. discriminate.
Qed.

(** ** Capture effect *)

Lemma lookup_strengths_total (rssi_map : gmap string float)
    (responding_tags : list string) :
  (forall e, e ∈ responding_tags -> is_Some (rssi_map !! e)) ->
  exists l, lookup_strengths rssi_map responding_tags = Ok l /\
            fst <$> l = responding_tags.
Proof.
  induction responding_tags as [|e rest IH]; intros H; simpl; [eauto|].
  destruct (H e) as [r Hr]; [left|]. rewrite Hr.
  destruct IH as (l & -> & Hl); [intros; apply H; right; assumption|].
  simpl. exists ((e, r) :: l). rewrite fmap_cons, Hl. auto.
Qed.

(** A configuration with the capture effect at a threshold of 3 dB, and two
    present tags 3 dB apart. *)
Definition capture_config : SimulationConfig :=
  {| TOTAL_TAGS := 2;
     MISSING_RATE := 0%float;
     ENABLE_NOISE := false;
     packet_error_rate := 0%float;
     BIT_ERROR_RATE := 0%float;
     ENABLE_CAPTURE_EFFECT := true;
     CAPTURE_RATIO_DB := 3%float;
     ENABLE_ENERGY_TRACKING := false;
     CLOCK_DRIFT_RATE := 0%float;
     BURST_ERASURE_LEN := 0;
     JITTER_OFFSET := 0;
     GUARD_INTERVAL_BITS := 0%float |}.

Definition capture_tags : list Tag :=
  [ mkTag "00000000000000000000000A" 10 true (-43)%float;
    mkTag "00000000000000000000000B" 11 true (-40)%float ].

(** C9, as stated, fails: two responders 3 dB apart with the threshold at
    3 dB.  The margin equals the threshold, it does not exceed it, and the
    slot is a success for the stronger tag. *)
Lemma capture_at_exact_threshold :
  let strengths := build_rssi_map (present_tags capture_tags) in
  let responding := epc <$> capture_tags in
  PrimFloat.eqb ((-40) - (-43))%float (CAPTURE_RATIO_DB capture_config) = true /\
  PrimFloat.ltb (CAPTURE_RATIO_DB capture_config) ((-40) - (-43))%float = false /\
  exists led,
    classify_slot capture_config strengths responding Ledger_init
    = Ok (SUCCESS, Some ["00000000000000000000000B"], led).
Proof.
  split; [reflexivity|]. split; [reflexivity|].
  eexists. vm_compute. reflexivity.
Qed.

(** ** The order of binary64 values *)

(** A key whose lexicographic order is the order [SFcompare] decides on
    values that are not NaN: the class (infinities, negative, zero,
    positive), then exponent and mantissa, both negated below zero. *)
Definition SF_key (f : spec_float) : Z * Z * Z :=
  match f with
  | S754_zero _ | S754_nan => (0, 0, 0)
  | S754_infinity s => (if s then -2 else 2, 0, 0)
  | S754_finite s m e => if s then (-1, - e, - Z.pos m) else (1, e, Z.pos m)
  end.

Definition lex_le (k1 k2 : Z * Z * Z) : Prop :=
  let '(a1, b1, c1) := k1 in
  let '(a2, b2, c2) := k2 in
  a1 < a2 \/ (a1 = a2 /\ (b1 < b2 \/ (b1 = b2 /\ c1 <= c2))).

Lemma SFleb_key (f1 f2 : spec_float) :
  f1 <> S754_nan -> f2 <> S754_nan ->
  SFleb f1 f2 = true <-> lex_le (SF_key f1) (SF_key f2).
Proof.
  intros H1 H2. unfold SFleb.
  destruct f1 as [s1|s1| |s1 m1 e1], f2 as [s2|s2| |s2 m2 e2];
    try congruence; try destruct s1; try destruct s2;
    cbn [SFcompare SF_key lex_le];
    try (split; [intros; lia|reflexivity]);
    try (split; [discriminate|intros; lia]).
  - change (Pos.compare_cont Eq m1 m2) with (Pos.compare m1 m2).
    destruct (Z.compare_spec e1 e2); [destruct (Pos.compare_spec m1 m2)| |];
      cbn [CompOpp];
      (split; [first [discriminate|intros; lia]|first [reflexivity|intros; lia]]).
  - change (Pos.compare_cont Eq m1 m2) with (Pos.compare m1 m2).
    destruct (Z.compare_spec e1 e2); [destruct (Pos.compare_spec m1 m2)| |];
      (split; [first [discriminate|intros; lia]|first [reflexivity|intros; lia]]).
Qed.

Lemma SFleb_not_nan (f1 f2 : spec_float) :
  SFleb f1 f2 = true -> f1 <> S754_nan /\ f2 <> S754_nan.
Proof.
  unfold SFleb. destruct f1, f2; cbn [SFcompare]; try discriminate;
    intros _; split; discriminate.
Qed.

Lemma is_nan_Prim2SF (x : float) :
  PrimFloat.is_nan x = false -> Prim2SF x <> S754_nan.
Proof.
  unfold PrimFloat.is_nan. rewrite FloatAxioms.eqb_spec. unfold SFeqb.
  intros H E. rewrite E in H. discriminate.
Qed.

(** [<=] on floats is transitive, and total on values that are not NaN. *)
Lemma float_leb_trans (x y z : float) :
  PrimFloat.leb x y = true -> PrimFloat.leb y z = true ->
  PrimFloat.leb x z = true.
Proof.
  rewrite !leb_spec. intros Hxy Hyz.
  destruct (SFleb_not_nan _ _ Hxy) as [Hx Hy].
  destruct (SFleb_not_nan _ _ Hyz) as [_ Hz].
  apply SFleb_key in Hxy, Hyz; try assumption. apply SFleb_key; try assumption.
  destruct (SF_key (Prim2SF x)) as [[a1 b1] c1],
           (SF_key (Prim2SF y)) as [[a2 b2] c2],
           (SF_key (Prim2SF z)) as [[a3 b3] c3].
  unfold lex_le in *. lia.
Qed.

Lemma float_leb_total (x y : float) :
  PrimFloat.is_nan x = false -> PrimFloat.is_nan y = false ->
  PrimFloat.leb x y = true \/ PrimFloat.leb y x = true.
Proof.
  intros Hx Hy. apply is_nan_Prim2SF in Hx, Hy.
  rewrite !leb_spec, !SFleb_key by assumption.
  destruct (SF_key (Prim2SF x)) as [[a1 b1] c1],
           (SF_key (Prim2SF y)) as [[a2 b2] c2].
  unfold lex_le. lia.
Qed.

(** Sorting by a comparison that is total only on the elements at hand
    (here: strengths that are not NaN). *)
Section SortFactsOn.
Context {A : Type} (le : A -> A -> bool) (P : A -> Prop).
Hypothesis le_total_on :
  forall x y, P x -> P y -> le x y = true \/ le y x = true.
Hypothesis le_trans : forall x y z, le x y = true -> le y z = true -> le x z = true.

Lemma insert_sorted_StronglySorted_on (x : A) (l : list A) :
  P x -> Forall P l ->
  StronglySorted (fun a b => le a b = true) l ->
  StronglySorted (fun a b => le a b = true) (Py.insert_sorted le x l).
Proof.
  intros Hx Hl Hs. induction Hs as [|y l Hs IH Hy]; simpl.
  - repeat constructor.
  - apply Forall_cons in Hl as [Hpy Hl].
    destruct (le x y) eqn:E.
    + constructor; [constructor; assumption|].
      constructor; [exact E|].
      eapply Forall_impl; [exact Hy|]. intros z Hz. eapply le_trans; eauto.
    + constructor; [exact (IH Hl)|].
      rewrite insert_sorted_Permutation. constructor; [|exact Hy].
      destruct (le_total_on x y Hx Hpy); congruence.
Qed.

Lemma sorted_StronglySorted_on (l : list A) :
  Forall P l -> StronglySorted (fun a b => le a b = true) (Py.sorted le l).
Proof.
  induction l as [|x l IH]; intros Hl; simpl; [constructor|].
  apply Forall_cons in Hl as [Hx Hl].
  apply insert_sorted_StronglySorted_on; [exact Hx| |exact (IH Hl)].
  rewrite sorted_Permutation. exact Hl.
Qed.

End SortFactsOn.

(** [signal_strengths] pairs every responder with its strength, in the
    order of the responders. *)
Lemma lookup_strengths_spec (rssi_map : gmap string float)
    (responding_tags : list string) (l : list (string * float)) :
  lookup_strengths rssi_map responding_tags = Ok l ->
  Forall2 (fun e x => fst x = e /\ rssi_map !! e = Some (snd x))
          responding_tags l.
Proof.
  revert l. induction responding_tags as [|e rest IH]; intros l E; simpl in E.
  - injection E as <-. constructor.
  - destruct (rssi_map !! e) as [r|] eqn:Hr; [|discriminate].
    inv_bind E. injection E as <-. constructor; [auto|apply IH; assumption].
Qed.

(** With no NaN among the strengths, [sort(key=..., reverse=True)] leaves
    the list in descending order of strength. *)
Lemma strongest_first_descending (l : list (string * float)) :
  Forall (fun x => PrimFloat.is_nan (snd x) = false) l ->
  strongest_first l ≡ₚ l /\
  StronglySorted (fun a b => PrimFloat.leb (snd b) (snd a) = true)
                 (strongest_first l).
Proof.
  intros Hl. unfold strongest_first. split; [apply sorted_Permutation|].
  apply (sorted_StronglySorted_on
           (fun x y => PrimFloat.leb (snd y) (snd x))
           (fun x => PrimFloat.is_nan (snd x) = false)).
  - intros x y Hx Hy. destruct (float_leb_total (snd x) (snd y) Hx Hy); auto.
  - intros x y z Hxy Hyz. exact (float_leb_trans _ _ _ Hyz Hxy).
  - exact Hl.
Qed.

(** C9, amended.  In a slot with two or more responders and the capture
    effect enabled (no strength being NaN), let [s0] be the strongest
    responder and [s1] the strongest of the others: the list of responders
    with their strengths is [s0], [s1] and the others in some order, no
    responder is stronger than [s0], and none of the others is stronger
    than [s1].  The collision becomes a success for [s0] if and only if
    the strength of [s0] minus that of [s1] is at least the configured
    threshold; in particular a margin equal to the threshold is a success.
    Otherwise the slot stays a collision. *)
Theorem capture_iff_margin_reaches_threshold (config : SimulationConfig)
    (rssi_map : gmap string float) (responding_tags : list string)
    (led : Ledger) :
  ENABLE_CAPTURE_EFFECT config = true ->
  (2 <= length responding_tags)%nat ->
  (forall e, e ∈ responding_tags ->
             e <> EmptyString /\
             exists r, rssi_map !! e = Some r /\ PrimFloat.is_nan r = false) ->
  exists l s0 s1 others st rd led',
    lookup_strengths rssi_map responding_tags = Ok l /\
    Forall2 (fun e x => fst x = e /\ rssi_map !! e = Some (snd x))
            responding_tags l /\
    strongest_first l = s0 :: s1 :: others /\
    s0 :: s1 :: others ≡ₚ l /\
    (forall x, x ∈ s1 :: others -> PrimFloat.leb (snd x) (snd s0) = true) /\
    (forall x, x ∈ others -> PrimFloat.leb (snd x) (snd s1) = true) /\
    classify_slot config rssi_map responding_tags led = Ok (st, rd, led') /\
    let margin := (snd s0 - snd s1)%float in
    (st = SUCCESS <-> PrimFloat.leb (CAPTURE_RATIO_DB config) margin = true) /\
    (st = SUCCESS -> rd = Some [fst s0]) /\
    (st <> SUCCESS -> st = COLLISION /\ rd = None).
Proof.
  intros Hcap Hlen Hresp.
  destruct (lookup_strengths_total rssi_map responding_tags) as (l & Hl & Hfst).
  { intros e He. destruct (Hresp e He) as (_ & r & -> & _). eauto. }
  pose proof (lookup_strengths_spec _ _ _ Hl) as Hpairs.
  assert (Forall (fun x => PrimFloat.is_nan (snd x) = false) l) as Hnan.
  { apply Forall_forall. intros x Hx.
    apply list_elem_of_lookup_1 in Hx as [i Hi].
    destruct (Forall2_lookup_r _ _ _ _ _ Hpairs Hi) as (e & He & <- & Hr).
    destruct (Hresp (fst x)) as (_ & r & Hr' & Hn);
      [eapply list_elem_of_lookup_2; exact He|].
    rewrite Hr in Hr'. injection Hr' as <-. exact Hn. }
  destruct (strongest_first_descending l Hnan) as [Hperm Hsorted].
  assert (length (strongest_first l) = length responding_tags) as Hsl.
  { rewrite Hperm, <- Hfst, length_fmap. reflexivity. }
  destruct (strongest_first l) as [|s0 [|s1 others]] eqn:Hs;
    [simpl in Hsl; lia|simpl in Hsl; lia|].
  apply StronglySorted_inv in Hsorted as [Hsorted H0].
  apply StronglySorted_inv in Hsorted as [_ H1].
  rewrite Forall_forall in H0, H1.
  assert (fst s0 <> EmptyString) as Hne.
  { apply Hresp. rewrite <- Hfst. apply list_elem_of_fmap_2.
    rewrite <- Hperm. left. }
  unfold classify_slot, capture_winner. rewrite Hcap, Hl. cbn [bind]. rewrite Hs.
  destruct (Z.eqb_spec (Z.of_nat (length responding_tags)) 0); [lia|].
  destruct (Z.eqb_spec (Z.of_nat (length responding_tags)) 1); [lia|].
  destruct (PrimFloat.leb (CAPTURE_RATIO_DB config) (snd s0 - snd s1)) eqn:Hm;
    cbn [bind].
  - destruct (fst s0) as [|c w] eqn:Hw; [congruence|]. cbn [truthy].
    exists l, s0, s1, others. do 3 eexists.
    split; [reflexivity|]. split; [exact Hpairs|]. split; [exact Hs|].
    split; [exact Hperm|]. split; [exact H0|]. split; [exact H1|].
    split; [reflexivity|]. cbv zeta. rewrite Hm.
    split; [tauto|]. split; [intros _; rewrite Hw; reflexivity|congruence].
  - exists l, s0, s1, others. do 3 eexists.
    split; [reflexivity|]. split; [exact Hpairs|]. split; [exact Hs|].
    split; [exact Hperm|]. split; [exact H0|]. split; [exact H1|].
    split; [reflexivity|]. cbv zeta. rewrite Hm.
    split; [split; discriminate|]. split; [discriminate|auto].
Qed.

Lemma capture_iff_margin_reaches_threshold_witness :
  exists l s0 s1 others st rd led',
    lookup_strengths (build_rssi_map (present_tags capture_tags))
      (epc <$> capture_tags) = Ok l /\
    Forall2 (fun e x => fst x = e /\
                        build_rssi_map (present_tags capture_tags) !! e
                        = Some (snd x))
            (epc <$> capture_tags) l /\
    strongest_first l = s0 :: s1 :: others /\
    s0 :: s1 :: others ≡ₚ l /\
    (forall x, x ∈ s1 :: others -> PrimFloat.leb (snd x) (snd s0) = true) /\
    (forall x, x ∈ others -> PrimFloat.leb (snd x) (snd s1) = true) /\
    classify_slot capture_config (build_rssi_map (present_tags capture_tags))
      (epc <$> capture_tags) Ledger_init = Ok (st, rd, led') /\
    let margin := (snd s0 - snd s1)%float in
    (st = SUCCESS <-> PrimFloat.leb (CAPTURE_RATIO_DB capture_config) margin = true) /\
    (st = SUCCESS -> rd = Some [fst s0]) /\
    (st <> SUCCESS -> st = COLLISION /\ rd = None).
Proof.
  apply (capture_iff_margin_reaches_threshold capture_config).
  - reflexivity.
  - simpl. lia.
  - apply Forall_forall. repeat constructor; try discriminate;
      eexists; split; vm_compute; reflexivity.
Defined.

(** ** An idle result for a pending group *)

Lemma superimpose_no_responder (context : list Sent.t) (acc : Z) :
  superimpose ∅ context acc = Ok acc.
Proof.
  induction context as [|item rest IH]; simpl; [reflexivity|].
  rewrite bool_decide_eq_false_2 by apply not_elem_of_empty. exact IH.
Qed.

Lemma filter_all {A : Type} (f : A -> bool) (l : list A) :
  (forall x, x ∈ l -> f x = true) -> List.filter f l = l.
Proof.
  induction l as [|x l IH]; intros H; simpl; [reflexivity|].
  rewrite (H x) by left. rewrite IH; [reflexivity|].
  intros; apply H; right; assumption.
Qed.

Lemma filter_none {A : Type} (f : A -> bool) (l : list A) :
  (forall x, x ∈ l -> f x = false) -> List.filter f l = [].
Proof.
  induction l as [|x l IH]; intros H; simpl; [reflexivity|].
  rewrite (H x) by left. apply IH. intros; apply H; right; assumption.
Qed.

(** With a pending group (sent at a positive redundancy), a previous
    result whose status is IDLE and whose noise mask is 0 makes phase 1
    confirm every tag of the group as missing and none as present, whatever
    identifiers the result records; any call that returns leaves the two
    sets so. *)
Lemma clean_idle_marks_group_missing (self : LODS_MTI_Algorithm)
    (prev : SlotResult) (first : Sent.t) (rest : list Sent.t) :
  last_sent_context self = first :: rest ->
  status prev = IDLE ->
  channel_noise_mask prev = 0 ->
  (forall item, item ∈ first :: rest ->
                1 <= Sent.rho item /\ 0 <= Sent.slot item) ->
  (exists self1 flag,
     verify_previous self prev = Ok (self1, flag) /\
     verified_present self1 = verified_present self /\
     verified_missing self1 = verified_missing self ∪ epcs_of (first :: rest)) /\
  (forall self' cmd,
     LODS_get_next_command self prev = Ok (self', cmd) ->
     verified_present self' = verified_present self /\
     verified_missing self' = verified_missing self ∪ epcs_of (first :: rest)).
Proof.
  intros Hl Hst Hnoise Hctx.
  assert (actual_set prev = ∅) as Hset by (unfold actual_set; rewrite Hst; reflexivity).
  assert (forall item, item ∈ first :: rest ->
            voted_present (Z.lxor 0 0) (vote_threshold_of (Sent.rho first)) item
            = false) as Hvote.
  { intros item Hin. destruct (Hctx item Hin) as [Hr Hs].
    destruct (match_count_total (Z.lxor 0 0) item) as [mc Hmc]; [lia|lia|].
    unfold voted_present. rewrite Hmc.
    apply match_count_spec in Hmc as (_ & _ & ->).
    rewrite count_bits_zero by (intros; apply Z.bits_0).
    destruct (Hctx first) as [Hr1 _]; [left|].
    unfold vote_threshold_of. destruct (Z.geb_spec (Sent.rho first) 4); lia. }
  assert (forall self1 flag,
            verify_previous self prev = Ok (self1, flag) ->
            verified_present self1 = verified_present self /\
            verified_missing self1
            = verified_missing self ∪ epcs_of (first :: rest)) as Hsets.
  { intros self1 flag E.
    destruct (verify_previous_spec _ _ _ _ _ _ Hl E) as (bitmap & Hs & Hp & Hm & _).
    rewrite Hset, superimpose_no_responder in Hs. injection Hs as <-.
    rewrite Hnoise in Hp, Hm.
    rewrite (filter_none _ _ Hvote) in Hp.
    rewrite filter_all in Hm by (intros x Hx; rewrite (Hvote x Hx); reflexivity).
    split; [|exact Hm].
    rewrite Hp. unfold epcs_of. rewrite fmap_nil, list_to_set_nil.
    apply (right_id_L ∅ (∪)). }
  split.
  - destruct (check_group_total (Z.lxor 0 0) (vote_threshold_of (Sent.rho first))
                (first :: rest)
                (mkTally (verified_present self) (verified_missing self) 0 0 false))
      as [t Ht].
    { intros item Hin. destruct (Hctx item Hin). lia. }
    assert (exists rho',
              (if is_adaptive self && (total_checks t >? 0)
               then adapted_rho (error_cnt t) (total_checks t)
               else Ok (current_rho self)) = Ok rho') as [rho' Hrho].
    { destruct (is_adaptive self && (total_checks t >? 0)); [|eauto].
      apply check_group_spec in Ht as (_ & _ & Hc & He & _).
      cbn [total_checks error_cnt] in Hc, He.
      destruct (truediv_int_fraction (error_cnt t) (total_checks t)) as [f Hf].
      - rewrite Hc, He.
        pose proof (filter_length_le
          (imperfect (Z.lxor 0 0) (vote_threshold_of (Sent.rho first)))
          (first :: rest)). lia.
      - rewrite Hc. cbn [length]. lia.
      - unfold adapted_rho. rewrite Hf. cbn [bind].
        destruct (PrimFloat.leb f 0.3); eauto. }
    assert (verify_previous self prev
            = Ok ({| max_group_size := max_group_size self;
                     is_adaptive := is_adaptive self;
                     target_rho := target_rho self;
                     max_payload_bit := max_payload_bit self;
                     current_rho := rho';
                     sorted_tags_bin := sorted_tags_bin self;
                     total_tags := total_tags self;
                     cursor := cursor self;
                     is_running := is_running self;
                     last_sent_context := [];
                     verified_present := tally_present t;
                     verified_missing := tally_missing t |}, error_flag t)) as E.
    { unfold verify_previous. rewrite Hl. fold (actual_set prev).
      rewrite Hset, superimpose_no_responder. cbn [bind].
      rewrite Hnoise, Ht. cbn [bind]. rewrite Hrho. reflexivity. }
    do 2 eexists. split; [exact E|]. exact (Hsets _ _ E).
  - intros self' cmd E. unfold LODS_get_next_command in E.
    inv_bind E. destruct a as [self1 flag]. cbn [fst snd] in E.
    destruct (Hsets _ _ E0) as [Hp Hm].
    destruct (schedule_next_rho _ _ _ _ (verify_previous_clears _ _ _ _ E0) E)
      as (_ & Hp' & Hm' & _).
    rewrite Hp', Hm'. auto.
Qed.

(** ** The circuit breaker *)

Lemma downlink_counters (config : SimulationConfig) (cnt : Z)
    (cmd : ReaderCommand) (led led' : Ledger) :
  downlink config cnt cmd led = Ok led' ->
  total_slots led' = total_slots led /\ success_slots led' = success_slots led.
Proof.
  unfold downlink. intros E. inv_bind E. inv_bind E. injection E as <-. auto.
Qed.

Lemma uplink_counters (config : SimulationConfig) (cnt : Z)
    (cmd : ReaderCommand) (st : PacketType) (num : Z) (led led' : Ledger) :
  uplink config cnt cmd st num led = Ok led' ->
  total_slots led' = total_slots led /\ success_slots led' = success_slots led.
Proof.
  unfold uplink. intros E. inv_bind E. inv_bind E. injection E as <-. auto.
Qed.

Lemma classify_slot_counters (config : SimulationConfig)
    (rssi_map : gmap string float) (resp : list string) (led led' : Ledger)
    (st : PacketType) (rd : option (list string)) :
  classify_slot config rssi_map resp led = Ok (st, rd, led') ->
  total_slots led' = total_slots led + 1 /\
  success_slots led <= success_slots led' <= success_slots led + 1.
Proof.
  unfold classify_slot. intros E.
  destruct (_ =? 0); [injection E as _ _ <-; cbn; lia|].
  destruct (_ =? 1).
  - inv_bind E. injection E as _ _ <-. cbn. lia.
  - inv_bind E. destruct a as [w|]; [destruct (truthy (Some w))|];
      injection E as _ _ <-; cbn; lia.
Qed.

Section Breaker.
Context {S : Type} `{AlgorithmInterface S}.
Variable config : SimulationConfig.
Variable R : Random.
Variable true_tags : list Tag.

(** A slot is run only at or below the ceiling, and counts as one. *)
Lemma body_continue_slots (ks ks' : Kernel S) :
  loop_body config R true_tags ks = Ok (Continue ks') ->
  total_slots (ledger ks) <= CONSTANTS.MAX_SLOTS_LIMIT /\
  total_slots (ledger ks') = total_slots (ledger ks) + 1 /\
  success_slots (ledger ks) <= success_slots (ledger ks')
    <= success_slots (ledger ks) + 1 /\
  stdout ks' = stdout ks.
Proof.
  unfold loop_body. intros E.
  destruct (Z.gtb_spec (total_slots (ledger ks)) CONSTANTS.MAX_SLOTS_LIMIT);
    [discriminate|].
  inv_bind E. destruct (_ <? 0); [discriminate|].
  inv_bind E. inv_bind E. inv_bind E. destruct a2 as [[st rd] led].
  cbn [fst snd] in E. inv_bind E. inv_bind E. injection E as <-.
  cbn [ledger stdout].
  apply downlink_counters in E1 as [? ?].
  apply classify_slot_counters in E3 as [? ?].
  apply uplink_counters in E5 as [? ?].
  repeat split; lia.
Qed.

Lemma reaches_counters (alg : S) (n : nat) (ks : Kernel S) :
  reaches config R true_tags (Kernel_init alg) n ks ->
  total_slots (ledger ks) = Z.of_nat n /\
  total_slots (ledger ks) <= CONSTANTS.MAX_SLOTS_LIMIT + 1 /\
  0 <= success_slots (ledger ks) <= total_slots (ledger ks) /\
  stdout ks = [].
Proof.
  induction 1 as [|n ks ks' _ IH _ E].
  - cbn. unfold CONSTANTS.MAX_SLOTS_LIMIT. repeat split; lia.
  - apply body_continue_slots in E as (? & ? & ? & ->).
    destruct IH as (? & ? & ? & ?). repeat split; auto; lia.
Qed.

Lemma reaches_fuel (ks0 ks : Kernel S) (n : nat) :
  reaches config R true_tags ks0 n ks ->
  forall fuel,
    kernel_loop config R true_tags (n + fuel) ks0
    = kernel_loop config R true_tags fuel ks.
Proof.
  induction 1 as [|n ks ks' _ IH Hf E]; intros fuel; [reflexivity|].
  replace (Datatypes.S n + fuel)%nat with (n + Datatypes.S fuel)%nat by lia.
  rewrite IH. cbn [kernel_loop]. rewrite Hf, E. reflexivity.
Qed.

(** After [MAX_SLOTS_LIMIT + 1] slots the statistics are those of any
    other run. *)
Lemma statistics_above_ceiling (led : Ledger) :
  total_slots led = CONSTANTS.MAX_SLOTS_LIMIT + 1 ->
  0 <= success_slots led <= total_slots led ->
  exists st,
    statistics led = Ok st /\
    stat_total_slots st = CONSTANTS.MAX_SLOTS_LIMIT + 1 /\
    stat_total_time_us st = total_time_us led.
Proof.
  intros Ht Hs.
  assert (0 < total_slots led)
    by (rewrite Ht; unfold CONSTANTS.MAX_SLOTS_LIMIT; lia).
  destruct (truediv_int_fraction (success_slots led) (total_slots led))
    as [eff Heff]; [lia|lia|].
  unfold statistics.
  destruct (Z.gtb_spec (total_slots led) 0); [|lia].
  rewrite Heff. cbn [bind]. eexists. split; [reflexivity|]. cbn. auto.
Qed.

(** The loop stops at the first state above the ceiling: either the
    protocol is finished there, or the body prints the warning and breaks. *)
Lemma run_above_ceiling (alg : S) (n : nat) (ks : Kernel S) :
  reaches config R true_tags (Kernel_init alg) n ks ->
  CONSTANTS.MAX_SLOTS_LIMIT < total_slots (ledger ks) ->
  run_high_fidelity_simulation config R true_tags alg
  = (st <- statistics (ledger ks) ;;
     Ok (st, algorithm ks,
         if is_finished (algorithm ks) then [] else [breaker_message])).
Proof.
  intros Hr Hover.
  destruct (reaches_counters _ _ _ Hr) as (Hn & Hmax & _ & Hout).
  assert (0 <= CONSTANTS.MAX_SLOTS_LIMIT) as Hpos
    by (unfold CONSTANTS.MAX_SLOTS_LIMIT; lia).
  unfold run_high_fidelity_simulation.
  replace loop_bound with (n + 1)%nat by (unfold loop_bound; lia).
  rewrite (reaches_fuel _ _ _ Hr). cbn [kernel_loop].
  destruct (is_finished (algorithm ks)) eqn:Hfin.
  - cbn [bind]. rewrite Hout. reflexivity.
  - unfold loop_body.
    destruct (Z.gtb_spec (total_slots (ledger ks)) CONSTANTS.MAX_SLOTS_LIMIT);
      [|lia].
    cbn [bind ledger algorithm stdout]. rewrite Hout. reflexivity.
Qed.

(** C7, amended.  Once the slot count of a run is above the ceiling, no
    further slot is run: the function returns, as for any other run, the
    statistics of the slots run so far (with [MAX_SLOTS_LIMIT + 1] slots),
    after printing one warning line if the protocol is not finished.
    Nothing is raised. *)
Theorem breaker_returns_statistics (alg : S) (n : nat) (ks : Kernel S) :
  reaches config R true_tags (Kernel_init alg) n ks ->
  CONSTANTS.MAX_SLOTS_LIMIT < total_slots (ledger ks) ->
  exists st,
    run_high_fidelity_simulation config R true_tags alg
    = Ok (st, algorithm ks,
          if is_finished (algorithm ks) then [] else [breaker_message]) /\
    stat_total_slots st = CONSTANTS.MAX_SLOTS_LIMIT + 1 /\
    stat_total_time_us st = total_time_us (ledger ks).
Proof.
  intros Hr Hover.
  destruct (reaches_counters _ _ _ Hr) as (_ & Hmax & Hsucc & _).
  destruct (statistics_above_ceiling (ledger ks)) as (st & Hst & Hslots & Htime);
    [lia|exact Hsucc|].
  exists st. rewrite (run_above_ceiling _ _ _ Hr Hover), Hst.
  repeat split; assumption.
Qed.

End Breaker.

(** A protocol instance that never finishes: the flagship protocol with a
    maximum group size of 0 schedules empty groups for ever. *)
Definition stuck_algorithm : LODS_MTI_Algorithm :=
  match initialize (LODS_init 0 4 true 256) example_tags with
  | Ok alg => alg
  | _ => LODS_default
  end.

Definition stuck_command : ReaderCommand :=
  {| payload_bits := 13;
     expected_reply_bits := 0;
     response_protocol := protocol_logic EmptyString;
     concatenated_tags_count := 1 |}.

Lemma stuck_step (prev : SlotResult) :
  LODS_get_next_command stuck_algorithm prev = Ok (stuck_algorithm, stuck_command).
Proof. vm_compute. reflexivity. Qed.

Lemma stuck_body (ks : Kernel LODS_MTI_Algorithm) :
  algorithm ks = stuck_algorithm ->
  total_slots (ledger ks) <= CONSTANTS.MAX_SLOTS_LIMIT ->
  exists ks',
    loop_body SimulationConfig_default example_random example_tags ks
    = Ok (Continue ks') /\
    algorithm ks' = stuck_algorithm.
Proof.
  intros Halg Hle. unfold loop_body.
  destruct (Z.gtb_spec (total_slots (ledger ks)) CONSTANTS.MAX_SLOTS_LIMIT); [lia|].
  rewrite Halg. cbn [get_next_command LODS_interface]. rewrite stuck_step.
  cbn [bind fst snd].
  eexists. split; [vm_compute; reflexivity|reflexivity].
Qed.

Lemma stuck_reaches (n : nat) :
  Z.of_nat n <= CONSTANTS.MAX_SLOTS_LIMIT + 1 ->
  exists ks,
    reaches SimulationConfig_default example_random example_tags
      (Kernel_init stuck_algorithm) n ks /\
    algorithm ks = stuck_algorithm.
Proof.
  induction n as [|n IH]; intros Hn.
  - exists (Kernel_init stuck_algorithm). split; [constructor|reflexivity].
  - destruct IH as (ks & Hr & Halg); [lia|].
    destruct (reaches_counters _ _ _ _ _ _ Hr) as (Hslots & _).
    destruct (stuck_body ks Halg) as (ks' & Hb & Halg'); [lia|].
    exists ks'. split; [|exact Halg'].
    econstructor; [exact Hr| |exact Hb].
    rewrite Halg. reflexivity.
Qed.

(** C7, as stated, fails: the run of [stuck_algorithm] goes above the
    ceiling of 200000 slots, and the caller gets ordinary statistics (with
    200001 slots), the warning being only printed. *)
Lemma breaker_run_returns_ordinary_statistics :
  exists st,
    run_high_fidelity_simulation SimulationConfig_default example_random
      example_tags stuck_algorithm
    = Ok (st, stuck_algorithm, [breaker_message]) /\
    stat_total_slots st = 200001 /\
    CONSTANTS.MAX_SLOTS_LIMIT < stat_total_slots st.
Proof.
  destruct (stuck_reaches (Z.to_nat (CONSTANTS.MAX_SLOTS_LIMIT + 1)))
    as (ks & Hr & Halg); [unfold CONSTANTS.MAX_SLOTS_LIMIT; lia|].
  destruct (reaches_counters _ _ _ _ _ _ Hr) as (Hslots & _ & Hsucc & _).
  assert (total_slots (ledger ks) = CONSTANTS.MAX_SLOTS_LIMIT + 1) as Htotal
    by (rewrite Hslots; unfold CONSTANTS.MAX_SLOTS_LIMIT; lia).
  destruct (statistics_above_ceiling (ledger ks) Htotal Hsucc)
    as (st & Hst & Hcount & _).
  exists st. rewrite (run_above_ceiling _ _ _ _ _ ks Hr) by lia.
  rewrite Hst, Halg. cbn [bind].
  split; [reflexivity|]. rewrite Hcount. unfold CONSTANTS.MAX_SLOTS_LIMIT. lia.
Qed.

Lemma breaker_returns_statistics_witness :
  exists ks st,
    CONSTANTS.MAX_SLOTS_LIMIT < total_slots (ledger ks) /\
    run_high_fidelity_simulation SimulationConfig_default example_random
      example_tags stuck_algorithm
    = Ok (st, algorithm ks,
          if is_finished (algorithm ks) then [] else [breaker_message]) /\
    stat_total_slots st = CONSTANTS.MAX_SLOTS_LIMIT + 1 /\
    stat_total_time_us st = total_time_us (ledger ks).
Proof.
  destruct (stuck_reaches (Z.to_nat (CONSTANTS.MAX_SLOTS_LIMIT + 1)))
    as (ks & Hr & Halg); [unfold CONSTANTS.MAX_SLOTS_LIMIT; lia|].
  destruct (reaches_counters _ _ _ _ _ _ Hr) as (Hslots & _).
  assert (CONSTANTS.MAX_SLOTS_LIMIT < total_slots (ledger ks)) as Hover
    by (rewrite Hslots; unfold CONSTANTS.MAX_SLOTS_LIMIT; lia).
  destruct (breaker_returns_statistics SimulationConfig_default example_random
              example_tags stuck_algorithm _ ks Hr Hover) as (st & Hst).
  exists ks, st. split; [exact Hover|exact Hst].
Defined.

(** ** The loop bound of the kernel is never reached *)

Lemma settled_int16_digits (s : string) (acc : Z) :
  settled (Py.int16_digits acc s).
Proof. revert acc. induction s as [|c s IH]; intros acc; simpl; settle. Qed.

Lemma settled_epc_bin (e : string) : settled (epc_bin e).
Proof.
  unfold epc_bin, Py.int16. pose proof settled_int16_digits. settle.
Qed.

Lemma settled_protocol_logic (mask : string) (tag : Tag) :
  settled (protocol_logic mask tag).
Proof. unfold protocol_logic. pose proof settled_epc_bin. settle. Qed.

Lemma settled_responders (p : Tag -> Result bool) (tags : list Tag) :
  (forall t, settled (p t)) -> settled (responders p tags).
Proof. intros Hp. induction tags as [|t rest IH]; simpl; settle. Qed.

Lemma settled_lookup_strengths (m : gmap string float) (l : list string) :
  settled (lookup_strengths m l).
Proof. induction l as [|e rest IH]; simpl; settle. Qed.

Lemma settled_classify_slot (config : SimulationConfig)
    (m : gmap string float) (resp : list string) (led : Ledger) :
  settled (classify_slot config m resp led).
Proof.
  unfold classify_slot, capture_winner. pose proof settled_lookup_strengths.
  settle.
Qed.

Lemma settled_inject_impairments (config : SimulationConfig) (R : Random)
    (cmd : ReaderCommand) (st : PacketType) (rd : option (list string))
    (n : nat) :
  settled (inject_impairments config R cmd st rd n).
Proof. unfold inject_impairments, drift_flips, supports_phy. settle. Qed.

Lemma settled_downlink (config : SimulationConfig) (cnt : Z)
    (cmd : ReaderCommand) (led : Ledger) :
  settled (downlink config cnt cmd led).
Proof. unfold downlink. settle. Qed.

Lemma settled_uplink (config : SimulationConfig) (cnt : Z)
    (cmd : ReaderCommand) (st : PacketType) (num : Z) (led : Ledger) :
  settled (uplink config cnt cmd st num led).
Proof. unfold uplink, _calc_dynamic_reply_time. settle. Qed.

Lemma settled_statistics (led : Ledger) : settled (statistics led).
Proof. unfold statistics. settle. Qed.

Section KernelSettled.
Context {S : Type} `{AlgorithmInterface S}.
Variable config : SimulationConfig.
Variable R : Random.
Variable true_tags : list Tag.

Hypothesis command_settled :
  forall (s : S) (r : SlotResult), settled (get_next_command s r).
Hypothesis protocol_settled :
  forall (s s' : S) (r : SlotResult) (cmd : ReaderCommand),
    get_next_command s r = Ok (s', cmd) ->
    forall t, settled (response_protocol cmd t).

Lemma settled_loop_body (ks : Kernel S) :
  settled (loop_body config R true_tags ks).
Proof.
  unfold loop_body. destruct (_ >? _); [settle|].
  apply settled_bind; [apply command_settled|]. intros [s' cmd] E.
  cbn [fst snd]. destruct (_ <? 0); [settle|].
  apply settled_bind; [apply settled_downlink|]. intros led _.
  apply settled_bind;
    [apply settled_responders; eapply protocol_settled; exact E|].
  intros resp _.
  apply settled_bind; [apply settled_classify_slot|]. intros c _.
  apply settled_bind; [apply settled_inject_impairments|]. intros i _.
  apply settled_bind; [apply settled_uplink|]. intros led' _. settle.
Qed.

(** Out of fuel, the loop has run as many slots as it had fuel. *)
Lemma kernel_loop_OutOfFuel (fuel : nat) (ks : Kernel S) :
  kernel_loop config R true_tags fuel ks = OutOfFuel ->
  exists ks', reaches config R true_tags ks fuel ks'.
Proof.
  intros E.
  enough (exists ks', reaches config R true_tags ks fuel ks' /\
                      kernel_loop config R true_tags O ks' = OutOfFuel)
    as (ks' & Hr & _) by eauto.
  revert ks E. induction fuel as [|fuel IH]; intros ks E.
  - exists ks. split; [constructor|exact E].
  - cbn [kernel_loop] in E.
    destruct (is_finished (algorithm ks)) eqn:Hf; [discriminate|].
    destruct (loop_body config R true_tags ks) as [[ks1|ks1]| |] eqn:Hb;
      cbn [bind] in E; try discriminate.
    + destruct (IH ks1 E) as (ks' & Hr & Hlast). exists ks'. split; [|exact Hlast].
      clear Hlast E IH. induction Hr.
      * econstructor; [constructor|exact Hf|exact Hb].
      * econstructor; eauto.
    + exfalso. exact (settled_loop_body ks Hb).
Qed.

(** The simulation always ends: with statistics, or with an exception. *)
Lemma settled_run_high_fidelity_simulation (alg : S) :
  settled (run_high_fidelity_simulation config R true_tags alg).
Proof.
  unfold run_high_fidelity_simulation.
  apply settled_bind.
  - intros E. apply kernel_loop_OutOfFuel in E as (ks' & Hr).
    destruct (reaches_counters _ _ _ _ _ _ Hr) as (Hn & Hmax & _).
    unfold loop_bound in Hn. unfold CONSTANTS.MAX_SLOTS_LIMIT in *. lia.
  - intros ks _. apply settled_bind; [apply settled_statistics|]. intros. settle.
Qed.

End KernelSettled.

Lemma settled_command_protocol (self self' : LODS_MTI_Algorithm)
    (prev : SlotResult) (cmd : ReaderCommand) (t : Tag) :
  LODS_get_next_command self prev = Ok (self', cmd) ->
  settled (response_protocol cmd t).
Proof.
  unfold LODS_get_next_command. intros E. inv_bind E.
  unfold schedule_next in E. destruct (_ >=? _).
  - injection E as _ <-. cbn. settle.
  - inv_bind E. inv_bind E. inv_bind E. injection E as _ <-. cbn.
    apply settled_protocol_logic.
Qed.

(** A run of the flagship protocol under the kernel always ends, whatever
    the configuration, the random draws and the tags. *)
Lemma LODS_run_settled (config : SimulationConfig) (R : Random)
    (true_tags : list Tag) (alg : LODS_MTI_Algorithm) :
  settled (run_high_fidelity_simulation config R true_tags alg).
Proof.
  apply settled_run_high_fidelity_simulation.
  - intros s r. apply settled_LODS_get_next_command.
  - intros s s' r cmd E t. exact (settled_command_protocol _ _ _ _ t E).
Qed.

(* ------------------------------------------------------------------------- *)
(** * Further properties of the protocol *)

(** ** [_get_lcp] *)

Lemma get_lcp_comm (str1 str2 : string) : _get_lcp str1 str2 = _get_lcp str2 str1.
Proof.
  revert str2. induction str1 as [|a r1 IH]; intros [|b r2]; simpl; auto.
  rewrite (Ascii.eqb_sym b a).
  destruct (Ascii.eqb_spec a b) as [->|]; [rewrite IH|]; reflexivity.
Qed.

Lemma get_lcp_greatest (str1 str2 p : string) :
  String.prefix p str1 = true -> String.prefix p str2 = true ->
  String.prefix p (_get_lcp str1 str2) = true.
Proof.
  revert str1 str2. induction p as [|c p IH]; intros str1 str2;
    [intros _ _; destruct (_get_lcp str1 str2); reflexivity|].
  destruct str1 as [|a r1], str2 as [|b r2]; simpl; try discriminate.
  destruct (ascii_dec c a) as [->|]; [|discriminate].
  destruct (ascii_dec a b) as [->|]; [|discriminate].
  rewrite Ascii.eqb_refl. simpl.
  destruct (ascii_dec b b); [apply IH|congruence].
Qed.

(** X1.  [_get_lcp] returns the longest common prefix of its two
    arguments: both start with it, every string both start with is a
    prefix of it, and the order of the arguments does not matter. *)
Theorem get_lcp_longest_common_prefix (str1 str2 : string) :
  Py.startswith str1 (_get_lcp str1 str2) = true /\
  Py.startswith str2 (_get_lcp str1 str2) = true /\
  (forall p, Py.startswith str1 p = true -> Py.startswith str2 p = true ->
             Py.startswith (_get_lcp str1 str2) p = true) /\
  _get_lcp str2 str1 = _get_lcp str1 str2.
Proof.
  unfold Py.startswith. repeat split.
  - apply prefix_lcp_l.
  - apply prefix_lcp_r.
  - intros p. apply get_lcp_greatest.
  - apply get_lcp_comm.
Qed.

(** ** [_find_perfect_seed] *)

Lemma seed_collides_true (seed mod_size : Z) (epc_ints : list Z)
    (slots : gset Z) :
  seed_collides seed mod_size epc_ints slots = Ok true ->
  ~ (NoDup (sub_slot seed mod_size <$> epc_ints) /\
     forall s, s ∈ sub_slot seed mod_size <$> epc_ints -> s ∉ slots).
Proof.
  revert slots. induction epc_ints as [|val rest IH]; intros slots E;
    [discriminate|].
  simpl in E. inv_bind E. unfold Py.mod_ in E0.
  destruct (Z.eqb_spec mod_size 0) as [|Hm]; [discriminate|].
  injection E0 as <-. fold (sub_slot seed mod_size val) in E.
  rewrite fmap_cons. intros [Hnd Hfresh].
  destruct (bool_decide_reflect (sub_slot seed mod_size val ∈ slots)) as [Hin|Hnot].
  - apply (Hfresh (sub_slot seed mod_size val)); [left|exact Hin].
  - apply IH in E. apply E. apply NoDup_cons in Hnd as [Hhead Hnd].
    split; [exact Hnd|]. intros s Hs.
    rewrite not_elem_of_union, not_elem_of_singleton. split.
    + apply Hfresh. right. exact Hs.
    + intros ->. exact (Hhead Hs).
Qed.

Lemma seed_collides_total (seed mod_size : Z) (epc_ints : list Z)
    (slots : gset Z) :
  mod_size <> 0 -> exists b, seed_collides seed mod_size epc_ints slots = Ok b.
Proof.
  intros Hm. revert slots.
  induction epc_ints as [|val rest IH]; intros slots; simpl; [eauto|].
  unfold Py.mod_. destruct (Z.eqb_spec mod_size 0); [contradiction|].
  cbn [bind]. destruct (bool_decide _); eauto.
Qed.

(** The seeds tried before the one returned all make two values collide. *)
Lemma seed_scan_first (seeds epc_ints : list Z) (mod_size : Z) (r : option Z) :
  seed_scan seeds epc_ints mod_size = Ok r ->
  match r with
  | Some seed =>
      exists i : nat,
        seeds !! i = Some seed /\
        forall (j : nat) s, (j < i)%nat -> seeds !! j = Some s ->
          ~ NoDup (sub_slot s mod_size <$> epc_ints)
  | None =>
      forall s, s ∈ seeds -> ~ NoDup (sub_slot s mod_size <$> epc_ints)
  end.
Proof.
  revert r. induction seeds as [|s0 seeds IH]; intros r E; simpl in E.
  - injection E as <-. intros s Hs. inversion Hs.
  - inv_bind E. destruct a; simpl in E.
    + assert (~ NoDup (sub_slot s0 mod_size <$> epc_ints)) as Hs0.
      { intros Hnd. apply (seed_collides_true _ _ _ _ E0).
        split; [exact Hnd|]. intros s _. apply not_elem_of_empty. }
      specialize (IH _ E). destruct r as [seed|].
      * destruct IH as (i & Hi & Hbefore). exists (Datatypes.S i).
        split; [exact Hi|]. intros [|j] s Hj Hs; simpl in Hs.
        -- injection Hs as <-. exact Hs0.
        -- apply (Hbefore j); [lia|exact Hs].
      * intros s Hs. apply elem_of_cons in Hs as [->|Hs]; auto.
    + injection E as <-. exists O. split; [reflexivity|]. intros j s Hj. lia.
Qed.

(** X2.  When [_find_perfect_seed] returns a seed, it is one of 0..15, it
    sends the values of the group to pairwise distinct sub-slots, and it is
    the smallest seed that does: every smaller seed makes two values
    share a sub-slot. *)
Theorem find_perfect_seed_least (epc_ints : list Z) (mod_size seed : Z) :
  _find_perfect_seed epc_ints mod_size = Ok (Some seed) ->
  0 <= seed < 16 /\
  NoDup ((fun val => Z.lxor val seed mod mod_size) <$> epc_ints) /\
  forall s, 0 <= s < seed ->
    ~ NoDup ((fun val => Z.lxor val s mod mod_size) <$> epc_ints).
Proof.
  intros E.
  destruct (find_perfect_seed_injective _ _ _ E) as (Hnd & _ & Hr).
  split; [exact Hr|]. split; [exact Hnd|].
  apply seed_scan_first in E as (i & Hi & Hbefore).
  unfold Py.range in Hi. apply lookup_seqZ in Hi as [-> Hi].
  intros s Hs. apply (Hbefore (Z.to_nat s) s); [lia|].
  unfold Py.range. apply lookup_seqZ. lia.
Qed.

Lemma find_perfect_seed_least_witness :
  0 <= 1 < 16 /\
  NoDup ((fun val => Z.lxor val 1 mod 3) <$> [0; 3]) /\
  forall s, 0 <= s < 1 -> ~ NoDup ((fun val => Z.lxor val s mod 3) <$> [0; 3]).
Proof. apply (find_perfect_seed_least [0; 3] 3 1). vm_compute. reflexivity. Defined.

Lemma find_perfect_seed_total (epc_ints : list Z) (mod_size : Z) :
  mod_size <> 0 -> exists r, _find_perfect_seed epc_ints mod_size = Ok r.
Proof.
  intros Hm. unfold _find_perfect_seed. generalize (Py.range 0 16).
  intros seeds. induction seeds as [|s seeds IH]; simpl; [eauto|].
  destruct (seed_collides_total s mod_size epc_ints ∅ Hm) as [b ->].
  cbn [bind]. destruct b; simpl; eauto.
Qed.

Lemma sub_slots_bounded (seed mod_size : Z) (epc_ints : list Z) :
  0 < mod_size ->
  NoDup (sub_slot seed mod_size <$> epc_ints) ->
  Z.of_nat (length epc_ints) <= mod_size.
Proof.
  intros Hm Hnd.
  assert (sub_slot seed mod_size <$> epc_ints ⊆+ seqZ 0 mod_size) as Hsub.
  { apply NoDup_submseteq; [exact Hnd|]. intros s Hs.
    apply list_elem_of_fmap in Hs as (v & -> & _).
    apply elem_of_seqZ. unfold sub_slot.
    pose proof (Z.mod_pos_bound (Z.lxor v seed) mod_size Hm). lia. }
  apply submseteq_length in Hsub.
  rewrite length_fmap, length_seqZ in Hsub. lia.
Qed.

(** X3.  A group with more values than sub-slots has no perfect seed:
    [_find_perfect_seed] returns None (and so the caller shrinks the
    group). *)
Theorem find_perfect_seed_pigeonhole (epc_ints : list Z) (mod_size : Z) :
  0 < mod_size < Z.of_nat (length epc_ints) ->
  _find_perfect_seed epc_ints mod_size = Ok None.
Proof.
  intros Hm.
  destruct (find_perfect_seed_total epc_ints mod_size) as [[seed|] E]; [lia| |exact E].
  apply find_perfect_seed_injective in E as (Hnd & _).
  apply sub_slots_bounded in Hnd; lia.
Qed.

Lemma find_perfect_seed_pigeonhole_witness :
  _find_perfect_seed [0; 1; 2] 2 = Ok None.
Proof. apply find_perfect_seed_pigeonhole. simpl. lia. Defined.

(** X4.  [_find_perfect_seed] raises exactly when a non-empty group meets
    the modulus 0, and then it is ZeroDivisionError; in every other case it
    returns (a seed or None), and for an empty group the seed 0. *)
Theorem find_perfect_seed_errors (epc_ints : list Z) (mod_size : Z) :
  (mod_size = 0 /\ epc_ints <> [] ->
   _find_perfect_seed epc_ints mod_size = Raise ZeroDivisionError) /\
  (mod_size <> 0 \/ epc_ints = [] ->
   exists r, _find_perfect_seed epc_ints mod_size = Ok r) /\
  (epc_ints = [] -> _find_perfect_seed epc_ints mod_size = Ok (Some 0)).
Proof.
  repeat split.
  - intros [-> Hne]. destruct epc_ints as [|val rest]; [congruence|reflexivity].
  - intros [Hm| ->]; [apply find_perfect_seed_total; exact Hm|].
    exists (Some 0). reflexivity.
  - intros ->. reflexivity.
Qed.

Lemma find_perfect_seed_errors_witness :
  _find_perfect_seed [1; 2] 0 = Raise ZeroDivisionError.
Proof.
  apply (proj1 (find_perfect_seed_errors [1; 2] 0)). split; [reflexivity|discriminate].
Defined.

(** ** [_find_dynamic_slice] *)

Lemma countdown_succ (lim : Z) :
  0 <= lim -> countdown (Z.succ lim) = Z.succ lim :: countdown lim.
Proof.
  intros H. unfold countdown, Py.range.
  replace (Z.succ lim + 1 - 1) with (Z.succ lim) by lia.
  replace (lim + 1 - 1) with lim by lia.
  replace (Z.succ lim) with (lim + 1) at 1 by lia.
  rewrite seqZ_app by lia. rewrite reverse_app.
  rewrite (seqZ_cons _ 1), (seqZ_nil _ (Z.pred 1)) by lia.
  simpl. f_equal. lia.
Qed.

(** A candidate size [k] the loop passes over: the tag after the [k] is
    not told apart by the prefix the [k] tags share. *)
Definition not_separated (tags : list SortedTag.t) (start_idx k : Z) : Prop :=
  exists first last outside,
    tags !! Z.to_nat start_idx = Some first /\
    tags !! Z.to_nat (start_idx + k - 1) = Some last /\
    tags !! Z.to_nat (start_idx + k) = Some outside /\
    Py.startswith (SortedTag.bin outside)
                  (_get_lcp (SortedTag.bin first) (SortedTag.bin last)) = true.

Lemma slice_scan_countdown (tags : list SortedTag.t) (start_idx lim : Z)
    (r : option (Z * string)) :
  0 <= start_idx -> 0 <= lim ->
  slice_scan tags start_idx (countdown lim) = Ok r ->
  forall k', (match r with Some (k, _) => k | None => 0 end) < k' <= lim ->
             not_separated tags start_idx k'.
Proof.
  intros Hs Hlim. revert r. pattern lim. apply natlike_ind; [| |exact Hlim].
  - intros r E k' Hk'. change (countdown 0) with (@nil Z) in E.
    simpl in E. injection E as <-. lia.
  - clear lim Hlim. intros lim Hlim IH r E k' Hk'.
    rewrite countdown_succ in E by exact Hlim. simpl in E.
    inv_bind E. rename a into first. inv_bind E. rename a into last.
    inv_bind E. rename a into outside.
    apply getitem_Ok in E0 as [E0 _]; [|lia].
    apply getitem_Ok in E1 as [E1 _]; [|lia].
    apply getitem_Ok in E2 as [E2 _]; [|lia].
    destruct (Py.startswith _ _) eqn:Hp.
    + destruct (Z.eq_dec k' (Z.succ lim)) as [->|Hne].
      * exists first, last, outside. auto.
      * apply (IH r E). lia.
    + injection E as <-. lia.
Qed.

(** X5.  With tags left from [start_idx] on, [_find_dynamic_slice] returns
    a group of at least one tag, within the tags left and within the size
    limit (the smaller of [max_group_size], the tags left and the
    override; a limit below 1 still gives one tag), and the group is the
    largest the prefix can separate: every larger size within the limit
    was passed over because the tag after it shares the prefix. *)
Theorem find_dynamic_slice_largest_group (self : LODS_MTI_Algorithm)
    (start_idx : Z) (limit_k_override : option Z) (k : Z) (mask : string) :
  total_tags self = Z.of_nat (length (sorted_tags_bin self)) ->
  0 <= start_idx < total_tags self ->
  _find_dynamic_slice self start_idx limit_k_override = Ok (k, mask) ->
  let limit_k :=
    match limit_k_override with
    | Some o => Z.min (Z.min (max_group_size self) (total_tags self - start_idx)) o
    | None => Z.min (max_group_size self) (total_tags self - start_idx)
    end in
  1 <= k <= total_tags self - start_idx /\
  k <= Z.max 1 limit_k /\
  forall k', k < k' <= limit_k ->
             not_separated (sorted_tags_bin self) start_idx k'.
Proof.
  intros Htot Hs E.
  change (match limit_k_override with
          | Some o => Z.min (Z.min (max_group_size self) (total_tags self - start_idx)) o
          | None => Z.min (max_group_size self) (total_tags self - start_idx)
          end) with (slice_limit self start_idx limit_k_override).
  cbv zeta.
  destruct (find_dynamic_slice_spec _ _ _ _ _ Htot Hs E) as (Hk & Hle & _).
  split; [exact Hk|]. split; [exact Hle|].
  unfold _find_dynamic_slice in E.
  destruct (Z.eqb_spec (total_tags self - start_idx) 0); [lia|].
  fold (slice_limit self start_idx limit_k_override) in E.
  set (lim := slice_limit self start_idx limit_k_override) in *.
  destruct (Z.geb_spec (start_idx + lim) (total_tags self)) as [Hend|Hin].
  - inv_bind E. inv_bind E. injection E as <- _. intros k' Hk'. lia.
  - inv_bind E. rename a into found. intros k' Hk'.
    assert (0 <= lim) as Hlim by lia.
    apply (slice_scan_countdown _ _ _ _ (proj1 Hs) Hlim E0).
    destruct found as [[k0 m0]|].
    + injection E as -> _. lia.
    + inv_bind E. injection E as <- _. lia.
Qed.

(** Three tags with identifiers 0, 2 and 3, all present, under a protocol
    instance with groups of at most two tags. *)
Definition nearby_tags : list Tag :=
  [ mkTag "000000000000000000000000" 0 true (-40)%float;
    mkTag "000000000000000000000002" 2 true (-50)%float;
    mkTag "000000000000000000000003" 3 true (-60)%float ].

Definition nearby_algorithm : LODS_MTI_Algorithm :=
  match initialize (LODS_init 2 4 true 256) nearby_tags with
  | Ok alg => alg
  | _ => LODS_default
  end.

Lemma find_dynamic_slice_largest_group_witness :
  1 <= 1 <= 3 - 0 /\
  1 <= Z.max 1 (Z.min 2 (3 - 0)) /\
  forall k', 1 < k' <= Z.min 2 (3 - 0) ->
             not_separated (sorted_tags_bin nearby_algorithm) 0 k'.
Proof.
  apply (find_dynamic_slice_largest_group nearby_algorithm 0 None 1 (Py.zeros 96)).
  - reflexivity.
  - vm_compute. split; congruence.
  - vm_compute. reflexivity.
Defined.

(** ** The binary form of an EPC *)

(** The value of a string of binary digits, most significant first. *)
Fixpoint bits_acc (acc : Z) (s : string) : Z :=
  match s with
  | EmptyString => acc
  | String c r => bits_acc (2 * acc + (if Ascii.eqb c "1" then 1 else 0)) r
  end.

Definition bits_value (s : string) : Z := bits_acc 0 s.

(** Only the digits 0 and 1. *)
Fixpoint is_binary (s : string) : bool :=
  match s with
  | EmptyString => true
  | String c r => (Ascii.eqb c "0" || Ascii.eqb c "1") && is_binary r
  end.

Lemma bits_acc_shift (acc : Z) (s : string) :
  bits_acc acc s = acc * 2 ^ Z.of_nat (String.length s) + bits_value s.
Proof.
  unfold bits_value. revert acc. induction s as [|c r IH]; intros acc.
  - simpl. lia.
  - cbn [bits_acc String.length]. rewrite IH, (IH (2 * 0 + _)).
    rewrite Nat2Z.inj_succ, Z.pow_succ_r by lia. lia.
Qed.

Lemma bits_value_bounds (s : string) :
  0 <= bits_value s < 2 ^ Z.of_nat (String.length s).
Proof.
  induction s as [|c r IH].
  - unfold bits_value. simpl. lia.
  - unfold bits_value. cbn [bits_acc String.length].
    rewrite bits_acc_shift, Nat2Z.inj_succ, Z.pow_succ_r by lia.
    destruct (Ascii.eqb c "1"); lia.
Qed.

Lemma bin_pos_length (p : positive) (acc : string) :
  String.length (Py.bin_pos p acc) = (Pos.size_nat p + String.length acc)%nat.
Proof.
  revert acc. induction p as [q IH|q IH|]; intros acc; simpl;
    rewrite ?IH; simpl; lia.
Qed.

Lemma bin_pos_binary (p : positive) (acc : string) :
  is_binary acc = true -> is_binary (Py.bin_pos p acc) = true.
Proof.
  revert acc. induction p as [q IH|q IH|]; intros acc H; simpl;
    try apply IH; simpl; exact H.
Qed.

Lemma bin_pos_value (p : positive) (a : Z) (acc : string) :
  bits_acc a (Py.bin_pos p acc)
  = bits_acc (a * 2 ^ Z.of_nat (Pos.size_nat p) + Z.pos p) acc.
Proof.
  revert a acc. induction p as [q IH|q IH|]; intros a acc; simpl Py.bin_pos.
  - rewrite IH. cbn [bits_acc Pos.size_nat]. f_equal.
    change (Ascii.eqb "1" "1") with true. cbv iota.
    rewrite Nat2Z.inj_succ, Z.pow_succ_r by lia. lia.
  - rewrite IH. cbn [bits_acc Pos.size_nat]. f_equal.
    change (Ascii.eqb "0" "1") with false. cbv iota.
    rewrite Nat2Z.inj_succ, Z.pow_succ_r by lia. lia.
  - cbn [bits_acc Pos.size_nat]. f_equal.
    change (Ascii.eqb "1" "1") with true. cbv iota.
    change (2 ^ Z.of_nat 1) with 2. lia.
Qed.

Lemma size_nat_bound (p : positive) (w : nat) :
  Z.pos p < 2 ^ Z.of_nat w -> (Pos.size_nat p <= w)%nat.
Proof.
  revert w. induction p as [q IH|q IH|]; intros w H; simpl.
  - destruct w as [|w]; [simpl in H; lia|].
    rewrite Nat2Z.inj_succ, Z.pow_succ_r in H by lia.
    apply le_n_S, IH. lia.
  - destruct w as [|w]; [simpl in H; lia|].
    rewrite Nat2Z.inj_succ, Z.pow_succ_r in H by lia.
    apply le_n_S, IH. lia.
  - destruct w as [|w]; [simpl in H; lia|lia].
Qed.

Lemma zeros_length (n : nat) : String.length (Py.zeros n) = n.
Proof. induction n as [|n IH]; [reflexivity|]. simpl. rewrite IH. reflexivity. Qed.

Lemma append_length (a b : string) :
  String.length (a +:+ b) = (String.length a + String.length b)%nat.
Proof. induction a as [|c a IH]; [reflexivity|]. simpl. rewrite IH. reflexivity. Qed.

Lemma zeros_append_value (n : nat) (s : string) :
  bits_value (Py.zeros n +:+ s) = bits_value s.
Proof. unfold bits_value. induction n as [|n IH]; simpl; auto. Qed.

Lemma zeros_append_binary (n : nat) (s : string) :
  is_binary s = true -> is_binary (Py.zeros n +:+ s) = true.
Proof. intros H. induction n as [|n IH]; simpl; auto. Qed.

(** [bin(n)[2:].zfill(96)] for [0 <= n < 2^96]. *)
Lemma zfill_bin_tail (n : Z) :
  0 <= n < 2 ^ 96 ->
  let b := Py.zfill 96 (Py.bin_tail n) in
  String.length b = 96%nat /\ is_binary b = true /\ bits_value b = n.
Proof.
  intros Hn. destruct n as [|p|p]; [vm_compute; auto| |lia].
  cbn [Py.bin_tail]. unfold Py.zfill.
  pose proof (bin_pos_length p EmptyString) as Hlen.
  pose proof (bin_pos_binary p EmptyString eq_refl) as Hbin.
  pose proof (bin_pos_value p 0 EmptyString) as Hval.
  assert (Pos.size_nat p <= 96)%nat as Hsize
    by (apply size_nat_bound; change (Z.of_nat 96) with 96; lia).
  cbn [String.length] in Hlen.
  destruct (Py.bin_pos p EmptyString) as [|c r] eqn:Hs.
  { destruct p; simpl in Hlen; lia. }
  assert ((Ascii.eqb c "+" || Ascii.eqb c "-")%bool = false) as ->.
  { cbn [is_binary] in Hbin. apply andb_true_iff in Hbin as [Hc _].
    apply orb_true_iff in Hc as [Hc|Hc]; apply Ascii.eqb_eq in Hc; subst c;
      reflexivity. }
  cbv zeta. rewrite append_length, zeros_length, Hlen.
  split; [lia|]. split; [apply zeros_append_binary; exact Hbin|].
  rewrite zeros_append_value. unfold bits_value. rewrite Hval.
  cbn [bits_acc]. lia.
Qed.

Lemma int16_digits_bounds (s : string) (acc n : Z) :
  0 <= acc -> Py.int16_digits acc s = Ok n ->
  acc * 16 ^ Z.of_nat (String.length s) <= n
  < (acc + 1) * 16 ^ Z.of_nat (String.length s).
Proof.
  revert acc. induction s as [|c r IH]; intros acc Hacc E; simpl in E.
  - injection E as <-. simpl. lia.
  - destruct (Py.hex_digit c) as [d|] eqn:Hd; [|discriminate].
    assert (0 <= d < 16) as Hdr.
    { unfold Py.hex_digit in Hd.
      repeat match type of Hd with
             | (if ?b then _ else _) = _ => destruct b eqn:?
             end; try discriminate; injection Hd as <-; lia. }
    apply IH in E; [|lia]. cbn [String.length].
    rewrite Nat2Z.inj_succ, Z.pow_succ_r by lia. nia.
Qed.

Lemma int16_bounds (s : string) (n : Z) :
  Py.int16 s = Ok n -> 0 <= n < 16 ^ Z.of_nat (String.length s).
Proof.
  unfold Py.int16. destruct s as [|c r]; [discriminate|].
  intros E. apply int16_digits_bounds in E; lia.
Qed.

Lemma epc_bin_spec (e : string) (n : Z) :
  Py.int16 e = Ok n ->
  (String.length e <= 24)%nat ->
  let b := Py.zfill 96 (Py.bin_tail n) in
  epc_bin e = Ok b /\
  String.length b = 96%nat /\ is_binary b = true /\ bits_value b = n.
Proof.
  intros E Hlen. unfold epc_bin. rewrite E. cbn [bind].
  split; [reflexivity|]. apply zfill_bin_tail.
  apply int16_bounds in E.
  assert (16 ^ Z.of_nat (String.length e) <= 16 ^ 24)
    by (apply Z.pow_le_mono_r; lia).
  change (2 ^ 96) with (16 ^ 24). lia.
Qed.

(** X6.  The binary form the protocol computes for an EPC of at most 24
    hexadecimal digits is the 96-digit binary numeral of the EPC's value:
    exactly 96 characters, each 0 or 1, whose value is [int(epc, 16)]. *)
Theorem epc_bin_is_96_bit_numeral (e : string) (n : Z) :
  Py.int16 e = Ok n ->
  (String.length e <= 24)%nat ->
  exists b,
    epc_bin e = Ok b /\
    String.length b = 96%nat /\ is_binary b = true /\ bits_value b = n.
Proof.
  intros E Hlen. eexists. exact (epc_bin_spec e n E Hlen).
Qed.

Lemma epc_bin_is_96_bit_numeral_witness :
  exists b,
    epc_bin "E200001D4500000000000005" = Ok b /\
    String.length b = 96%nat /\ is_binary b = true /\
    bits_value b = 69943612759551537657994543109.
Proof.
  apply epc_bin_is_96_bit_numeral; [vm_compute; reflexivity|simpl; lia].
Defined.

(** ** [initialize] *)

(** On binary numerals of one length the order of the strings is the
    order of the values. *)
Lemma compare_binary (a b : string) :
  String.length a = String.length b ->
  is_binary a = true -> is_binary b = true ->
  match String.compare a b with
  | Lt => bits_value a < bits_value b
  | Eq => bits_value a = bits_value b
  | Gt => bits_value b < bits_value a
  end.
Proof.
  revert b. induction a as [|c a IH]; intros [|d b] Hlen Ha Hb;
    try discriminate; [reflexivity|].
  cbn [is_binary] in Ha, Hb.
  apply andb_true_iff in Ha as [Hc Ha]. apply andb_true_iff in Hb as [Hd Hb].
  injection Hlen as Hlen. specialize (IH b Hlen Ha Hb).
  pose proof (bits_value_bounds a) as Hva. pose proof (bits_value_bounds b) as Hvb.
  unfold bits_value in *. cbn [bits_acc]. rewrite !(bits_acc_shift (2 * 0 + _)).
  rewrite <- Hlen in *. unfold bits_value.
  apply orb_true_iff in Hc as [Hc|Hc]; apply Ascii.eqb_eq in Hc; subst c;
    apply orb_true_iff in Hd as [Hd|Hd]; apply Ascii.eqb_eq in Hd; subst d;
    cbn [String.compare];
    repeat match goal with
           | |- context [Ascii.compare ?x ?y] =>
               let v := eval vm_compute in (Ascii.compare x y) in
               change (Ascii.compare x y) with v
           | |- context [Ascii.eqb ?x ?y] =>
               let v := eval vm_compute in (Ascii.eqb x y) in
               change (Ascii.eqb x y) with v
           end;
    cbv iota; try (destruct (String.compare a b)); lia.
Qed.

Lemma leb_binary (a b : string) :
  String.length a = String.length b ->
  is_binary a = true -> is_binary b = true ->
  String.leb a b = true -> bits_value a <= bits_value b.
Proof.
  intros Hlen Ha Hb. pose proof (compare_binary a b Hlen Ha Hb) as H.
  unfold String.leb. destruct (String.compare a b); [lia|lia|discriminate].
Qed.

(** An entry of [sorted_tags_bin] as [initialize] builds it from a tag
    with an EPC of at most 24 hexadecimal digits. *)
Definition entry_ok (x : SortedTag.t) : Prop :=
  String.length (SortedTag.bin x) = 96%nat /\
  is_binary (SortedTag.bin x) = true /\
  bits_value (SortedTag.bin x) = SortedTag.int x /\
  epc_bin (SortedTag.hex x) = Ok (SortedTag.bin x).

Definition tag_ok (t : Tag) : Prop :=
  Py.int16 (epc t) = Ok (epc_int t) /\ (String.length (epc t) <= 24)%nat.

Lemma build_temp_list_total (expected_tags : list Tag) :
  Forall tag_ok expected_tags ->
  exists temp_list,
    build_temp_list expected_tags = Ok temp_list /\
    Forall entry_ok temp_list /\
    (fun x => (SortedTag.hex x, SortedTag.int x)) <$> temp_list
    = (fun t => (epc t, epc_int t)) <$> expected_tags.
Proof.
  induction 1 as [|t rest [Ht Hlen] _ (tl & Htl & Hok & Heq)]; simpl.
  - exists []. repeat split; constructor.
  - destruct (epc_bin_spec _ _ Ht Hlen) as (Hb & H96 & Hbin & Hval).
    rewrite Hb, Htl. cbn [bind]. eexists. split; [reflexivity|]. split.
    + constructor; [|exact Hok]. repeat split; assumption.
    + rewrite fmap_cons, Heq. reflexivity.
Qed.

Lemma StronglySorted_weaken {A : Type} (R R' : A -> A -> Prop) (l : list A) :
  (forall x y, x ∈ l -> y ∈ l -> R x y -> R' x y) ->
  StronglySorted R l -> StronglySorted R' l.
Proof.
  intros HR Hs. induction Hs as [|x l Hs IH Hall]; constructor.
  - apply IH. intros a b Ha Hb. apply HR; right; assumption.
  - apply Forall_forall. intros y Hy. apply HR; [left|right; exact Hy|].
    rewrite Forall_forall in Hall. apply Hall. exact Hy.
Qed.

Lemma initialize_spec (self0 : LODS_MTI_Algorithm) (expected_tags : list Tag) :
  Forall tag_ok expected_tags ->
  exists self,
    LODS_initialize self0 expected_tags = Ok self /\
    Forall entry_ok (sorted_tags_bin self) /\
    StronglySorted (fun a b => SortedTag.int a <= SortedTag.int b)
                   (sorted_tags_bin self) /\
    (fun x => (SortedTag.hex x, SortedTag.int x)) <$> sorted_tags_bin self
    ≡ₚ (fun t => (epc t, epc_int t)) <$> expected_tags.
Proof.
  intros Hok. destruct (build_temp_list_total _ Hok) as (tl & Htl & Hentries & Heq).
  unfold LODS_initialize. rewrite Htl. cbn [bind]. eexists.
  split; [reflexivity|]. cbn [sorted_tags_bin].
  pose proof (sorted_Permutation bin_le tl) as Hperm.
  assert (Forall entry_ok (Py.sorted bin_le tl)) as Hsorted_ok
    by (rewrite Hperm; exact Hentries).
  split; [exact Hsorted_ok|]. split.
  - apply (StronglySorted_weaken (fun a b => bin_le a b = true)).
    + rewrite Forall_forall in Hsorted_ok.
      intros x y Hx Hy Hle.
      destruct (Hsorted_ok x Hx) as (Hx96 & Hxb & Hxv & _).
      destruct (Hsorted_ok y Hy) as (Hy96 & Hyb & Hyv & _).
      rewrite <- Hxv, <- Hyv. apply leb_binary; auto. congruence.
    + apply sorted_StronglySorted; [apply bin_le_total|apply bin_le_trans].
  - rewrite <- Heq. apply fmap_Permutation. exact Hperm.
Qed.

(** X7.  On tags whose EPC has at most 24 hexadecimal digits (with
    [epc_int] the EPC's value, as [Tag.__init__] sets it), [initialize]
    succeeds and leaves the expected tags sorted by ascending EPC value,
    none lost and none added, with the cursor at 0, nothing verified and
    the protocol not finished. *)
Theorem initialize_sorts_by_value (self0 : LODS_MTI_Algorithm)
    (expected_tags : list Tag) :
  Forall (fun t => Py.int16 (epc t) = Ok (epc_int t) /\
                   (String.length (epc t) <= 24)%nat) expected_tags ->
  exists self,
    initialize self0 expected_tags = Ok self /\
    StronglySorted (fun a b => SortedTag.int a <= SortedTag.int b)
                   (sorted_tags_bin self) /\
    (fun x => (SortedTag.hex x, SortedTag.int x)) <$> sorted_tags_bin self
    ≡ₚ (fun t => (epc t, epc_int t)) <$> expected_tags /\
    total_tags self = Z.of_nat (length expected_tags) /\
    cursor self = 0 /\
    is_finished self = false /\
    get_results self = (∅, ∅).
Proof.
  intros Hok.
  destruct (initialize_spec self0 expected_tags Hok) as (self & E & _ & Hs & Hp).
  exists self. split; [exact E|]. split; [exact Hs|]. split; [exact Hp|].
  apply Permutation_length in Hp. rewrite !length_fmap in Hp.
  unfold LODS_initialize in E. inv_bind E. injection E as <-.
  cbn in *. rewrite <- Hp. auto.
Qed.

Lemma initialize_sorts_by_value_witness :
  exists self,
    initialize LODS_default example_tags = Ok self /\
    StronglySorted (fun a b => SortedTag.int a <= SortedTag.int b)
                   (sorted_tags_bin self) /\
    (fun x => (SortedTag.hex x, SortedTag.int x)) <$> sorted_tags_bin self
    ≡ₚ (fun t => (epc t, epc_int t)) <$> example_tags /\
    total_tags self = Z.of_nat (length example_tags) /\
    cursor self = 0 /\
    is_finished self = false /\
    get_results self = (∅, ∅).
Proof.
  apply initialize_sorts_by_value.
  repeat constructor; simpl; lia.
Defined.

(** ** [get_next_command]: every call returns, and a group is never empty *)

(** A protocol instance whose parameters let every group be scheduled: a
    group may hold a tag, the redundancy is positive and fits the reply
    (also when the reply is capped at 128 bits), and in adaptive mode the
    robust redundancy 4 fits too. *)
Record schedulable (self : LODS_MTI_Algorithm) : Prop := {
  sch_total : total_tags self = Z.of_nat (length (sorted_tags_bin self));
  sch_cursor : 0 <= cursor self <= total_tags self;
  sch_group : 1 <= max_group_size self;
  sch_rho : 1 <= current_rho self <= Z.min 128 (max_payload_bit self);
  sch_adaptive : is_adaptive self = true -> 4 <= max_payload_bit self;
  sch_context :
    forall item, item ∈ last_sent_context self ->
                 1 <= Sent.rho item /\ 0 <= Sent.slot item
}.

(** What neither phase of [get_next_command] changes. *)
Definition same_parameters (self self' : LODS_MTI_Algorithm) : Prop :=
  max_group_size self' = max_group_size self /\
  is_adaptive self' = is_adaptive self /\
  target_rho self' = target_rho self /\
  max_payload_bit self' = max_payload_bit self /\
  sorted_tags_bin self' = sorted_tags_bin self /\
  total_tags self' = total_tags self.

Lemma verify_previous_total (self : LODS_MTI_Algorithm) (prev : SlotResult) :
  schedulable self ->
  exists self1 flag,
    verify_previous self prev = Ok (self1, flag) /\
    schedulable self1 /\
    same_parameters self self1 /\
    last_sent_context self1 = [] /\
    cursor self1 = cursor self /\
    is_running self1 = is_running self.
Proof.
  intros [Htot Hcur Hgrp Hrho Had Hctx]. unfold verify_previous.
  destruct (last_sent_context self) as [|first rest] eqn:Hl.
  - exists self, false. split; [reflexivity|].
    split; [constructor; auto; rewrite Hl; exact Hctx|].
    repeat split; auto.
  - assert (forall item, item ∈ first :: rest ->
                         0 <= Sent.rho item /\ 0 <= Sent.slot item) as Hctx'
      by (intros item Hin; destruct (Hctx item Hin); lia).
    destruct (superimpose_total
                (if PacketType_eqb (status prev) IDLE then ∅
                 else list_to_set (tag_ids prev)) (first :: rest) 0 Hctx')
      as [bitmap ->].
    cbn [bind].
    destruct (check_group_total
                (Z.lxor bitmap (channel_noise_mask prev))
                (vote_threshold_of (Sent.rho first)) (first :: rest)
                (mkTally (verified_present self) (verified_missing self) 0 0 false)
                Hctx') as [t Ht].
    rewrite Ht. cbn [bind].
    apply check_group_spec in Ht as (_ & _ & Hc & He & _).
    cbn [total_checks error_cnt] in Hc, He.
    assert (exists rho,
              (if is_adaptive self && (total_checks t >? 0)
               then adapted_rho (error_cnt t) (total_checks t)
               else Ok (current_rho self)) = Ok rho /\
              1 <= rho <= Z.min 128 (max_payload_bit self)) as (rho & -> & Hr).
    { destruct (is_adaptive self) eqn:Hadapt; cbn [andb]; [|eauto].
      specialize (Had eq_refl).
      destruct (Z.gtb_spec (total_checks t) 0) as [Hpos|Hz];
        [|cbn [length] in Hc; lia].
      unfold adapted_rho.
      destruct (truediv_int_fraction (error_cnt t) (total_checks t)) as [f ->];
        [|lia|].
      { rewrite Hc, He.
        pose proof (List.filter_length_le (imperfect (Z.lxor bitmap (channel_noise_mask prev))
            (vote_threshold_of (Sent.rho first))) (first :: rest)).
        lia. }
      cbn [bind]. destruct (PrimFloat.leb f _); eexists; split;
        try reflexivity; lia. }
    cbn [bind]. do 2 eexists. split; [reflexivity|].
    split; [constructor; cbn; auto; intros item Hin; inversion Hin|].
    repeat split; reflexivity.
Qed.

Lemma group_ints_total (tags : list SortedTag.t) (c k : Z) :
  0 <= c -> c + k <= Z.of_nat (length tags) ->
  exists ints, group_ints tags (Py.range c (c + k)) = Ok ints.
Proof.
  intros Hc Hk. unfold Py.range.
  assert (forall (n : nat) c, 0 <= c -> c + Z.of_nat n <= Z.of_nat (length tags) ->
            exists ints, group_ints tags (seqZ c (Z.of_nat n)) = Ok ints) as H.
  { clear. induction n as [|n IH]; intros c Hc Hn; [simpl; eauto|].
    rewrite seqZ_cons by lia. simpl.
    destruct (getitem_in_range tags c) as [x ->]; [lia|].
    replace (Z.pred (Z.of_nat (S n))) with (Z.of_nat n) by lia.
    destruct (IH (Z.succ c)) as [more ->]; [lia|lia|].
    simpl. eauto. }
  destruct (Z.le_gt_cases (c + k - c) 0) as [Hle|Hgt].
  - rewrite seqZ_nil by lia. simpl. eauto.
  - replace (c + k - c) with (Z.of_nat (Z.to_nat k)) by lia. apply H; lia.
Qed.

(** A lone value collides with nothing. *)
Lemma find_perfect_seed_one (val mod_size : Z) :
  mod_size <> 0 -> _find_perfect_seed [val] mod_size = Ok (Some 0).
Proof.
  intros Hm. unfold _find_perfect_seed, Py.range.
  change (seqZ 0 (16 - 0)) with (0 :: seqZ 1 15).
  cbn [seed_scan seed_collides]. unfold Py.mod_.
  destruct (Z.eqb_spec mod_size 0); [contradiction|].
  cbn [bind]. rewrite bool_decide_eq_false_2 by apply not_elem_of_empty.
  reflexivity.
Qed.

Lemma plan_group_total (fuel : nat) (self : LODS_MTI_Algorithm)
    (rho MAX_REPLY_BITS lim : Z) :
  total_tags self = Z.of_nat (length (sorted_tags_bin self)) ->
  0 <= cursor self ->
  1 <= lim <= total_tags self - cursor self ->
  (Z.to_nat lim <= fuel)%nat ->
  rho <> 0 ->
  exists p,
    plan_group fuel self rho MAX_REPLY_BITS lim = Ok p /\
    1 <= final_k p <= lim /\
    final_reply_bits p = Z.max 4 (Z.min (final_k p * rho) MAX_REPLY_BITS) /\
    final_num_slots p = Z.max 1 (final_reply_bits p / rho).
Proof.
  intros Htot Hc. revert lim. induction fuel as [|fuel IH]; intros lim Hlim Hf Hrho;
    [lia|].
  cbn [plan_group]. destruct (Z.gtb_spec lim 0); [|lia].
  destruct (find_dynamic_slice_total self (cursor self) (Some lim) Htot)
    as [[k mask] E]; [lia|].
  rewrite E. cbn [bind fst snd].
  assert (0 <= cursor self < total_tags self) as Hin by lia.
  pose proof (find_dynamic_slice_spec _ _ _ _ _ Htot Hin E) as (Hk & Hle & _).
  unfold slice_limit in Hle.
  unfold Py.floordiv. destruct (Z.eqb_spec rho 0); [contradiction|]. cbn [bind].
  destruct (group_ints_total (sorted_tags_bin self) (cursor self) k) as [ints Hints];
    [lia|lia|].
  rewrite Hints. cbn [bind].
  set (reply := Z.max 4 (Z.min (k * rho) MAX_REPLY_BITS)).
  set (num := Z.max 1 (reply / rho)).
  destruct (find_perfect_seed_total ints num) as [[sd|] Hseed]; [lia| |].
  - rewrite Hseed. cbn [bind]. eexists. split; [reflexivity|]. cbn.
    repeat split; try reflexivity; lia.
  - rewrite Hseed. cbn [bind].
    destruct (Z.eq_dec k 1) as [->|Hk1].
    + exfalso. apply group_ints_range in Hints as [-> _]; [|lia|lia].
      destruct (drop (Z.to_nat (cursor self)) (sorted_tags_bin self)) as [|x l] eqn:Hd.
      * apply (f_equal length) in Hd. rewrite length_drop in Hd. simpl in Hd. lia.
      * change (Z.to_nat 1) with 1%nat in Hseed. cbn [take fmap list_fmap] in Hseed.
        rewrite find_perfect_seed_one in Hseed by lia. discriminate.
    + destruct (IH (k - 1)) as (p & Hp & Hpk & Hrest); [lia|lia|exact Hrho|].
      exists p. split; [exact Hp|]. split; [lia|exact Hrest].
Qed.

(** What phase 3 guarantees about the group it schedules. *)
Record group_scheduled (self self' : LODS_MTI_Algorithm) (cmd : ReaderCommand)
  : Prop := {
  gs_running : is_running self' = is_running self;
  gs_advance : 1 <= cursor self' - cursor self <= max_group_size self;
  gs_cursor : cursor self' <= total_tags self;
  gs_epcs :
    Sent.epc <$> last_sent_context self'
    = SortedTag.hex
        <$> take (Z.to_nat (cursor self' - cursor self))
                 (drop (Z.to_nat (cursor self)) (sorted_tags_bin self));
  gs_rho :
    forall item, item ∈ last_sent_context self' ->
                 Sent.rho item = current_rho self;
  gs_slots : NoDup (Sent.slot <$> last_sent_context self');
  gs_fit :
    forall item, item ∈ last_sent_context self' ->
      0 <= Sent.slot item /\
      (Sent.slot item + 1) * Sent.rho item <= expected_reply_bits cmd;
  gs_reply :
    expected_reply_bits cmd
    = Z.max 4 ((cursor self' - cursor self) * current_rho self);
  gs_reply_max : expected_reply_bits cmd <= Z.max 4 (max_payload_bit self);
  gs_mask :
    exists first last,
      sorted_tags_bin self !! Z.to_nat (cursor self) = Some first /\
      sorted_tags_bin self !! Z.to_nat (cursor self' - 1) = Some last /\
      let mask := _get_lcp (SortedTag.bin first) (SortedTag.bin last) in
      let base_len := Z.of_nat (String.length mask) + 4 + 4 in
      response_protocol cmd = protocol_logic mask /\
      payload_bits cmd = base_len + (if base_len <? 32 then 5 else 16);
  gs_single : concatenated_tags_count cmd = 1
}.

Lemma schedule_next_total (self : LODS_MTI_Algorithm) (flag : bool) :
  schedulable self ->
  last_sent_context self = [] ->
  exists self' cmd,
    schedule_next self flag = Ok (self', cmd) /\
    schedulable self' /\
    same_parameters self self' /\
    current_rho self' = current_rho self /\
    verified_present self' = verified_present self /\
    verified_missing self' = verified_missing self /\
    if cursor self >=? total_tags self
    then is_running self' = false /\ cursor self' = cursor self /\
         last_sent_context self' = [] /\
         cmd = ReaderCommand_default (-1) 0
    else group_scheduled self self' cmd.
Proof.
  intros [Htot Hcur Hgrp Hrho Had Hctx] Hnil. unfold schedule_next.
  destruct (Z.geb_spec (cursor self) (total_tags self)) as [Hend|Hmore].
  - do 2 eexists. split; [reflexivity|]. cbn.
    split; [constructor; cbn; auto|].
    unfold same_parameters. cbn. repeat split; auto.
  - set (rho := current_rho self) in *.
    set (MAX := if (rho >=? 4) && flag then Z.min 128 (max_payload_bit self)
                else max_payload_bit self).
    assert (rho <= MAX <= max_payload_bit self) as HMAX
      by (unfold MAX; destruct ((rho >=? 4) && flag); lia).
    unfold Py.floordiv. destruct (Z.eqb_spec rho 0); [lia|]. cbn [bind].
    assert (1 <= MAX / rho) as Hphys
      by (apply Z.div_le_lower_bound; lia).
    set (lim := Z.min (Z.min (max_group_size self) (MAX / rho))
                      (total_tags self - cursor self)).
    assert (1 <= lim <= total_tags self - cursor self) as Hlim by lia.
    destruct (plan_group_total (Z.to_nat lim) self rho MAX lim Htot)
      as (p & Hp & Hk & Hreply & Hnum); [lia|exact Hlim|lia|lia|].
    rewrite Hp. cbn [bind].
    destruct (plan_group_spec _ _ _ _ _ _ Htot (proj1 Hcur) (proj2 Hlim) Hp)
      as [->|[[_ _ Hslots Hdistinct Hmask] _]]; [cbn in Hk; lia|].
    rewrite build_context_total by lia. cbn [bind].
    rewrite slice_nonneg by lia.
    replace (cursor self + final_k p - cursor self) with (final_k p) by lia.
    assert (final_k p * rho <= MAX) as Hfits.
    { assert (final_k p <= MAX / rho) by lia.
      pose proof (Z.mul_div_le MAX rho). nia. }
    assert (final_reply_bits p = Z.max 4 (final_k p * rho)) as Hreply'
      by (rewrite Hreply; lia).
    assert (1 <= final_reply_bits p / rho) as Hq
      by (apply Z.div_le_lower_bound; nia).
    assert (final_num_slots p * rho <= final_reply_bits p) as Hroom.
    { rewrite Hnum, Z.max_r by lia.
      pose proof (Z.mul_div_le (final_reply_bits p) rho). lia. }
    do 2 eexists. split; [reflexivity|]. cbn.
    split; [constructor; cbn; auto; try lia|].
    { intros item Hin. apply list_elem_of_fmap in Hin as (x & -> & _). cbn.
      unfold sub_slot.
      pose proof (Z.mod_pos_bound (Z.lxor (SortedTag.int x) (final_seed p))
                    (final_num_slots p)). lia. }
    split; [unfold same_parameters; cbn; repeat split; reflexivity|].
    do 3 (split; [reflexivity|]).
    constructor; cbn; try reflexivity; try lia.
    + replace (cursor self + final_k p - cursor self) with (final_k p) by lia.
      rewrite <- list_fmap_compose. reflexivity.
    + intros item Hin. apply list_elem_of_fmap in Hin as (x & -> & _). reflexivity.
    + rewrite <- list_fmap_compose. unfold group_of in Hdistinct.
      rewrite <- list_fmap_compose in Hdistinct. exact Hdistinct.
    + intros item Hin. apply list_elem_of_fmap in Hin as (x & -> & _). cbn.
      unfold sub_slot.
      pose proof (Z.mod_pos_bound (Z.lxor (SortedTag.int x) (final_seed p))
                    (final_num_slots p)). nia.
    + destruct Hmask as (first & last & Hf & Hl & Hm).
      exists first, last. split; [exact Hf|]. split; [exact Hl|].
      rewrite <- Hm. split; reflexivity.
Qed.

(** Both phases together. *)
Lemma get_next_command_total (self : LODS_MTI_Algorithm) (prev : SlotResult) :
  schedulable self ->
  exists self' cmd,
    LODS_get_next_command self prev = Ok (self', cmd) /\
    schedulable self' /\
    same_parameters self self' /\
    if cursor self >=? total_tags self
    then is_running self' = false /\ cursor self' = cursor self /\
         last_sent_context self' = [] /\
         cmd = ReaderCommand_default (-1) 0
    else
      is_running self' = is_running self /\
      1 <= cursor self' - cursor self <= max_group_size self /\
      cursor self' <= total_tags self /\
      13 <= payload_bits cmd /\
      4 <= expected_reply_bits cmd
      <= Z.max 4 (128 * (cursor self' - cursor self)) /\
      concatenated_tags_count cmd = 1 /\
      exists first mask,
        sorted_tags_bin self !! Z.to_nat (cursor self) = Some first /\
        String.prefix mask (SortedTag.bin first) = true /\
        response_protocol cmd = protocol_logic mask /\
        payload_bits cmd <= Z.of_nat (String.length mask) + 24.
Proof.
  intros Hs. unfold LODS_get_next_command.
  destruct (verify_previous_total self prev Hs)
    as (self1 & flag & -> & Hs1 & Hsame1 & Hnil & Hcur1 & Hrun1).
  cbn [bind fst snd].
  destruct (schedule_next_total self1 flag Hs1 Hnil)
    as (self' & cmd & -> & Hs' & Hsame' & _ & _ & _ & Hcase).
  exists self', cmd. split; [reflexivity|]. split; [exact Hs'|].
  destruct Hsame1 as (H1 & H2 & H3 & H4 & H5 & H6).
  destruct Hsame' as (H1' & H2' & H3' & H4' & H5' & H6').
  split; [repeat split; congruence|].
  rewrite Hcur1, H6 in Hcase.
  destruct (cursor self >=? total_tags self).
  - destruct Hcase as (? & ? & ? & ?). repeat split; auto; congruence.
  - destruct Hcase as [Hr Hadv Hc _ _ _ _ Hreply _ Hmask Hsingle].
    destruct Hs1 as [_ _ _ Hrho _ _].
    rewrite Hcur1 in *. rewrite H1, H6 in *.
    split; [congruence|]. split; [exact Hadv|]. split; [exact Hc|].
    destruct Hmask as (first & last & Hfirst & _ & Hproto & Hpay).
    split; [rewrite Hpay; destruct (_ <? 32); lia|].
    split; [rewrite Hreply; nia|]. split; [exact Hsingle|].
    rewrite H5 in Hfirst. exists first. eexists.
    split; [exact Hfirst|]. split; [apply prefix_lcp_l|].
    split; [exact Hproto|]. rewrite Hpay. destruct (_ <? 32); lia.
Qed.

(** The constructor arguments with which [initialize] leaves a
    schedulable instance. *)
Definition parameters_ok (self0 : LODS_MTI_Algorithm) : Prop :=
  1 <= max_group_size self0 /\
  (if is_adaptive self0 then 4 <= max_payload_bit self0
   else 1 <= target_rho self0 <= Z.min 128 (max_payload_bit self0)).

Lemma initialize_schedulable (self0 self : LODS_MTI_Algorithm)
    (expected_tags : list Tag) :
  parameters_ok self0 ->
  LODS_initialize self0 expected_tags = Ok self ->
  schedulable self /\ cursor self = 0 /\ is_running self = true /\
  total_tags self = Z.of_nat (length expected_tags).
Proof.
  intros [Hg Hp] E. unfold LODS_initialize in E. inv_bind E. rename a into tl.
  injection E as <-. cbn.
  assert (length (Py.sorted bin_le tl) = length expected_tags) as Hlen.
  { rewrite sorted_length. apply build_temp_list_hex in E0.
    apply (f_equal length) in E0. rewrite !length_fmap in E0. exact E0. }
  split; [|rewrite Hlen; auto].
  constructor; cbn; auto; try lia.
  - destruct (is_adaptive self0); lia.
  - intros Ha. rewrite Ha in Hp. exact Hp.
  - intros item Hin. inversion Hin.
Qed.

(** X8.  On a schedulable instance [get_next_command] always returns.
    With no tag left it marks the protocol finished and returns the stop
    command (payload -1, no reply, nothing pending); with tags left it
    moves the cursor forward by at least one tag and at most
    [max_group_size], never past the last tag, and the command has a
    payload of at least 13 bits and a reply of at least 4 bits. *)
Theorem get_next_command_progress (self : LODS_MTI_Algorithm)
    (prev : SlotResult) :
  schedulable self ->
  exists self' cmd,
    get_next_command self prev = Ok (self', cmd) /\
    schedulable self' /\
    if cursor self >=? total_tags self
    then is_finished self' = true /\ cursor self' = cursor self /\
         last_sent_context self' = [] /\
         payload_bits cmd = -1 /\ expected_reply_bits cmd = 0
    else
      is_finished self' = is_finished self /\
      1 <= cursor self' - cursor self <= max_group_size self /\
      cursor self' <= total_tags self /\
      13 <= payload_bits cmd /\ 4 <= expected_reply_bits cmd.
Proof.
  intros Hs.
  destruct (get_next_command_total self prev Hs) as (self' & cmd & E & Hs' & _ & H).
  exists self', cmd. split; [exact E|]. split; [exact Hs'|].
  cbn [is_finished LODS_interface]. unfold LODS_is_finished.
  destruct (cursor self >=? total_tags self).
  - destruct H as (-> & ? & ? & ->). auto.
  - destruct H as (-> & ? & ? & ? & ? & _). repeat split; auto; lia.
Qed.

Lemma example_algorithm_schedulable : schedulable example_algorithm.
Proof.
  apply (initialize_schedulable LODS_default example_algorithm example_tags).
  - split; cbn; lia.
  - reflexivity.
Qed.

Lemma get_next_command_progress_witness :
  exists self' cmd,
    get_next_command example_algorithm example_prev = Ok (self', cmd) /\
    schedulable self' /\
    is_finished self' = is_finished example_algorithm /\
    1 <= cursor self' - cursor example_algorithm
      <= max_group_size example_algorithm /\
    cursor self' <= total_tags example_algorithm /\
    13 <= payload_bits cmd /\ 4 <= expected_reply_bits cmd.
Proof.
  exact (get_next_command_progress example_algorithm example_prev
           example_algorithm_schedulable).
Defined.

(** X9.  The layout of a scheduled group.  When tags are left, the
    pending context of the command holds exactly the tags between the old
    and the new cursor, in sorted order, all at the redundancy in force;
    no two tags share a sub-slot; every tag's sub-field lies inside the
    declared reply; and the reply is [max(4, k * rho)] bits for the [k]
    tags of the group, never more than [max(4, max_payload_bit)]. *)
Theorem scheduled_group_layout (self self' : LODS_MTI_Algorithm)
    (prev : SlotResult) (cmd : ReaderCommand) :
  schedulable self ->
  cursor self < total_tags self ->
  get_next_command self prev = Ok (self', cmd) ->
  Sent.epc <$> last_sent_context self'
  = SortedTag.hex
      <$> take (Z.to_nat (cursor self' - cursor self))
               (drop (Z.to_nat (cursor self)) (sorted_tags_bin self)) /\
  (forall item, item ∈ last_sent_context self' ->
     Sent.rho item = current_rho self' /\
     0 <= Sent.slot item /\
     (Sent.slot item + 1) * Sent.rho item <= expected_reply_bits cmd) /\
  NoDup (Sent.slot <$> last_sent_context self') /\
  expected_reply_bits cmd
  = Z.max 4 (Z.of_nat (length (last_sent_context self')) * current_rho self') /\
  expected_reply_bits cmd <= Z.max 4 (max_payload_bit self).
Proof.
  intros Hs Hmore E. cbn [get_next_command LODS_interface] in E.
  unfold LODS_get_next_command in E.
  destruct (verify_previous_total self prev Hs)
    as (self1 & flag & E1 & Hs1 & Hsame1 & Hnil & Hcur1 & _).
  rewrite E1 in E. cbn [bind fst snd] in E.
  destruct (schedule_next_total self1 flag Hs1 Hnil)
    as (s & c & E2 & _ & _ & Hrho & _ & _ & Hcase).
  rewrite E2 in E. injection E as -> ->.
  destruct Hsame1 as (_ & _ & _ & Hmp & Htags & Htot).
  rewrite Hcur1, Htot in Hcase.
  destruct (Z.geb_spec (cursor self) (total_tags self)); [lia|].
  destruct Hcase as [_ Hadv Hc Hepcs Hr Hslots Hfit Hreply Hmax _ _].
  rewrite Hcur1, ?Htags, ?Htot, ?Hmp in *.
  split; [exact Hepcs|]. split; [|split; [exact Hslots|split; [|exact Hmax]]].
  - intros item Hin. destruct (Hfit item Hin) as [Hfit0 Hfit1].
    rewrite Hrho. split; [exact (Hr item Hin)|]. split; [exact Hfit0|exact Hfit1].
  - rewrite Hreply, Hrho. f_equal. f_equal.
    apply (f_equal length) in Hepcs.
    rewrite !length_fmap, length_take, length_drop in Hepcs.
    destruct Hs as [Hlen Hcursor _ _ _ _]. lia.
Qed.

(** The first group of the default protocol over [example_tags]. *)
Definition example_group : LODS_MTI_Algorithm * ReaderCommand :=
  match get_next_command example_algorithm example_prev with
  | Ok r => r
  | _ => (example_algorithm, ReaderCommand_default 0 0)
  end.

Lemma scheduled_group_layout_witness :
  Sent.epc <$> last_sent_context (fst example_group)
  = SortedTag.hex
      <$> take (Z.to_nat (cursor (fst example_group) - cursor example_algorithm))
               (drop (Z.to_nat (cursor example_algorithm))
                     (sorted_tags_bin example_algorithm)) /\
  (forall item, item ∈ last_sent_context (fst example_group) ->
     Sent.rho item = current_rho (fst example_group) /\
     0 <= Sent.slot item /\
     (Sent.slot item + 1) * Sent.rho item
     <= expected_reply_bits (snd example_group)) /\
  NoDup (Sent.slot <$> last_sent_context (fst example_group)) /\
  expected_reply_bits (snd example_group)
  = Z.max 4 (Z.of_nat (length (last_sent_context (fst example_group)))
             * current_rho (fst example_group)) /\
  expected_reply_bits (snd example_group)
  <= Z.max 4 (max_payload_bit example_algorithm).
Proof.
  apply (scheduled_group_layout example_algorithm (fst example_group)
           example_prev (snd example_group) example_algorithm_schedulable);
    vm_compute; reflexivity.
Defined.

Lemma verify_previous_frame (self self1 : LODS_MTI_Algorithm)
    (prev : SlotResult) (flag : bool) :
  verify_previous self prev = Ok (self1, flag) ->
  is_running self1 = is_running self /\ cursor self1 = cursor self /\
  total_tags self1 = total_tags self /\ last_sent_context self1 = [] /\
  verified_present self1 ∪ verified_missing self1
  = verified_present self ∪ verified_missing self
    ∪ epcs_of (last_sent_context self) /\
  verified_present self ⊆ verified_present self1 /\
  verified_missing self ⊆ verified_missing self1.
Proof.
  intros E. destruct (last_sent_context self) as [|first rest] eqn:Hl.
  - unfold verify_previous in E. rewrite Hl in E. injection E as <- _.
    rewrite Hl. repeat split; try reflexivity.
    unfold epcs_of. rewrite fmap_nil, list_to_set_nil, (right_id_L ∅ (∪)).
    reflexivity.
  - pose proof (verify_previous_spec _ _ _ _ _ _ Hl E) as (bitmap & _ & Hp & Hm & _).
    cbv zeta in Hp, Hm.
    unfold verify_previous in E. rewrite Hl in E.
    inv_bind E. inv_bind E. inv_bind E. injection E as <- _.
    cbn [is_running cursor total_tags last_sent_context] in *.
    do 4 (split; [reflexivity|]).
    rewrite Hp, Hm. split; [|split; apply union_subseteq_l].
    rewrite <- (epcs_of_filter_union
                  (voted_present (Z.lxor bitmap (channel_noise_mask prev))
                                 (vote_threshold_of (Sent.rho first)))
                  (first :: rest)).
    apply set_eq. intros x. rewrite !elem_of_union. tauto.
Qed.

Lemma schedule_next_frame (self self' : LODS_MTI_Algorithm) (flag : bool)
    (cmd : ReaderCommand) :
  schedule_next self flag = Ok (self', cmd) ->
  verified_present self' = verified_present self /\
  verified_missing self' = verified_missing self /\
  total_tags self' = total_tags self /\
  if cursor self >=? total_tags self
  then is_running self' = false /\ cursor self' = cursor self /\
       last_sent_context self' = last_sent_context self /\
       cmd = ReaderCommand_default (-1) 0
  else is_running self' = is_running self.
Proof.
  unfold schedule_next. destruct (cursor self >=? total_tags self).
  - intros [= <- <-]. cbn. repeat split; reflexivity.
  - intros E. inv_bind E. inv_bind E. inv_bind E. injection E as <- <-. cbn.
    repeat split; reflexivity.
Qed.

(** X10.  Once [get_next_command] has marked a running protocol as
    finished, the command it returned is the stop command, and every
    further call returns the stop command again and changes nothing. *)
Theorem finished_is_absorbing (self self' : LODS_MTI_Algorithm)
    (prev : SlotResult) (cmd : ReaderCommand) :
  is_finished self = false ->
  get_next_command self prev = Ok (self', cmd) ->
  is_finished self' = true ->
  payload_bits cmd = -1 /\ expected_reply_bits cmd = 0 /\
  forall prev',
    get_next_command self' prev' = Ok (self', ReaderCommand_default (-1) 0).
Proof.
  cbn [is_finished get_next_command LODS_interface]. unfold LODS_is_finished.
  intros Hrun E Hfin. apply negb_false_iff in Hrun. apply negb_true_iff in Hfin.
  unfold LODS_get_next_command in E. inv_bind E. destruct a as [self1 flag].
  cbn [fst snd] in E.
  apply verify_previous_frame in E0 as (Hr1 & _ & _ & Hnil & _).
  pose proof (schedule_next_frame _ _ _ _ E) as (_ & _ & Htot & Hcase).
  destruct (cursor self1 >=? total_tags self1) eqn:Hend; [|congruence].
  destruct Hcase as (_ & Hcur & Hctx & ->).
  split; [reflexivity|]. split; [reflexivity|]. intros prev'.
  unfold LODS_get_next_command, verify_previous.
  rewrite Hctx, Hnil. cbn [bind fst snd].
  unfold schedule_next. rewrite Hcur, Htot, Hend.
  unfold schedule_next in E. rewrite Hend in E. injection E as <-.
  reflexivity.
Qed.

(** X11.  Verdicts are final: a call of [get_next_command] removes no
    identifier from either result set, and the identifiers it adds are
    exactly those of the pending group, each to one set or the other. *)
Theorem verdicts_are_final (self self' : LODS_MTI_Algorithm)
    (prev : SlotResult) (cmd : ReaderCommand) :
  get_next_command self prev = Ok (self', cmd) ->
  (get_results self).1 ⊆ (get_results self').1 /\
  (get_results self).2 ⊆ (get_results self').2 /\
  (get_results self').1 ∪ (get_results self').2
  = (get_results self).1 ∪ (get_results self).2
    ∪ list_to_set (Sent.epc <$> last_sent_context self).
Proof.
  cbn [get_results get_next_command LODS_interface]. unfold LODS_get_results.
  cbn [fst snd]. intros E.
  unfold LODS_get_next_command in E. inv_bind E. destruct a as [self1 flag].
  cbn [fst snd] in E.
  apply verify_previous_frame in E0 as (_ & _ & _ & _ & Hu & Hp & Hm).
  apply schedule_next_frame in E as (-> & -> & _).
  auto.
Qed.

Lemma verdicts_are_final_witness :
  (get_results example_pending).1 ⊆ (get_results (fst example_next)).1 /\
  (get_results example_pending).2 ⊆ (get_results (fst example_next)).2 /\
  (get_results (fst example_next)).1 ∪ (get_results (fst example_next)).2
  = (get_results example_pending).1 ∪ (get_results example_pending).2
    ∪ list_to_set (Sent.epc <$> last_sent_context example_pending).
Proof.
  apply (verdicts_are_final example_pending (fst example_next) example_prev
           (snd example_next)).
  vm_compute. reflexivity.
Defined.

Definition empty_algorithm : LODS_MTI_Algorithm :=
  match initialize LODS_default [] with
  | Ok alg => alg
  | _ => LODS_default
  end.

Definition empty_stop : LODS_MTI_Algorithm * ReaderCommand :=
  match get_next_command empty_algorithm (mkSlotResult IDLE [] None 0 None) with
  | Ok r => r
  | _ => (empty_algorithm, ReaderCommand_default 0 0)
  end.

Lemma finished_is_absorbing_witness :
  payload_bits (snd empty_stop) = -1 /\
  expected_reply_bits (snd empty_stop) = 0 /\
  forall prev',
    get_next_command (fst empty_stop) prev'
    = Ok (fst empty_stop, ReaderCommand_default (-1) 0).
Proof.
  apply (finished_is_absorbing empty_algorithm (fst empty_stop)
           (mkSlotResult IDLE [] None 0 None) (snd empty_stop));
    vm_compute; reflexivity.
Defined.

(* ------------------------------------------------------------------------- *)
(** * Further properties of the kernel *)

(** ** The slot counters *)

(** Every slot is counted once, as a success, a collision or idle. *)
Definition balanced (led : Ledger) : Prop :=
  total_slots led = success_slots led + collision_slots led + idle_slots led /\
  0 <= success_slots led /\ 0 <= collision_slots led /\ 0 <= idle_slots led.

Lemma downlink_ledger (config : SimulationConfig) (cnt : Z)
    (cmd : ReaderCommand) (led led' : Ledger) :
  downlink config cnt cmd led = Ok led' ->
  total_slots led' = total_slots led /\
  success_slots led' = success_slots led /\
  collision_slots led' = collision_slots led /\
  idle_slots led' = idle_slots led /\
  (ENABLE_ENERGY_TRACKING config = false ->
   total_tag_energy_j led' = total_tag_energy_j led).
Proof.
  unfold downlink. intros E. inv_bind E. inv_bind E. injection E as <-. cbn.
  repeat split; try reflexivity. intros Hoff. rewrite Hoff in E1.
  injection E1 as <-. reflexivity.
Qed.

Lemma uplink_ledger (config : SimulationConfig) (cnt : Z)
    (cmd : ReaderCommand) (st : PacketType) (num : Z) (led led' : Ledger) :
  uplink config cnt cmd st num led = Ok led' ->
  total_slots led' = total_slots led /\
  success_slots led' = success_slots led /\
  collision_slots led' = collision_slots led /\
  idle_slots led' = idle_slots led /\
  (ENABLE_ENERGY_TRACKING config = false ->
   total_tag_energy_j led' = total_tag_energy_j led).
Proof.
  unfold uplink. intros E. inv_bind E. inv_bind E. injection E as <-. cbn.
  repeat split; try reflexivity. intros Hoff. rewrite Hoff in E1.
  injection E1 as <-. reflexivity.
Qed.

Lemma classify_slot_ledger (config : SimulationConfig)
    (rssi_map : gmap string float) (resp : list string) (led led' : Ledger)
    (st : PacketType) (rd : option (list string)) :
  classify_slot config rssi_map resp led = Ok (st, rd, led') ->
  (balanced led -> balanced led') /\
  total_tag_energy_j led' = total_tag_energy_j led /\
  match st with
  | IDLE => resp = [] /\ rd = None
  | SUCCESS => (exists e, rd = Some [e] /\ e ∈ resp)
  | COLLISION => (2 <= length resp)%nat /\ rd = None
  | _ => False
  end.
Proof.
  unfold classify_slot, balanced. intros E.
  destruct resp as [|e1 [|e2 resp]].
  - simpl in E. injection E as <- <- <-. cbn. repeat split; auto; lia.
  - simpl in E. injection E as <- <- <-. cbn.
    repeat split; try lia; auto. exists e1. split; [reflexivity|left].
  - destruct (_ =? 0) eqn:H0; [apply Z.eqb_eq in H0; simpl in H0; lia|].
    destruct (_ =? 1) eqn:H1; [apply Z.eqb_eq in H1; simpl in H1; lia|].
    inv_bind E. rename a into winner.
    assert (forall w, winner = Some w -> w ∈ e1 :: e2 :: resp) as Hw.
    { intros w ->. unfold capture_winner in E0.
      destruct (ENABLE_CAPTURE_EFFECT config); [|discriminate].
      inv_bind E0. rename a into l.
      assert (forall x, x ∈ strongest_first l -> fst x ∈ e1 :: e2 :: resp) as Hin.
      { intros x Hx. unfold strongest_first in Hx.
        assert (x ∈ l) as Hxl.
        { clear -Hx. revert Hx. generalize (fun x y : string * float => PrimFloat.leb (snd y) (snd x)).
          intros le. induction l as [|y l IH]; simpl; [auto|].
          intros Hx. assert (forall z k, x ∈ Py.insert_sorted le z k -> x = z \/ x ∈ k) as Hins.
          { clear. intros z k. induction k as [|a k IH]; simpl.
            - intros H%list_elem_of_singleton. auto.
            - destruct (le z a).
              + intros H. apply elem_of_cons in H as [->|H]; auto.
              + intros H. apply elem_of_cons in H as [->|H]; [right; left|].
                destruct (IH H) as [->|Hk]; [auto|right; right; exact Hk]. }
          destruct (Hins _ _ Hx) as [->|Hk]; [left|right; auto]. }
        clear -Hxl E1. revert l E1 Hxl. generalize (e1 :: e2 :: resp). intros es.
        induction es as [|e es IH]; intros l E Hxl; simpl in E.
        - injection E as <-. inversion Hxl.
        - destruct (rssi_map !! e); [|discriminate]. inv_bind E. injection E as <-.
          apply elem_of_cons in Hxl as [->|Hxl]; [left|right; eauto]. }
      destruct (strongest_first l) as [|s0 [|s1 rest]] eqn:Hs; try discriminate.
      destruct (PrimFloat.leb _ _); [|discriminate]. injection E0 as <-.
      apply Hin. left. }
    destruct winner as [w|]; [destruct (truthy (Some w))|];
      injection E as <- <- <-; cbn [length]; cbn;
      repeat split; try lia; eauto.
Qed.

(** The state a pass through the body leaves. *)
Definition after {S : Type} (f : Flow S) : Kernel S :=
  match f with Continue ks | Break ks => ks end.

Section Accounting.
Context {S : Type} `{AlgorithmInterface S}.
Variable config : SimulationConfig.
Variable R : Random.
Variable true_tags : list Tag.

Lemma body_ledger (ks : Kernel S) (f : Flow S) :
  loop_body config R true_tags ks = Ok f ->
  (balanced (ledger ks) -> balanced (ledger (after f))) /\
  (ENABLE_ENERGY_TRACKING config = false ->
   total_tag_energy_j (ledger (after f)) = total_tag_energy_j (ledger ks)) /\
  match f with
  | Break ks' => ledger ks' = ledger ks
  | Continue _ => True
  end.
Proof.
  unfold loop_body. intros E.
  destruct (_ >? _); [injection E as <-; cbn; auto|].
  inv_bind E. destruct (_ <? 0); [injection E as <-; cbn; auto|].
  inv_bind E. inv_bind E. inv_bind E. destruct a2 as [[st rd] led].
  cbn [fst snd] in E. inv_bind E. inv_bind E. injection E as <-.
  cbn [after ledger].
  apply downlink_ledger in E1 as (Ht1 & Hs1 & Hc1 & Hi1 & He1).
  apply classify_slot_ledger in E3 as (Hb & He2 & _).
  apply uplink_ledger in E5 as (Ht3 & Hs3 & Hc3 & Hi3 & He3).
  split; [|split; [|exact I]].
  - intros Hbal. unfold balanced in *. rewrite Ht3, Hs3, Hc3, Hi3.
    apply Hb. rewrite Ht1, Hs1, Hc1, Hi1. exact Hbal.
  - intros Hoff. rewrite (He3 Hoff), He2, (He1 Hoff). reflexivity.
Qed.

Lemma reaches_ledger (alg : S) (n : nat) (ks : Kernel S) :
  reaches config R true_tags (Kernel_init alg) n ks ->
  balanced (ledger ks) /\
  (ENABLE_ENERGY_TRACKING config = false ->
   total_tag_energy_j (ledger ks) = 0%float).
Proof.
  induction 1 as [|n ks ks' _ [IHb IHe] _ E].
  - cbn. unfold balanced. cbn. repeat split; auto; lia.
  - apply body_ledger in E as (Hb & He & _). cbn [after] in *.
    split; [auto|]. intros Hoff. rewrite (He Hoff). auto.
Qed.

Lemma run_ledger (alg alg' : S) (st : Statistics) (out : list string) :
  run_high_fidelity_simulation config R true_tags alg = Ok (st, alg', out) ->
  exists led,
    statistics led = Ok st /\ balanced led /\
    total_slots led <= CONSTANTS.MAX_SLOTS_LIMIT + 1 /\
    (ENABLE_ENERGY_TRACKING config = false ->
     total_tag_energy_j led = 0%float).
Proof.
  intros E. apply run_Ok in E as (ks' & E & _ & _ & Hst).
  apply kernel_loop_Ok in E as (n & ks1 & Hr & Hx).
  destruct (reaches_ledger _ _ _ Hr) as [Hb He].
  destruct (reaches_counters _ _ _ _ _ _ Hr) as (_ & Hmax & _).
  exists (ledger ks'). split; [exact Hst|].
  destruct Hx as [[_ ->]|[_ Hbreak]]; [auto|].
  apply body_ledger in Hbreak as (_ & _ & ->). auto.
Qed.

(** X12.  The statistics a run returns are consistent: every slot is
    counted exactly once as a success, a collision or an idle slot, at
    most [MAX_SLOTS_LIMIT + 1] slots are run, the efficiency of a run
    without slots is 0.0, and with energy tracking off the tag energy
    stays 0.0. *)
Theorem statistics_are_consistent (alg alg' : S) (st : Statistics)
    (out : list string) :
  run_high_fidelity_simulation config R true_tags alg = Ok (st, alg', out) ->
  stat_total_slots st
  = stat_success_slots st + stat_collision_slots st + stat_idle_slots st /\
  0 <= stat_success_slots st /\ 0 <= stat_collision_slots st /\
  0 <= stat_idle_slots st /\
  stat_total_slots st <= CONSTANTS.MAX_SLOTS_LIMIT + 1 /\
  (stat_total_slots st = 0 -> stat_phy_efficiency st = 0%float) /\
  (ENABLE_ENERGY_TRACKING config = false ->
   stat_total_tag_energy_j st = 0%float).
Proof.
  intros E. apply run_ledger in E as (led & Hst & (Hb & H1 & H2 & H3) & Hmax & He).
  unfold statistics in Hst. inv_bind Hst. rename E into Heff.
  injection Hst as <-. cbn.
  repeat split; auto.
  intros Hz. rewrite Hz in Heff. injection Heff as <-. reflexivity.
Qed.

(** X13.  Whatever the channel does to a slot, the [tag_ids] of the result
    handed to the protocol are the ground truth: exactly the identifiers
    of the tags of the population that are present and that the command's
    predicate accepts; an absent tag is never among them. *)
Theorem result_lists_true_responders (ks ks' : Kernel S) :
  loop_body config R true_tags ks = Ok (Continue ks') ->
  exists cmd,
    get_next_command (algorithm ks) (prev_result ks) = Ok (algorithm ks', cmd) /\
    forall e,
      e ∈ tag_ids (prev_result ks') <->
      exists t, t ∈ true_tags /\ is_present t = true /\ epc t = e /\
                response_protocol cmd t = Ok true.
Proof.
  unfold loop_body. intros E.
  destruct (_ >? _); [discriminate|].
  inv_bind E. destruct a as [alg' cmd]. cbn [fst snd] in E.
  destruct (_ <? 0); [discriminate|].
  inv_bind E. inv_bind E. rename a0 into resp. inv_bind E.
  inv_bind E. inv_bind E. injection E as <-.
  cbn [algorithm prev_result tag_ids].
  exists cmd. split; [exact E0|]. intros e.
  rewrite (responders_spec _ _ _ E2 e).
  split; intros (t & Ht & He & Hp); exists t.
  - apply elem_of_present_tags in Ht as [Ht Hpres]. auto.
  - split; [apply elem_of_present_tags; tauto|tauto].
Qed.

End Accounting.

(** The run of the default protocol over [example_tags] on a clean
    channel. *)
Definition example_statistics : Statistics :=
  match run_high_fidelity_simulation SimulationConfig_default example_random
          example_tags example_algorithm with
  | Ok (st, _, _) => st
  | _ => mkStatistics 0 0 0 0 0 0 0 0
  end.

Lemma statistics_are_consistent_witness :
  stat_total_slots example_statistics
  = stat_success_slots example_statistics
    + stat_collision_slots example_statistics
    + stat_idle_slots example_statistics /\
  0 <= stat_success_slots example_statistics /\
  0 <= stat_collision_slots example_statistics /\
  0 <= stat_idle_slots example_statistics /\
  stat_total_slots example_statistics <= CONSTANTS.MAX_SLOTS_LIMIT + 1 /\
  (stat_total_slots example_statistics = 0 ->
   stat_phy_efficiency example_statistics = 0%float) /\
  (ENABLE_ENERGY_TRACKING SimulationConfig_default = false ->
   stat_total_tag_energy_j example_statistics = 0%float).
Proof.
  eapply (statistics_are_consistent SimulationConfig_default example_random
            example_tags example_algorithm).
  vm_compute. reflexivity.
Defined.

(** The state after the first slot of that run. *)
Definition first_slot : Kernel LODS_MTI_Algorithm :=
  match loop_body SimulationConfig_default example_random example_tags
          (Kernel_init example_algorithm) with
  | Ok f => after f
  | _ => Kernel_init example_algorithm
  end.

Lemma result_lists_true_responders_witness :
  exists cmd,
    get_next_command example_algorithm (mkSlotResult IDLE [] None 0 None)
    = Ok (algorithm first_slot, cmd) /\
    forall e,
      e ∈ tag_ids (prev_result first_slot) <->
      exists t, t ∈ example_tags /\ is_present t = true /\ epc t = e /\
                response_protocol cmd t = Ok true.
Proof.
  apply (result_lists_true_responders SimulationConfig_default example_random
           example_tags (Kernel_init example_algorithm) first_slot).
  vm_compute. reflexivity.
Defined.

(** ** The impairments *)

Lemma lor_below (a b k : Z) :
  0 <= k -> 0 <= a < 2 ^ k -> 0 <= b < 2 ^ k -> 0 <= Z.lor a b < 2 ^ k.
Proof.
  intros Hk Ha Hb. split; [apply Z.lor_nonneg; lia|].
  destruct (Z.eq_dec (Z.lor a b) 0) as [->|Hne]; [lia|].
  assert (0 < Z.lor a b) as Hpos.
  { assert (0 <= Z.lor a b) by (apply Z.lor_nonneg; lia). lia. }
  apply Z.log2_lt_pow2; [exact Hpos|].
  rewrite Z.log2_lor by lia.
  assert (forall x, 0 <= x < 2 ^ k -> Z.log2 x < k \/ x = 0) as Hlog.
  { intros x Hx. destruct (Z.eq_dec x 0); [auto|left].
    apply Z.log2_lt_pow2; lia. }
  pose proof (Z.log2_nonneg a). pose proof (Z.log2_nonneg b).
  destruct (Hlog a Ha) as [?| ->], (Hlog b Hb) as [?| ->];
    change (Z.log2 0) with 0 in *; try lia.
  exfalso. apply Hne. reflexivity.
Qed.

Lemma bit_below (i k : Z) : 0 < k -> i < k -> 0 <= Z.shiftl 1 i < 2 ^ k.
Proof.
  intros Hk Hi. destruct (Z.le_gt_cases 0 i).
  - rewrite Z.shiftl_1_l. split; [lia|]. apply Z.pow_lt_mono_r; lia.
  - rewrite Z.shiftl_nonneg. split; [lia|].
    replace i with (- (- i)) by lia. rewrite Z.shiftl_opp_r.
    rewrite Z.shiftr_div_pow2 by lia.
    rewrite Z.div_small; [lia|]. split; [lia|].
    apply (Z.pow_gt_1 2); lia.
Qed.

Lemma bit_flips_below (R : Random) (ber : float) (len : Z) (n : nat) (m0 : Z) :
  0 < len -> 0 <= m0 < 2 ^ len ->
  0 <= fst (bit_flips R ber len n m0) < 2 ^ len /\
  (n <= snd (bit_flips R ber len n m0))%nat.
Proof.
  intros Hlen Hm. unfold bit_flips, Py.range.
  assert (forall i, i ∈ seqZ 0 (len - 0) -> i < len) as Hin
    by (intros i Hi%elem_of_seqZ; lia).
  revert Hin. generalize (seqZ 0 (len - 0)). intros l Hin.
  assert (forall acc : Z * nat,
            0 <= fst acc < 2 ^ len ->
            let r := foldl (fun acc i =>
                              (if PrimFloat.ltb (next_float R (snd acc)) ber
                               then Z.lor (fst acc) (Z.shiftl 1 i)
                               else fst acc,
                               Datatypes.S (snd acc))) acc l in
            0 <= fst r < 2 ^ len /\ (snd acc <= snd r)%nat) as Hfold.
  { induction l as [|i l IH]; intros acc Hacc; simpl; [split; [exact Hacc|lia]|].
    match goal with
    | |- context [foldl _ ?a l] => destruct (IH ltac:(intros j Hj; apply Hin; right; exact Hj) a) as [H1 H2]
    end.
    - cbn [fst]. destruct (PrimFloat.ltb _ _); [|exact Hacc].
      apply lor_below; [lia|exact Hacc|]. apply bit_below; [lia|].
      apply Hin. left.
    - split; [exact H1|]. cbn [snd] in H2. lia. }
  exact (Hfold (m0, n) Hm).
Qed.

Lemma drift_flips_below (rate : float) (len m0 m : Z) :
  0 < len -> 0 <= m0 < 2 ^ len ->
  drift_flips rate len m0 = Ok m -> 0 <= m < 2 ^ len.
Proof.
  intros Hlen Hm. unfold drift_flips. intros E. inv_bind E. rename a into safe.
  destruct (_ >? _); [|injection E as <-; exact Hm].
  injection E as <-. unfold Py.range.
  assert (forall i, i ∈ seqZ safe (len - safe) -> i < len) as Hin
    by (intros i Hi%elem_of_seqZ; lia).
  revert Hin. generalize (seqZ safe (len - safe)). intros l. revert m0 Hm.
  induction l as [|i l IH]; intros m0 Hm Hin; simpl; [exact Hm|].
  apply IH.
  - apply lor_below; [lia|exact Hm|]. apply bit_below; [lia|]. apply Hin. left.
  - intros j Hj. apply Hin. right. exact Hj.
Qed.

Lemma inject_impairments_spec (config : SimulationConfig) (R : Random)
    (cmd : ReaderCommand) (st : PacketType) (rd : option (list string))
    (n : nat) (i : Impaired) :
  inject_impairments config R cmd st rd n = Ok i ->
  0 <= imp_noise_mask i < 2 ^ Z.max 0 (expected_reply_bits cmd) /\
  (imp_status i = st \/ imp_status i = IDLE) /\
  imp_resolved_data i = rd /\
  (n <= imp_draws i)%nat.
Proof.
  assert (0 <= 0 < 2 ^ Z.max 0 (expected_reply_bits cmd)) as Hzero.
  { split; [lia|]. apply Z.pow_pos_nonneg; lia. }
  unfold inject_impairments.
  destruct (if ENABLE_NOISE config then _ else false).
  { intros [= <-]. cbn. repeat split; auto; try apply Hzero;
      destruct (ENABLE_NOISE config); lia. }
  destruct (negb (PacketType_eqb st IDLE)).
  2:{ intros [= <-]. cbn. repeat split; auto; try apply Hzero;
      destruct (ENABLE_NOISE config); lia. }
  destruct (Z.gtb_spec (expected_reply_bits cmd) 0) as [Hlen|_].
  2:{ intros [= <-]. cbn. repeat split; auto; try apply Hzero;
      destruct (ENABLE_NOISE config); lia. }
  rewrite Z.max_r in * by lia.
  set (n1 := if ENABLE_NOISE config then Datatypes.S n else n).
  assert (n <= n1)%nat as Hn1 by (unfold n1; destruct (ENABLE_NOISE config); lia).
  set (flips := if ENABLE_NOISE config && PrimFloat.ltb 0 (BIT_ERROR_RATE config)
                then bit_flips R (BIT_ERROR_RATE config) (expected_reply_bits cmd) n1 0
                else (0, n1)).
  assert (0 <= fst flips < 2 ^ expected_reply_bits cmd /\ (n1 <= snd flips)%nat)
    as [Hflips Hdraws].
  { unfold flips. destruct (_ && _); [|cbn; split; [exact Hzero|lia]].
    apply bit_flips_below; [lia|exact Hzero]. }
  intros E. inv_bind E. rename a into mask.
  assert (0 <= mask < 2 ^ expected_reply_bits cmd) as Hmask.
  { destruct (PrimFloat.ltb 0 (CLOCK_DRIFT_RATE config)).
    - eapply drift_flips_below; eauto.
    - injection E0 as <-. exact Hflips. }
  destruct (_ || _).
  - unfold supports_phy in E. discriminate.
  - injection E as <-. cbn. repeat split; auto; rewrite ?Z.max_r by lia; lia.
Qed.

(** X14.  What the impairments of a slot can do.  The noise mask handed
    to the protocol is never negative and has no bit at or beyond the
    declared reply length; an idle result carries no noise at all; the
    status is left as it was or degraded to IDLE, never anything else; and
    the resolved data is passed on unchanged, also when the packet is lost
    and the status degraded to IDLE. *)
Theorem noise_stays_inside_reply (config : SimulationConfig) (R : Random)
    (cmd : ReaderCommand) (st : PacketType) (rd : option (list string))
    (n : nat) (i : Impaired) :
  inject_impairments config R cmd st rd n = Ok i ->
  0 <= imp_noise_mask i < 2 ^ Z.max 0 (expected_reply_bits cmd) /\
  (imp_status i = IDLE -> imp_noise_mask i = 0) /\
  (imp_status i = st \/ imp_status i = IDLE) /\
  imp_resolved_data i = rd.
Proof.
  intros E.
  destruct (inject_impairments_spec _ _ _ _ _ _ _ E) as (Hm & Hs & Hr & _).
  split; [exact Hm|]. split; [|split; assumption].
  exact (idle_result_has_clean_mask _ _ _ _ _ _ _ E).
Qed.

(** A channel that flips every bit of the reply. *)
Definition noisy_config : SimulationConfig :=
  {| TOTAL_TAGS := 4;
     MISSING_RATE := 0%float;
     ENABLE_NOISE := true;
     packet_error_rate := 0%float;
     BIT_ERROR_RATE := 1%float;
     ENABLE_CAPTURE_EFFECT := false;
     CAPTURE_RATIO_DB := 3%float;
     ENABLE_ENERGY_TRACKING := false;
     CLOCK_DRIFT_RATE := 0%float;
     BURST_ERASURE_LEN := 0;
     JITTER_OFFSET := 0;
     GUARD_INTERVAL_BITS := 0%float |}.

Definition example_impaired : Impaired :=
  match inject_impairments noisy_config example_random
          (ReaderCommand_default 13 4) COLLISION None 0 with
  | Ok i => i
  | _ => mkImpaired IDLE None 0 None 0
  end.

Lemma noise_stays_inside_reply_witness :
  0 <= imp_noise_mask example_impaired < 2 ^ Z.max 0 4 /\
  (imp_status example_impaired = IDLE -> imp_noise_mask example_impaired = 0) /\
  (imp_status example_impaired = COLLISION \/ imp_status example_impaired = IDLE) /\
  imp_resolved_data example_impaired = None.
Proof.
  apply (noise_stays_inside_reply noisy_config example_random
           (ReaderCommand_default 13 4) COLLISION None 0).
  vm_compute. reflexivity.
Defined.

(** ** Termination of the flagship protocol under the kernel *)

(** No structural damage (burst erasure, jitter) and no clock drift;
    packet loss, bit errors, capture and energy tracking are free. *)
Definition damage_free (config : SimulationConfig) : Prop :=
  BURST_ERASURE_LEN config <= 0 /\ JITTER_OFFSET config <= 0 /\
  PrimFloat.ltb 0 (CLOCK_DRIFT_RATE config) = false.

Lemma prefix_length_le (p s : string) :
  String.prefix p s = true -> (String.length p <= String.length s)%nat.
Proof.
  revert s. induction p as [|c p IH]; intros [|d s]; simpl; try discriminate;
    try lia.
  destruct (ascii_dec c d); [|discriminate]. intros Hp%IH. lia.
Qed.

Lemma float_overflow_large : 2 ^ 64 < Py.float_overflow.
Proof. reflexivity. Qed.

Lemma truediv_int_small (a b : Z) :
  Z.abs a <= 2 ^ 64 -> b <> 0 -> exists f, Py.truediv_int a b = Ok f.
Proof.
  intros Ha Hb. unfold Py.truediv_int.
  destruct (Z.eqb_spec b 0); [contradiction|].
  pose proof float_overflow_large as Hf.
  destruct (Z.ltb_spec (Z.abs a) (Py.float_overflow * Z.abs b)); [eauto|].
  exfalso. generalize dependent Py.float_overflow. intros F HF1 HF2.
  generalize dependent (2 ^ 64). intros. nia.
Qed.

Lemma float_of_int_small (z : Z) :
  Z.abs z <= 2 ^ 64 -> exists f, Py.float_of_int z = Ok f.
Proof.
  intros Hz. unfold Py.float_of_int. pose proof float_overflow_large.
  destruct (Z.ltb_spec (Z.abs z) Py.float_overflow); [eauto|lia].
Qed.

Lemma rssi_map_covers (l : list Tag) (t : Tag) :
  t ∈ l -> is_Some (build_rssi_map l !! epc t).
Proof.
  unfold build_rssi_map.
  assert (forall (m : gmap string float),
            t ∈ l \/ is_Some (m !! epc t) ->
            is_Some (foldl (fun m t => <[epc t := rssi t]> m) m l !! epc t)) as H.
  { induction l as [|x l IH]; intros m [Hin|Hm]; simpl.
    - inversion Hin.
    - exact Hm.
    - apply IH. apply elem_of_cons in Hin as [->|Hin]; [right|left; exact Hin].
      rewrite lookup_insert_eq. eauto.
    - apply IH. right. destruct (decide (epc x = epc t)) as [->|Hne].
      + rewrite lookup_insert_eq. eauto.
      + rewrite lookup_insert_ne by exact Hne. exact Hm. }
  intros Hin. apply H. left. exact Hin.
Qed.

Lemma responders_total (p : Tag -> Result bool) (l : list Tag) :
  (forall t, t ∈ l -> exists b, p t = Ok b) ->
  exists resp,
    responders p l = Ok resp /\
    (length resp <= length l)%nat /\
    forall e, e ∈ resp -> exists t, t ∈ l /\ epc t = e.
Proof.
  induction l as [|t l IH]; intros Hp; simpl.
  - exists []. repeat split; auto. intros e He. inversion He.
  - destruct (Hp t) as [b ->]; [left|]. cbn [bind].
    destruct IH as (more & -> & Hlen & Hin);
      [intros; apply Hp; right; assumption|].
    cbn [bind]. eexists. split; [reflexivity|].
    destruct b; cbn [length]; split; try lia.
    + intros e He. apply elem_of_cons in He as [->|He].
      * exists t. split; [left|reflexivity].
      * destruct (Hin e He) as (t' & ? & ?). exists t'. split; [right|]; auto.
    + intros e He. destruct (Hin e He) as (t' & ? & ?).
      exists t'. split; [right|]; auto.
Qed.

Lemma protocol_logic_total (mask : string) (t : Tag) :
  tag_ok t -> exists b, protocol_logic mask t = Ok b.
Proof.
  intros [Hint Hlen]. unfold protocol_logic.
  destruct (epc_bin_spec _ _ Hint Hlen) as (-> & _). cbn [bind]. eauto.
Qed.

Lemma downlink_total (config : SimulationConfig) (cnt : Z)
    (cmd : ReaderCommand) (led : Ledger) :
  Z.abs (payload_bits cmd) <= 2 ^ 64 -> Z.abs cnt <= 2 ^ 64 ->
  exists led', downlink config cnt cmd led = Ok led'.
Proof.
  intros Hp Hc. unfold downlink.
  destruct (truediv_int_small (payload_bits cmd) CONSTANTS.READER_RATE Hp)
    as [q ->]; [discriminate|].
  cbn [bind].
  destruct (ENABLE_ENERGY_TRACKING config); [|cbn [bind]; eauto].
  destruct (float_of_int_small cnt Hc) as [f ->]. cbn [bind]. eauto.
Qed.

Lemma classify_slot_total (config : SimulationConfig)
    (rssi_map : gmap string float) (resp : list string) (led : Ledger) :
  (forall e, e ∈ resp -> is_Some (rssi_map !! e)) ->
  exists r, classify_slot config rssi_map resp led = Ok r.
Proof.
  intros Hcov. unfold classify_slot.
  destruct (_ =? 0); [eauto|].
  destruct (Z.eqb_spec (Z.of_nat (length resp)) 1) as [H1|_].
  - destruct (getitem_in_range resp 0) as [e ->]; [lia|]. cbn [bind]. eauto.
  - unfold capture_winner.
    destruct (ENABLE_CAPTURE_EFFECT config); [|cbn [bind]; eauto].
    destruct (lookup_strengths_total rssi_map resp Hcov) as (l & -> & _).
    cbn [bind].
    destruct (strongest_first l) as [|s0 [|s1 rest]]; cbn [bind]; eauto.
    destruct (PrimFloat.leb _ _); cbn [bind]; [|eauto].
    destruct (truthy (Some (fst s0))); eauto.
Qed.

Lemma inject_impairments_total (config : SimulationConfig) (R : Random)
    (cmd : ReaderCommand) (st : PacketType) (rd : option (list string))
    (n : nat) :
  damage_free config ->
  exists i, inject_impairments config R cmd st rd n = Ok i.
Proof.
  intros (Hb & Hj & Hd). unfold inject_impairments. rewrite Hd.
  destruct (if ENABLE_NOISE config then _ else false); [eauto|].
  destruct (negb _); [|eauto]. destruct (_ >? 0); [|eauto].
  cbn [bind].
  destruct (Z.gtb_spec (BURST_ERASURE_LEN config) 0); [lia|].
  destruct (Z.gtb_spec (JITTER_OFFSET config) 0); [lia|].
  cbn [orb]. eauto.
Qed.

Lemma calc_dynamic_reply_time_total (bits_count : Z) :
  Z.abs bits_count <= 2 ^ 64 ->
  exists f, _calc_dynamic_reply_time bits_count = Ok f.
Proof.
  intros Hb. unfold _calc_dynamic_reply_time.
  destruct (truediv_int_small bits_count CONSTANTS.BLF Hb) as [q ->];
    [discriminate|].
  cbn [bind]. destruct (_ <=? 1); [cbn [bind]; eauto|].
  destruct (_ <=? 20); [cbn [bind]; eauto|].
  destruct (truediv_int_small 18 CONSTANTS.READER_RATE) as [a ->];
    [simpl; lia|discriminate|].
  cbn [bind]. eauto.
Qed.

Lemma uplink_total (config : SimulationConfig) (cnt : Z)
    (cmd : ReaderCommand) (st : PacketType) (num : Z) (led : Ledger) :
  Z.abs (expected_reply_bits cmd) <= 2 ^ 64 ->
  concatenated_tags_count cmd = 1 ->
  Z.abs num <= 2 ^ 64 -> Z.abs (cnt - num) <= 2 ^ 64 ->
  exists led', uplink config cnt cmd st num led = Ok led'.
Proof.
  intros Hr Hone Hn Hc. unfold uplink.
  assert (exists d,
            (if PacketType_eqb st IDLE then Ok CONSTANTS.T1
             else
               base_duration <- _calc_dynamic_reply_time (expected_reply_bits cmd) ;;
               gap_penalty <-
                 (if (concatenated_tags_count cmd >? 1)
                     && PrimFloat.ltb 0 (GUARD_INTERVAL_BITS config)
                  then
                    num_gaps <- Py.float_of_int (concatenated_tags_count cmd - 1) ;;
                    blf <- Py.float_of_int CONSTANTS.BLF ;;
                    Ok (num_gaps * GUARD_INTERVAL_BITS config
                        * ((1 / blf) * 1e6))%float
                  else Ok 0%float) ;;
               Ok (base_duration + gap_penalty)%float) = Ok d) as [d ->].
  { destruct (PacketType_eqb st IDLE); [eauto|].
    destruct (calc_dynamic_reply_time_total _ Hr) as [f ->]. cbn [bind].
    rewrite Hone. cbn. eauto. }
  cbn [bind].
  destruct (ENABLE_ENERGY_TRACKING config); [|cbn [bind]; eauto].
  destruct (float_of_int_small num Hn) as [f1 ->]. cbn [bind].
  destruct (float_of_int_small (cnt - num) Hc) as [f2 ->]. cbn [bind]. eauto.
Qed.

Section Termination.
Variable config : SimulationConfig.
Variable R : Random.
Variable tags : list Tag.
Hypothesis config_ok : damage_free config.
Hypothesis tags_ok : Forall tag_ok tags.
Hypothesis tags_few : Z.of_nat (length tags) <= CONSTANTS.MAX_SLOTS_LIMIT.

(** The invariant of the loop: the protocol can schedule, and it has
    consumed at least one tag per slot run. *)
Record on_course (ks : Kernel LODS_MTI_Algorithm) : Prop := {
  oc_sched : schedulable (algorithm ks);
  oc_entries : Forall entry_ok (sorted_tags_bin (algorithm ks));
  oc_total : total_tags (algorithm ks) = Z.of_nat (length tags);
  oc_slots : total_slots (ledger ks) <= cursor (algorithm ks);
  oc_success : 0 <= success_slots (ledger ks) <= total_slots (ledger ks)
}.

Lemma present_tags_length : (length (present_tags tags) <= length tags)%nat.
Proof. unfold present_tags. apply List.filter_length_le. Qed.

Lemma slot_runs (ks : Kernel LODS_MTI_Algorithm)
    (self' : LODS_MTI_Algorithm) (cmd : ReaderCommand) (first : SortedTag.t)
    (mask : string) :
  on_course ks ->
  total_slots (ledger ks) <= CONSTANTS.MAX_SLOTS_LIMIT ->
  LODS_get_next_command (algorithm ks) (prev_result ks) = Ok (self', cmd) ->
  first ∈ sorted_tags_bin (algorithm ks) ->
  String.prefix mask (SortedTag.bin first) = true ->
  response_protocol cmd = protocol_logic mask ->
  13 <= payload_bits cmd <= Z.of_nat (String.length mask) + 24 ->
  4 <= expected_reply_bits cmd <= 128 * CONSTANTS.MAX_SLOTS_LIMIT ->
  concatenated_tags_count cmd = 1 ->
  exists ks',
    loop_body config R tags ks = Ok (Continue ks') /\ algorithm ks' = self'.
Proof.
  intros [Hs Hent Htot Hslots Hsucc] Hmax E Hfirst Hprefix Hproto Hpay Hreply Hone.
  unfold loop_body.
  destruct (Z.gtb_spec (total_slots (ledger ks)) CONSTANTS.MAX_SLOTS_LIMIT); [lia|].
  cbn [get_next_command LODS_interface]. rewrite E. cbn [bind fst snd].
  destruct (Z.ltb_spec (payload_bits cmd) 0); [lia|].
  rewrite Forall_forall in Hent. destruct (Hent first Hfirst) as (H96 & _).
  apply prefix_length_le in Hprefix. rewrite H96 in Hprefix.
  pose proof present_tags_length as Hpres.
  unfold CONSTANTS.MAX_SLOTS_LIMIT in *.
  assert (2 ^ 64 = 18446744073709551616) as Hpow by reflexivity.
  destruct (downlink_total config (present_tags_count tags) cmd (ledger ks))
    as [led1 ->]; [lia|unfold present_tags_count; lia|].
  cbn [bind].
  destruct (responders_total (response_protocol cmd) (present_tags tags))
    as (resp & -> & Hlen & Hresp).
  { intros t Ht. rewrite Hproto. apply protocol_logic_total.
    apply elem_of_present_tags in Ht as [Ht _].
    rewrite Forall_forall in tags_ok. apply tags_ok. exact Ht. }
  cbn [bind].
  destruct (classify_slot_total config (rssi_map tags) resp led1) as [c ->].
  { intros e He. destruct (Hresp e He) as (t & Ht & <-).
    apply rssi_map_covers. exact Ht. }
  cbn [bind].
  destruct (inject_impairments_total config R cmd (fst (fst c)) (snd (fst c))
              (draws ks) config_ok) as [i ->].
  cbn [bind].
  destruct (uplink_total config (present_tags_count tags) cmd (imp_status i)
              (Z.of_nat (length resp)) (snd c)) as [led2 ->];
    [lia|exact Hone|lia|unfold present_tags_count; lia|].
  cbn [bind]. eexists. split; reflexivity.
Qed.

Lemma body_on_course (ks : Kernel LODS_MTI_Algorithm) :
  on_course ks ->
  exists f,
    loop_body config R tags ks = Ok f /\
    on_course (after f) /\
    stdout (after f) = stdout ks /\
    match f with
    | Break ks' => is_finished (algorithm ks') = true
    | Continue ks' =>
        cursor (algorithm ks) < cursor (algorithm ks') /\
        is_finished (algorithm ks') = is_finished (algorithm ks)
    end.
Proof.
  intros Hoc. pose proof Hoc as [Hs Hent Htot Hslots Hsucc].
  destruct (get_next_command_total (algorithm ks) (prev_result ks) Hs)
    as (self' & cmd & E & Hs' & Hsame & Hcase).
  pose proof Hsame as (_ & _ & _ & _ & Htags & Htot').
  pose proof Hs as [_ Hcur _ _ _ _].
  assert (total_slots (ledger ks) <= CONSTANTS.MAX_SLOTS_LIMIT) as Hmax by lia.
  destruct (Z.geb_spec (cursor (algorithm ks)) (total_tags (algorithm ks)))
    as [Hend|Hmore].
  - destruct Hcase as (Hrun & Hcur' & Hnil & ->).
    exists (Break (mkKernel (ledger ks) (prev_result ks) self' (draws ks) (stdout ks))).
    split.
    { unfold loop_body.
      destruct (Z.gtb_spec (total_slots (ledger ks)) CONSTANTS.MAX_SLOTS_LIMIT);
        [lia|].
      cbn [get_next_command LODS_interface]. rewrite E. reflexivity. }
    cbn [after algorithm ledger stdout]. split; [|split; [reflexivity|]].
    + constructor; cbn [algorithm ledger]; auto; try congruence; try lia;
        rewrite Htags; exact Hent.
    + cbn. unfold LODS_is_finished. rewrite Hrun. reflexivity.
  - destruct Hcase as (Hrun & Hadv & Hc & Hpay & Hreply & Hone
                       & first & mask & Hfirst & Hprefix & Hproto & Hpay').
    destruct (slot_runs ks self' cmd first mask Hoc Hmax E) as (ks' & Hbody & Halg);
      auto.
    { eapply list_elem_of_lookup_2. exact Hfirst. }
    { split; [lia|]. pose proof Hs as [_ _ Hg _ _ _].
      unfold CONSTANTS.MAX_SLOTS_LIMIT in *. nia. }
    exists (Continue ks'). split; [exact Hbody|].
    apply body_continue_slots in Hbody as (_ & Hslots' & Hsucc' & Hout).
    cbn [after]. rewrite Halg. split; [|split; [exact Hout|]].
    + constructor; rewrite ?Halg; auto; try congruence; try lia;
        rewrite Htags; exact Hent.
    + split; [lia|]. cbn. unfold LODS_is_finished. rewrite Hrun. reflexivity.
Qed.

Lemma loop_terminates (fuel : nat) (ks : Kernel LODS_MTI_Algorithm) :
  on_course ks ->
  (Z.to_nat (total_tags (algorithm ks) - cursor (algorithm ks)) < fuel)%nat ->
  exists ks',
    kernel_loop config R tags fuel ks = Ok ks' /\
    on_course ks' /\ stdout ks' = stdout ks /\
    is_finished (algorithm ks') = true.
Proof.
  revert ks. induction fuel as [|fuel IH]; intros ks Hoc Hfuel; [lia|].
  cbn [kernel_loop].
  destruct (is_finished (algorithm ks)) eqn:Hfin; [eauto|].
  destruct (body_on_course ks Hoc) as (f & -> & Hoc' & Hout & Hcase).
  cbn [bind]. destruct f as [ks'|ks']; cbn [after] in *.
  - destruct Hcase as [Hadv _].
    destruct (IH ks' Hoc') as (ks'' & E & Hoc'' & Hout'' & Hfin'').
    { pose proof Hoc as [_ _ Ht _ _]. pose proof Hoc' as [[_ Hc' _ _ _ _] _ Ht' _ _].
      lia. }
    exists ks''. split; [exact E|]. split; [exact Hoc''|].
    split; [rewrite Hout''; exact Hout|exact Hfin''].
  - exists ks'. auto.
Qed.

End Termination.

Lemma flagship_run_total (config : SimulationConfig) (R : Random)
    (tags : list Tag) (self0 : LODS_MTI_Algorithm) :
  parameters_ok self0 ->
  damage_free config ->
  Forall tag_ok tags ->
  Z.of_nat (length tags) <= CONSTANTS.MAX_SLOTS_LIMIT ->
  exists alg0 st alg,
    LODS_initialize self0 tags = Ok alg0 /\
    run_high_fidelity_simulation config R tags alg0 = Ok (st, alg, []) /\
    is_finished alg = true /\
    0 <= stat_total_slots st <= Z.of_nat (length tags).
Proof.
  intros Hpar Hcfg Htags Hfew.
  destruct (initialize_spec self0 tags Htags) as (alg0 & Hinit & Hent & _ & _).
  destruct (initialize_schedulable _ _ _ Hpar Hinit) as (Hs & Hc0 & _ & Htot).
  assert (on_course tags (Kernel_init alg0)) as Hoc.
  { constructor; cbn; auto; rewrite ?Hc0; lia. }
  destruct (loop_terminates config R tags Hcfg Htags Hfew loop_bound _ Hoc)
    as (ks' & Hloop & [Hs' _ Htot' Hslots Hsucc] & Hout & Hfin).
  { cbn [Kernel_init algorithm]. rewrite Hc0, Htot. unfold loop_bound.
    assert (0 <= CONSTANTS.MAX_SLOTS_LIMIT)
      by (unfold CONSTANTS.MAX_SLOTS_LIMIT; lia).
    lia. }
  assert (exists st, statistics (ledger ks') = Ok st /\
                     stat_total_slots st = total_slots (ledger ks')) as (st & Hst & Hn).
  { unfold statistics. destruct (Z.gtb_spec (total_slots (ledger ks')) 0).
    - destruct (truediv_int_fraction (success_slots (ledger ks'))
                  (total_slots (ledger ks'))) as [f ->]; [lia|lia|].
      cbn [bind]. eexists. split; reflexivity.
    - cbn [bind]. eexists. split; reflexivity. }
  exists alg0, st, (algorithm ks'). split; [exact Hinit|].
  split; [|split; [exact Hfin|]].
  - unfold run_high_fidelity_simulation. rewrite Hloop. cbn [bind].
    rewrite Hst. cbn [bind]. rewrite Hout. reflexivity.
  - rewrite Hn. destruct Hs' as [_ Hcur _ _ _ _]. lia.
Qed.

(** X15.  The flagship protocol always terminates under the kernel.  For
    up to [MAX_SLOTS_LIMIT] expected tags with EPCs of at most 24
    hexadecimal digits, constructor arguments that allow a group of one
    tag, and a channel without burst erasure, jitter or clock drift
    (packet loss, bit errors and capture are allowed): [initialize]
    succeeds, the run returns statistics without raising and without the
    circuit breaker (nothing is printed), the protocol is finished, and
    the run took at most one slot per expected tag. *)
Theorem flagship_run_terminates (config : SimulationConfig) (R : Random)
    (tags : list Tag) (self0 : LODS_MTI_Algorithm) :
  parameters_ok self0 ->
  damage_free config ->
  Forall tag_ok tags ->
  Z.of_nat (length tags) <= CONSTANTS.MAX_SLOTS_LIMIT ->
  exists alg0 st alg,
    initialize self0 tags = Ok alg0 /\
    run_high_fidelity_simulation config R tags alg0 = Ok (st, alg, []) /\
    is_finished alg = true /\
    0 <= stat_total_slots st <= Z.of_nat (length tags).
Proof. exact (flagship_run_total config R tags self0). Qed.

Lemma example_tags_ok : Forall tag_ok example_tags.
Proof. repeat constructor; simpl; lia. Qed.

Lemma flagship_run_terminates_witness :
  exists alg0 st alg,
    initialize LODS_default example_tags = Ok alg0 /\
    run_high_fidelity_simulation noisy_config example_random example_tags alg0
    = Ok (st, alg, []) /\
    is_finished alg = true /\
    0 <= stat_total_slots st <= Z.of_nat (length example_tags).
Proof.
  apply (flagship_run_terminates noisy_config example_random example_tags
           LODS_default).
  - split; cbn; lia.
  - repeat split; cbn; lia.
  - exact example_tags_ok.
  - vm_compute. discriminate.
Defined.

(* ------------------------------------------------------------------------- *)
(** * Exp3.py: the accuracy metrics of a run *)

(** The dict [{'FP': ..., 'FN': ..., 'Reliability': ...}]. *)
Record AccuracyMetrics : Type := mkAccuracyMetrics {
  FP : float;
  FN : float;
  Reliability : float
}.

(** [calculate_accuracy_metrics(algo_instance, scenario_tags)]. *)
Definition calculate_accuracy_metrics {S : Type} `{AlgorithmInterface S}
    (algo_instance : S) (scenario_tags : list Tag) : Result AccuracyMetrics :=
  let pred_present : gset string := fst (get_results algo_instance) in
  let pred_missing : gset string := snd (get_results algo_instance) in
  let actual_present : gset string :=
    list_to_set (epc <$> List.filter is_present scenario_tags) in
  let actual_missing : gset string :=
    list_to_set
      (epc <$> List.filter (fun t => negb (is_present t)) scenario_tags) in
  let fp_set := pred_missing ∩ actual_present in
  let fn_set := pred_present ∩ actual_missing in
  let fp_count := Z.of_nat (size fp_set) in
  let fn_count := Z.of_nat (size fn_set) in
  let total_tags := Z.of_nat (length scenario_tags) in
  reliability <-
    (if total_tags >? 0
     then
       q <- Py.truediv_int (fp_count + fn_count) total_tags ;;
       Ok (1 - q)%float
     else Ok 0%float) ;;
  fp <- Py.float_of_int fp_count ;;
  fn <- Py.float_of_int fn_count ;;
  Ok {| FP := fp; FN := fn; Reliability := reliability |}.

Lemma truediv_int_zero (b : Z) : 0 < b -> Py.truediv_int 0 b = Ok 0%float.
Proof.
  intros Hb. unfold Py.truediv_int.
  destruct (Z.eqb_spec b 0); [lia|].
  pose proof float_overflow_gt_1.
  destruct (Z.ltb_spec (Z.abs 0) (Py.float_overflow * Z.abs b)).
  - destruct b as [|p|p]; try lia. reflexivity.
  - exfalso. change (Z.abs 0) with 0 in *. nia.
Qed.

(** X16.  An empty scenario is scored with no false verdict and a
    reliability of 0.0 (not 1.0), whatever the protocol reports. *)
Theorem accuracy_of_empty_scenario {S : Type} `{AlgorithmInterface S}
    (algo_instance : S) :
  calculate_accuracy_metrics algo_instance []
  = Ok {| FP := 0; FN := 0; Reliability := 0 |}.
Proof.
  unfold calculate_accuracy_metrics. cbn [List.filter fmap list_fmap length].
  rewrite list_to_set_nil, !(right_absorb_L ∅ (∩)), size_empty.
  reflexivity.
Qed.

(** The verdicts of a run on a clean channel are never wrong, finished or
    not. *)
Lemma clean_run_verdicts (self0 alg0 alg : LODS_MTI_Algorithm)
    (config : SimulationConfig) (R : Random) (tags : list Tag)
    (st : Statistics) (out : list string) :
  impairments_disabled config ->
  NoDup (epc <$> tags) ->
  LODS_initialize self0 tags = Ok alg0 ->
  run_high_fidelity_simulation config R tags alg0 = Ok (st, alg, out) ->
  verdicts_right tags alg.
Proof.
  intros Hclean Hnd Hinit Erun.
  destruct (initialize_sorted _ _ _ Hinit) as [Hsorted Hbin].
  destruct (initialize_fresh _ _ _ Hinit) as (HP0 & HM0 & Hctx0).
  apply initialize_inv in Hinit as (Hinv & Hperm & _).
  apply run_Ok in Erun as (ks' & E & <- & _ & _).
  assert (clean_inv tags (sorted_tags_bin alg0) (Kernel_init alg0)) as H0.
  { split; [exists O; exact Hinv|]. split.
    - split; intros e He; exfalso; cbn [Kernel_init algorithm] in He;
        rewrite ?HP0, ?HM0 in He; exact (not_elem_of_empty e He).
    - left. exact Hctx0. }
  exact (proj2 (kernel_loop_clean tags _ Hnd Hperm Hbin Hsorted config R Hclean
                  _ _ _ H0 E)).
Qed.

(** X17.  A run of the flagship protocol on a clean channel is scored as
    perfect: over a non-empty scenario of pairwise distinct EPCs,
    [calculate_accuracy_metrics] returns FP = 0.0, FN = 0.0 and
    Reliability = 1.0 for the protocol instance the run leaves. *)
Theorem accuracy_of_clean_run (self0 alg0 alg : LODS_MTI_Algorithm)
    (config : SimulationConfig) (R : Random) (tags : list Tag)
    (st : Statistics) (out : list string) :
  impairments_disabled config ->
  NoDup (epc <$> tags) ->
  tags <> [] ->
  initialize self0 tags = Ok alg0 ->
  run_high_fidelity_simulation config R tags alg0 = Ok (st, alg, out) ->
  calculate_accuracy_metrics alg tags
  = Ok {| FP := 0; FN := 0; Reliability := 1 |}.
Proof.
  intros Hclean Hnd Hne Hinit Erun.
  destruct (clean_run_verdicts _ _ _ _ _ _ _ _ Hclean Hnd Hinit Erun) as [HP HM].
  pose proof (present_not_absent tags Hnd) as Hexcl.
  unfold calculate_accuracy_metrics.
  cbn [get_results LODS_interface LODS_get_results fst snd].
  assert (verified_missing alg
          ∩ list_to_set (epc <$> List.filter is_present tags) = (∅ : gset string))
    as ->.
  { apply set_eq. intros e. rewrite elem_of_intersection, elem_of_list_to_set.
    split; [|intros He; exfalso; exact (not_elem_of_empty e He)].
    intros [Hm Hp]. exfalso. apply (Hexcl e); [|exact (HM e Hm)].
    apply list_elem_of_fmap in Hp as (t & -> & Ht).
    apply elem_of_List_filter in Ht as [Ht Hpres]. exists t. auto. }
  assert (verified_present alg
          ∩ list_to_set
              (epc <$> List.filter (fun t => negb (is_present t)) tags)
          = (∅ : gset string)) as ->.
  { apply set_eq. intros e. rewrite elem_of_intersection, elem_of_list_to_set.
    split; [|intros He; exfalso; exact (not_elem_of_empty e He)].
    intros [Hp Hm]. exfalso. apply (Hexcl e); [exact (HP e Hp)|].
    apply list_elem_of_fmap in Hm as (t & -> & Ht).
    apply elem_of_List_filter in Ht as [Ht Habs].
    apply negb_true_iff in Habs. exists t. auto. }
  rewrite size_empty. change (Z.of_nat 0 + Z.of_nat 0) with 0.
  destruct (Z.gtb_spec (Z.of_nat (length tags)) 0) as [Hpos|Hz].
  - rewrite truediv_int_zero by exact Hpos. reflexivity.
  - destruct tags; [congruence|cbn [length] in Hz; lia].
Qed.

Lemma accuracy_of_clean_run_witness :
  exists st alg out,
    run_high_fidelity_simulation SimulationConfig_default example_random
      example_tags example_algorithm = Ok (st, alg, out) /\
    calculate_accuracy_metrics alg example_tags
    = Ok {| FP := 0; FN := 0; Reliability := 1 |}.
Proof.
  eexists _, _, _. split; [vm_compute; reflexivity|].
  eapply (accuracy_of_clean_run LODS_default example_algorithm _
            SimulationConfig_default example_random example_tags).
  - repeat split; reflexivity.
  - apply (bool_decide_eq_true_1 (NoDup (epc <$> example_tags))).
    vm_compute. reflexivity.
  - discriminate.
  - vm_compute. reflexivity.
  - vm_compute. reflexivity.
Defined.

(* ------------------------------------------------------------------------- *)
(** * Exp3.py: the scenario generator *)

(** [format(n, '024X')]: upper-case hexadecimal digits, zero-padded to 24
    characters after the sign. *)
Definition hex_char (d : Z) : ascii :=
  ascii_of_N (Z.to_N (if d <? 10 then 48 + d else 55 + d)).

Fixpoint hex_digits (fuel : nat) (n : Z) (acc : string) : string :=
  match fuel with
  | O => acc
  | S fuel' =>
      let acc' := String (hex_char (n mod 16)) acc in
      if n <? 16 then acc' else hex_digits fuel' (n / 16) acc'
  end.

Definition format_X (n : Z) : string :=
  hex_digits (S (Z.to_nat (Z.log2 n))) n EmptyString.

Definition format_024X (n : Z) : string :=
  if n <? 0 then
    let digits := format_X (- n) in
    String "-" (Py.zeros (23 - String.length digits) +:+ digits)
  else
    let digits := format_X n in
    Py.zeros (24 - String.length digits) +:+ digits.

Definition base_id_int : Z := 0xE200001D4500000000000000.

(** The tags before the shuffle; the [i]-th call of [random.uniform(-80,
    -40)] returns [-80 + 40 * next_float R i]. *)
Fixpoint fresh_tags (R : Random) (indices : list Z) (n : nat)
  : Result (list Tag) :=
  match indices with
  | [] => Ok []
  | i :: rest =>
      let epc_int := base_id_int + i in
      let epc_hex := format_024X epc_int in
      t <- Tag_init epc_hex true (-80 + (-40 - -80) * next_float R n)%float ;;
      more <- fresh_tags R rest (S n) ;;
      Ok (t :: more)
  end.

Definition set_absent (t : Tag) : Tag :=
  {| epc := epc t; epc_int := epc_int t; is_present := false; rssi := rssi t |}.

(** [for i in range(num_missing): tags[i].is_present = False]. *)
Fixpoint mark_missing (indices : list Z) (tags : list Tag) : Result (list Tag) :=
  match indices with
  | [] => Ok tags
  | i :: rest =>
      t <- Py.getitem tags i ;;
      mark_missing rest (<[Z.to_nat i := set_absent t]> tags)
  end.

(** [generate_standard_scenario(total_tags, missing_rate, run_seed)];
    [shuffle] is what [random.Random(run_seed).shuffle] does to the list. *)
Definition generate_standard_scenario (R : Random)
    (shuffle : list Tag -> list Tag) (total_tags : Z) (missing_rate : float)
  : Result (list Tag) :=
  total <- Py.float_of_int total_tags ;;
  num_missing <- Py.int_of_float (total * missing_rate)%float ;;
  tags <- fresh_tags R (Py.range 0 total_tags) O ;;
  mark_missing (Py.range 0 num_missing) (shuffle tags).

Lemma hex_digit_char (d : Z) :
  0 <= d < 16 -> Py.hex_digit (hex_char d) = Some d.
Proof.
  intros Hd.
  assert (d = 0 \/ d = 1 \/ d = 2 \/ d = 3 \/ d = 4 \/ d = 5 \/ d = 6 \/ d = 7 \/
          d = 8 \/ d = 9 \/ d = 10 \/ d = 11 \/ d = 12 \/ d = 13 \/ d = 14 \/
          d = 15) as H by lia.
  repeat (destruct H as [->|H]; [reflexivity|]). subst d. reflexivity.
Qed.

Lemma hex_digits_S (fuel : nat) (n : Z) (acc : string) :
  hex_digits (S fuel) n acc
  = if n <? 16 then String (hex_char (n mod 16)) acc
    else hex_digits fuel (n / 16) (String (hex_char (n mod 16)) acc).
Proof. reflexivity. Qed.

Lemma hex_digits_spec (fuel : nat) (n : Z) (s : string) :
  0 <= n < 16 ^ Z.of_nat (S fuel) ->
  exists k : nat,
    (1 <= k <= S fuel)%nat /\
    String.length (hex_digits (S fuel) n s) = (k + String.length s)%nat /\
    (16 ^ Z.of_nat (k - 1) <= n \/ k = 1%nat) /\
    forall a,
      Py.int16_digits a (hex_digits (S fuel) n s)
      = Py.int16_digits (a * 16 ^ Z.of_nat k + n) s.
Proof.
  revert n s. induction fuel as [|fuel IH]; intros n s Hn.
  - change (16 ^ Z.of_nat 1) with 16 in Hn.
    rewrite !(hex_digits_S O n). destruct (Z.ltb_spec n 16); [|lia].
    exists 1%nat. repeat split; auto.
    intros a. cbn [Py.int16_digits]. rewrite Z.mod_small by lia.
    rewrite hex_digit_char by lia. f_equal.
    change (16 ^ Z.of_nat 1) with 16. lia.
  - rewrite !(hex_digits_S (S fuel) n). destruct (Z.ltb_spec n 16) as [Hsmall|Hbig].
    + exists 1%nat. repeat split; auto; try lia.
      intros a. cbn [Py.int16_digits]. rewrite Z.mod_small by lia.
      rewrite hex_digit_char by lia. f_equal.
      change (16 ^ Z.of_nat 1) with 16. lia.
    + assert (0 <= n / 16 < 16 ^ Z.of_nat (S fuel)) as Hq.
      { rewrite (Nat2Z.inj_succ (S fuel)), Z.pow_succ_r in Hn by lia.
        split; [apply Z.div_pos; lia|apply Z.div_lt_upper_bound; lia]. }
      destruct (IH (n / 16) (String (hex_char (n mod 16)) s) Hq)
        as (k & Hk & Hlen & Hlow & Hval).
      exists (S k). split; [lia|]. split; [rewrite Hlen; simpl; lia|].
      split.
      * left. replace (S k - 1)%nat with (S (k - 1)) by lia.
        rewrite Nat2Z.inj_succ, Z.pow_succ_r by lia.
        destruct Hlow as [Hlow| ->].
        -- pose proof (Z.mul_div_le n 16). lia.
        -- change (16 ^ Z.of_nat (1 - 1)) with 1.
           pose proof (Z.mul_div_le n 16).
           assert (1 <= n / 16) by (apply Z.div_le_lower_bound; lia). lia.
      * intros a. rewrite Hval. cbn [Py.int16_digits].
        pose proof (Z.mod_pos_bound n 16). rewrite hex_digit_char by lia.
        f_equal. rewrite Nat2Z.inj_succ, Z.pow_succ_r by lia.
        pose proof (Z.div_mod n 16). lia.
Qed.

Lemma format_X_spec (n : Z) :
  0 <= n ->
  exists k : nat,
    (1 <= k)%nat /\ String.length (format_X n) = k /\
    (16 ^ Z.of_nat (k - 1) <= n \/ k = 1%nat) /\
    forall a, Py.int16_digits a (format_X n) = Ok (a * 16 ^ Z.of_nat k + n).
Proof.
  intros Hn. unfold format_X.
  destruct (hex_digits_spec (Z.to_nat (Z.log2 n)) n EmptyString)
    as (k & Hk & Hlen & Hlow & Hval).
  { split; [exact Hn|].
    destruct (Z.eq_dec n 0) as [->|Hne]; [apply Z.pow_pos_nonneg; lia|].
    pose proof (Z.log2_spec n ltac:(lia)) as [_ Hlt].
    pose proof (Z.log2_nonneg n).
    rewrite Nat2Z.inj_succ, Z2Nat.id by lia.
    eapply Z.lt_le_trans; [exact Hlt|].
    apply Z.pow_le_mono_l. lia. }
  exists k. split; [lia|]. split; [rewrite Hlen; simpl; lia|].
  split; [exact Hlow|]. intros a. rewrite Hval. reflexivity.
Qed.

Lemma int16_digits_zeros (m : nat) (s : string) :
  Py.int16_digits 0 (Py.zeros m +:+ s) = Py.int16_digits 0 s.
Proof. induction m as [|m IH]; [reflexivity|]. simpl. exact IH. Qed.

(** The round trip of an EPC: [int(format(n, '024X'), 16) = n], in 24
    characters when [n < 16^24]. *)
Lemma format_024X_spec (n : Z) :
  0 <= n ->
  Py.int16 (format_024X n) = Ok n /\
  (n < 16 ^ 24 -> String.length (format_024X n) = 24%nat).
Proof.
  intros Hn. unfold format_024X. destruct (Z.ltb_spec n 0); [lia|].
  destruct (format_X_spec n Hn) as (k & Hk & Hlen & Hlow & Hval).
  cbv zeta. split.
  - unfold Py.int16.
    destruct (Py.zeros (24 - String.length (format_X n)) +:+ format_X n) eqn:Hs.
    + apply (f_equal String.length) in Hs.
      rewrite append_length in Hs. simpl in Hs. lia.
    + rewrite <- Hs, int16_digits_zeros, Hval. reflexivity.
  - intros Hbig. rewrite append_length, zeros_length, Hlen.
    assert (k <= 24)%nat; [|lia].
    destruct Hlow as [Hlow| ->]; [|lia].
    destruct (Nat.le_gt_cases k 24) as [|Hgt]; [assumption|exfalso].
    assert (16 ^ 24 <= 16 ^ Z.of_nat (k - 1))
      by (apply Z.pow_le_mono_r; lia).
    lia.
Qed.

Lemma fresh_tags_spec (R : Random) (indices : list Z) (n : nat) :
  (forall i, i ∈ indices -> 0 <= i < 2 ^ 64) ->
  exists tags,
    fresh_tags R indices n = Ok tags /\
    epc_int <$> tags = (fun i => base_id_int + i) <$> indices /\
    Forall (fun t => tag_ok t /\ String.length (epc t) = 24%nat /\
                     epc t = format_024X (epc_int t) /\
                     is_present t = true) tags.
Proof.
  revert n. induction indices as [|i rest IH]; intros n Hi; simpl.
  - exists []. repeat split; constructor.
  - assert (0 <= base_id_int + i < 16 ^ 24) as Hrange.
    { destruct (Hi i) as [H0 H1]; [left|]. unfold base_id_int.
      change (2 ^ 64) with 18446744073709551616 in H1.
      change (16 ^ 24) with 79228162514264337593543950336. lia. }
    destruct (format_024X_spec (base_id_int + i)) as [Hint Hlen]; [lia|].
    unfold Tag_init. rewrite Hint. cbn [bind].
    destruct (IH (S n)) as (more & -> & Hints & Hok);
      [intros; apply Hi; right; assumption|].
    cbn [bind]. eexists. split; [reflexivity|]. split.
    + rewrite !fmap_cons, Hints. reflexivity.
    + constructor; [|exact Hok]. unfold tag_ok. cbn [epc epc_int is_present].
      rewrite Hlen by lia. repeat split; auto.
Qed.

Lemma NoDup_epc (l : list Tag) :
  Forall tag_ok l -> NoDup (epc_int <$> l) -> NoDup (epc <$> l).
Proof.
  induction 1 as [|t l [Ht _] Hl IH]; intros Hnd; [constructor|].
  rewrite fmap_cons in *. apply NoDup_cons in Hnd as [Hnot Hnd].
  constructor; [|apply IH; exact Hnd].
  intros Hin. apply Hnot. apply list_elem_of_fmap in Hin as (t' & He & Hin).
  apply list_elem_of_fmap. exists t'. split; [|exact Hin].
  rewrite Forall_forall in Hl. destruct (Hl t' Hin) as [Ht' _].
  rewrite He in Ht. congruence.
Qed.

Lemma mark_missing_lookup (m : nat) (k : Z) (l l' : list Tag) :
  0 <= k ->
  mark_missing (seqZ k (Z.of_nat m)) l = Ok l' ->
  (m = O \/ k + Z.of_nat m <= Z.of_nat (length l)) /\
  length l' = length l /\
  forall j : nat,
    l' !! j
    = if (k <=? Z.of_nat j) && (Z.of_nat j <? k + Z.of_nat m)
      then set_absent <$> (l !! j) else l !! j.
Proof.
  intros Hk. revert k l Hk. induction m as [|m IH]; intros k l Hk E.
  - simpl in E. injection E as <-. split; [left; reflexivity|].
    split; [reflexivity|]. intros j.
    destruct (Z.leb_spec k (Z.of_nat j)), (Z.ltb_spec (Z.of_nat j) (k + Z.of_nat 0));
      cbn [andb]; try reflexivity. lia.
  - rewrite seqZ_cons in E by lia. cbn [mark_missing] in E.
    inv_bind E. rename a into t.
    apply getitem_Ok in E0 as [Ht Hlt]; [|lia].
    replace (Z.pred (Z.of_nat (S m))) with (Z.of_nat m) in E by lia.
    apply IH in E as (Hm & Hlen & Hlook); [|lia].
    rewrite length_insert in Hm, Hlen.
    split; [right; lia|]. split; [exact Hlen|]. intros j. rewrite Hlook.
    destruct (decide (j = Z.to_nat k)) as [->|Hne].
    + rewrite list_lookup_insert_eq by lia. rewrite Ht.
      destruct (Z.leb_spec (Z.succ k) (Z.of_nat (Z.to_nat k))); [lia|].
      destruct (Z.leb_spec k (Z.of_nat (Z.to_nat k))); [|lia].
      destruct (Z.ltb_spec (Z.of_nat (Z.to_nat k)) (k + Z.of_nat (S m))); [|lia].
      reflexivity.
    + rewrite list_lookup_insert_ne by lia.
      destruct (Z.leb_spec (Z.succ k) (Z.of_nat j)),
               (Z.leb_spec k (Z.of_nat j)),
               (Z.ltb_spec (Z.of_nat j) (Z.succ k + Z.of_nat m)),
               (Z.ltb_spec (Z.of_nat j) (k + Z.of_nat (S m)));
        cbn [andb]; try reflexivity; lia.
Qed.

Lemma set_absent_ok (t : Tag) :
  tag_ok (set_absent t) <-> tag_ok t.
Proof. reflexivity. Qed.

Section Scenario.
Variable R : Random.
Variable shuffle : list Tag -> list Tag.
Hypothesis shuffle_permutes : forall l, shuffle l ≡ₚ l.

Lemma scenario_spec (total_tags : Z) (missing_rate : float) (tags : list Tag) :
  0 <= total_tags <= 2 ^ 64 ->
  generate_standard_scenario R shuffle total_tags missing_rate = Ok tags ->
  Z.of_nat (length tags) = total_tags /\
  Forall tag_ok tags /\
  NoDup (epc <$> tags) /\
  (forall t, t ∈ tags ->
     String.length (epc t) = 24%nat /\
     epc t = format_024X (epc_int t) /\
     base_id_int <= epc_int t < base_id_int + total_tags) /\
  exists total num_missing,
    Py.float_of_int total_tags = Ok total /\
    Py.int_of_float (total * missing_rate)%float = Ok num_missing /\
    num_missing <= total_tags /\
    forall (j : nat) t, tags !! j = Some t ->
      (is_present t = false <-> Z.of_nat j < num_missing).
Proof.
  intros Htotal E. unfold generate_standard_scenario in E.
  inv_bind E. rename a into total, E0 into Hfloat.
  inv_bind E. rename a into nm, E0 into Hint.
  inv_bind E. rename a into tags0, E0 into Hfresh.
  destruct (fresh_tags_spec R (Py.range 0 total_tags) O) as (tags0' & Hf & Hints & Hok).
  { intros i Hi. unfold Py.range in Hi. apply elem_of_seqZ in Hi. lia. }
  rewrite Hf in Hfresh. injection Hfresh as ->.
  set (s := shuffle tags0) in *.
  assert (s ≡ₚ tags0) as Hperm by apply shuffle_permutes.
  assert (length tags0 = Z.to_nat total_tags) as Hlen0.
  { apply (f_equal length) in Hints. rewrite !length_fmap in Hints.
    unfold Py.range in Hints. rewrite length_seqZ in Hints. lia. }
  assert (Forall (fun t => tag_ok t /\ String.length (epc t) = 24%nat /\
                           epc t = format_024X (epc_int t) /\
                           is_present t = true) s) as Hs
    by (rewrite Hperm; exact Hok).
  assert (forall t, t ∈ s -> base_id_int <= epc_int t < base_id_int + total_tags)
    as Hrange.
  { intros t Ht. rewrite Hperm in Ht.
    assert (epc_int t ∈ epc_int <$> tags0) as Hin by (apply list_elem_of_fmap_2; exact Ht).
    rewrite Hints in Hin. apply list_elem_of_fmap in Hin as (i & -> & Hi).
    unfold Py.range in Hi. apply elem_of_seqZ in Hi. lia. }
  assert (NoDup (epc <$> s)) as Hnd.
  { rewrite Hperm. apply NoDup_epc.
    - eapply Forall_impl; [exact Hok|]. intros t (? & _). assumption.
    - rewrite Hints. apply NoDup_fmap; [|apply NoDup_seqZ].
      intros a b. lia. }
  set (m := Z.to_nat nm).
  assert (Py.range 0 nm = seqZ 0 (Z.of_nat m)) as Hseq.
  { unfold Py.range, m. destruct (Z.le_gt_cases nm 0).
    - rewrite !seqZ_nil by lia. reflexivity.
    - f_equal. lia. }
  rewrite Hseq in E.
  apply mark_missing_lookup in E as (Hm & Hlen & Hlook); [|lia].
  assert (forall (j : nat) t, tags !! j = Some t ->
            exists t0, s !! j = Some t0 /\
                       t = if Z.of_nat j <? nm then set_absent t0 else t0) as Hat.
  { intros j t Hj. rewrite Hlook in Hj.
    destruct (Z.leb_spec 0 (Z.of_nat j)); [|lia]. cbn [andb] in Hj.
    destruct (Z.ltb_spec (Z.of_nat j) (0 + Z.of_nat m)),
             (Z.ltb_spec (Z.of_nat j) nm); try lia.
    - destruct (s !! j) as [t0|]; [|discriminate]. injection Hj as <-. eauto.
    - eauto. }
  assert (forall t, t ∈ tags ->
            exists t0, t0 ∈ s /\ (t = t0 \/ t = set_absent t0)) as Hfrom.
  { intros t Ht. apply list_elem_of_lookup in Ht as [j Hj].
    destruct (Hat j t Hj) as (t0 & Ht0 & ->).
    exists t0. split; [eapply list_elem_of_lookup_2; exact Ht0|].
    destruct (_ <? _); auto. }
  rewrite Forall_forall in Hs.
  assert (length s = length tags0) as Hlens by (rewrite Hperm; reflexivity).
  split; [lia|]. split; [|split; [|split]].
  - apply Forall_forall. intros t Ht.
    destruct (Hfrom t Ht) as (t0 & Ht0 & [->| ->]); apply (Hs t0 Ht0).
  - replace (epc <$> tags) with (epc <$> s); [exact Hnd|].
    apply list_eq. intros j. rewrite !list_lookup_fmap, Hlook.
    destruct (_ && _); [|reflexivity]. destruct (s !! j); reflexivity.
  - intros t Ht. destruct (Hfrom t Ht) as (t0 & Ht0 & Heq).
    destruct (Hs t0 Ht0) as (_ & H24 & Hfmt & _). pose proof (Hrange t0 Ht0).
    destruct Heq as [->| ->]; cbn [set_absent epc epc_int]; auto.
  - exists total, nm. split; [exact Hfloat|]. split; [exact Hint|].
    split; [unfold m in Hm; lia|].
    intros j t Hj. destruct (Hat j t Hj) as (t0 & Ht0 & ->).
    assert (t0 ∈ s) as Hin by (eapply list_elem_of_lookup_2; exact Ht0).
    destruct (Hs t0 Hin) as (_ & _ & _ & Hpres).
    destruct (Z.ltb_spec (Z.of_nat j) nm); cbn [set_absent is_present].
    + split; auto.
    + rewrite Hpres. split; [discriminate|lia].
Qed.

(** X18.  Every scenario [generate_standard_scenario] returns is well
    formed: it has [total_tags] tags; their EPCs are the 24-character
    upper-case hexadecimal forms of [base_id + i], pairwise distinct, and
    [int(epc, 16)] gives the value back; and exactly the first
    [num_missing = int(total_tags * missing_rate)] tags of the shuffled
    list are absent. *)
Theorem scenario_is_well_formed (total_tags : Z) (missing_rate : float)
    (tags : list Tag) :
  0 <= total_tags <= 2 ^ 64 ->
  generate_standard_scenario R shuffle total_tags missing_rate = Ok tags ->
  Z.of_nat (length tags) = total_tags /\
  NoDup (epc <$> tags) /\
  (forall t, t ∈ tags ->
     String.length (epc t) = 24%nat /\
     epc t = format_024X (epc_int t) /\
     Py.int16 (epc t) = Ok (epc_int t) /\
     base_id_int <= epc_int t < base_id_int + total_tags) /\
  exists total num_missing,
    Py.float_of_int total_tags = Ok total /\
    Py.int_of_float (total * missing_rate)%float = Ok num_missing /\
    num_missing <= total_tags /\
    forall (j : nat) t, tags !! j = Some t ->
      (is_present t = false <-> Z.of_nat j < num_missing).
Proof.
  intros Htotal E.
  destruct (scenario_spec _ _ _ Htotal E) as (Hlen & Hok & Hnd & Hall & Hmiss).
  split; [exact Hlen|]. split; [exact Hnd|]. split; [|exact Hmiss].
  intros t Ht. destruct (Hall t Ht) as (H24 & Hfmt & Hr).
  rewrite Forall_forall in Hok. destruct (Hok t Ht) as [Hint _]. auto.
Qed.

(** X19.  The experiment pipeline runs through: a generated scenario of
    at most [MAX_SLOTS_LIMIT] tags, handed to a flagship protocol with
    constructor arguments that allow a group of one tag and simulated on a
    channel without burst erasure, jitter or clock drift, is initialized
    and simulated without any exception, and the run ends with the
    protocol finished after at most one slot per tag. *)
Theorem generated_scenario_runs (config : SimulationConfig) (R' : Random)
    (self0 : LODS_MTI_Algorithm) (total_tags : Z) (missing_rate : float)
    (tags : list Tag) :
  0 <= total_tags <= CONSTANTS.MAX_SLOTS_LIMIT ->
  parameters_ok self0 ->
  damage_free config ->
  generate_standard_scenario R shuffle total_tags missing_rate = Ok tags ->
  exists alg0 st alg,
    initialize self0 tags = Ok alg0 /\
    run_high_fidelity_simulation config R' tags alg0 = Ok (st, alg, []) /\
    is_finished alg = true /\
    0 <= stat_total_slots st <= total_tags.
Proof.
  intros Htotal Hpar Hcfg E.
  assert (0 <= total_tags <= 2 ^ 64) as Hsmall.
  { assert (CONSTANTS.MAX_SLOTS_LIMIT <= 2 ^ 64) by (intros H; discriminate H). lia. }
  destruct (scenario_spec _ _ _ Hsmall E) as (Hlen & Hok & _).
  rewrite <- Hlen. apply flagship_run_total; auto. lia.
Qed.

End Scenario.

Lemma example_scenario :
  exists tags,
    generate_standard_scenario example_random reverse 4 0.25 = Ok tags.
Proof. eexists. vm_compute. reflexivity. Qed.

(** A scenario of four tags of which one is absent, the shuffle being the
    reversal of the list. *)
Definition example_scenario_tags : list Tag :=
  match generate_standard_scenario example_random reverse 4 0.25 with
  | Ok tags => tags
  | _ => []
  end.

Lemma scenario_is_well_formed_witness :
  Z.of_nat (length example_scenario_tags) = 4 /\
  NoDup (epc <$> example_scenario_tags) /\
  (forall t, t ∈ example_scenario_tags ->
     String.length (epc t) = 24%nat /\
     epc t = format_024X (epc_int t) /\
     Py.int16 (epc t) = Ok (epc_int t) /\
     base_id_int <= epc_int t < base_id_int + 4) /\
  exists total num_missing,
    Py.float_of_int 4 = Ok total /\
    Py.int_of_float (total * 0.25)%float = Ok num_missing /\
    num_missing <= 4 /\
    forall (j : nat) t, example_scenario_tags !! j = Some t ->
      (is_present t = false <-> Z.of_nat j < num_missing).
Proof.
  apply (scenario_is_well_formed example_random reverse
           (fun l => reverse_Permutation l) 4 0.25 example_scenario_tags).
  - simpl. lia.
  - vm_compute. reflexivity.
Defined.

Lemma generated_scenario_runs_witness :
  exists alg0 st alg,
    initialize LODS_default example_scenario_tags = Ok alg0 /\
    run_high_fidelity_simulation noisy_config example_random
      example_scenario_tags alg0 = Ok (st, alg, []) /\
    is_finished alg = true /\
    0 <= stat_total_slots st <= 4.
Proof.
  apply (generated_scenario_runs example_random reverse
           (fun l => reverse_Permutation l) noisy_config example_random
           LODS_default 4 0.25 example_scenario_tags).
  - vm_compute. split; discriminate.
  - split; cbn; lia.
  - repeat split; cbn; lia.
  - vm_compute. reflexivity.
Defined.

(** ** What a run can report *)

(** X20.  Whatever the channel does, the protocol never reports a tag it
    was not asked about: after any number of slots of a run over expected
    tags with pairwise distinct EPCs, every identifier in either result
    set is the EPC of an expected tag. *)
Theorem results_within_expected (self0 alg0 : LODS_MTI_Algorithm)
    (config : SimulationConfig) (R : Random)
    (expected_tags true_tags : list Tag) (n : nat)
    (ks : Kernel LODS_MTI_Algorithm) :
  NoDup (epc <$> expected_tags) ->
  initialize self0 expected_tags = Ok alg0 ->
  reaches config R true_tags (Kernel_init alg0) n ks ->
  (get_results (algorithm ks)).1 ∪ (get_results (algorithm ks)).2
  ⊆ list_to_set (epc <$> expected_tags).
Proof.
  intros Hnd Hinit Hr. cbn [initialize LODS_interface] in Hinit.
  apply initialize_inv in Hinit as (Hinv & Hperm & _).
  set (L := sorted_tags_bin alg0) in *.
  assert (NoDup (SortedTag.hex <$> L)) as HL by (rewrite Hperm; exact Hnd).
  assert (forall s r s' cmd,
            partitioned_so_far L s -> get_next_command s r = Ok (s', cmd) ->
            partitioned_so_far L s') as Hstep.
  { intros s r s' cmd [c0 Hs] E. eapply get_next_command_inv; eauto. }
  assert (partitioned_so_far L (algorithm (Kernel_init alg0))) as H0
    by (exists O; exact Hinv).
  destruct (reaches_invariant config R true_tags _ Hstep _ _ _ H0 Hr) as [c0 Hc].
  cbn [get_results LODS_interface LODS_get_results fst snd].
  rewrite (inv_cover _ _ _ Hc). intros e He.
  apply elem_of_list_to_set in He. apply elem_of_list_to_set.
  rewrite <- Hperm. apply list_elem_of_fmap in He as (x & -> & Hx).
  apply list_elem_of_fmap_2. apply elem_of_take in Hx as (i & Hx & _).
  eapply list_elem_of_lookup_2. exact Hx.
Qed.

Lemma first_slot_reached :
  reaches SimulationConfig_default example_random example_tags
    (Kernel_init example_algorithm) 1 first_slot.
Proof.
  econstructor; [constructor|reflexivity|vm_compute; reflexivity].
Qed.

Lemma results_within_expected_witness :
  (get_results (algorithm first_slot)).1 ∪ (get_results (algorithm first_slot)).2
  ⊆ list_to_set (epc <$> example_tags).
Proof.
  apply (results_within_expected LODS_default example_algorithm
           SimulationConfig_default example_random example_tags example_tags
           1 first_slot).
  - apply (bool_decide_eq_true_1 (NoDup (epc <$> example_tags))).
    vm_compute. reflexivity.
  - vm_compute. reflexivity.
  - exact first_slot_reached.
Defined.

(** X21.  The redundancy after a call of [get_next_command]: unchanged
    when the instance is not adaptive or nothing was pending; 2 or 4 when
    it is adaptive and a group was verified.  The command just scheduled
    uses that redundancy for every tag of its group. *)
Theorem redundancy_after_command (self self' : LODS_MTI_Algorithm)
    (prev : SlotResult) (cmd : ReaderCommand) :
  get_next_command self prev = Ok (self', cmd) ->
  (if is_adaptive self && negb (bool_decide (last_sent_context self = []))
   then current_rho self' = 2 \/ current_rho self' = 4
   else current_rho self' = current_rho self) /\
  forall item, item ∈ last_sent_context self' ->
               Sent.rho item = current_rho self'.
Proof.
  cbn [get_next_command LODS_interface]. unfold LODS_get_next_command.
  intros E. inv_bind E. destruct a as [self1 flag]. cbn [fst snd] in E.
  pose proof (verify_previous_clears _ _ _ _ E0) as Hnil.
  destruct (schedule_next_rho _ _ _ _ Hnil E) as (Hrho & _ & _ & Hitems).
  rewrite Hrho. split; [|exact Hitems].
  destruct (last_sent_context self) as [|first rest] eqn:Hl.
  - rewrite bool_decide_eq_true_2 by reflexivity. rewrite andb_false_r.
    unfold verify_previous in E0. rewrite Hl in E0. injection E0 as <- _.
    reflexivity.
  - rewrite bool_decide_eq_false_2 by discriminate. rewrite andb_true_r.
    pose proof (verify_previous_spec _ _ _ _ _ _ Hl E0) as (bitmap & _ & _ & _ & Had).
    cbv zeta in Had. destruct (is_adaptive self); [|exact Had].
    unfold adapted_rho in Had. inv_bind Had.
    destruct (PrimFloat.leb _ _); injection Had as <-; auto.
Qed.

Lemma redundancy_after_command_witness :
  (current_rho (fst example_next) = 2 \/ current_rho (fst example_next) = 4) /\
  forall item, item ∈ last_sent_context (fst example_next) ->
               Sent.rho item = current_rho (fst example_next).
Proof.
  apply (redundancy_after_command example_pending (fst example_next)
           example_prev (snd example_next)).
  vm_compute. reflexivity.
Defined.

(* ------------------------------------------------------------------------- *)
(** * Verdicts on a pending group *)

(** ** What one vote files *)

Lemma elem_of_epcs_of_filter (f : Sent.t -> bool) (context : list Sent.t)
    (item : Sent.t) :
  NoDup (Sent.epc <$> context) -> item ∈ context ->
  Sent.epc item ∈ epcs_of (List.filter f context) <-> f item = true.
Proof.
  intros Hnd Hin. rewrite elem_of_epcs_of. split.
  - intros (i & Hi & He). apply elem_of_List_filter in Hi as [Hi Hf].
    rewrite <- (NoDup_fmap_inj_on Sent.epc context i item Hnd Hi Hin He).
    exact Hf.
  - intros Hf. exists item. rewrite elem_of_List_filter. auto.
Qed.

(** A call of [get_next_command] files a tag of the pending group that is
    in neither set yet by its vote on the received bitmap: into
    [verified_present] if the vote is reached, into [verified_missing] if
    not. *)
Lemma get_next_command_files (self self' : LODS_MTI_Algorithm)
    (prev : SlotResult) (cmd : ReaderCommand) (r : Z) (item : Sent.t) :
  context_ok (last_sent_context self) r ->
  NoDup (Sent.epc <$> last_sent_context self) ->
  item ∈ last_sent_context self ->
  Sent.epc item ∉ verified_present self ∪ verified_missing self ->
  LODS_get_next_command self prev = Ok (self', cmd) ->
  exists bitmap,
    superimpose (actual_set prev) (last_sent_context self) 0 = Ok bitmap /\
    let vote :=
      voted_present (Z.lxor bitmap (channel_noise_mask prev))
        (vote_threshold_of r) item in
    (Sent.epc item ∈ verified_present self' <-> vote = true) /\
    (Sent.epc item ∈ verified_missing self' <-> vote = false).
Proof.
  intros Hok Hnd Hin Hfresh E. unfold LODS_get_next_command in E.
  inv_bind E. destruct a as [self1 flag]. cbn [fst snd] in E.
  destruct (schedule_next_frame _ _ _ _ E) as (Hp' & Hm' & _).
  destruct (last_sent_context self) as [|first rest] eqn:Hl; [inversion Hin|].
  destruct (verify_previous_spec _ _ _ _ _ _ Hl E0) as (bitmap & Hs & Hp & Hm & _).
  rewrite (ctx_rho _ _ Hok first) in Hp, Hm by left.
  exists bitmap. split; [exact Hs|]. cbv zeta.
  rewrite Hp', Hm', Hp, Hm, !elem_of_union.
  rewrite !elem_of_epcs_of_filter by assumption.
  rewrite elem_of_union in Hfresh.
  destruct (voted_present _ _ item); cbn [negb]; split; split;
    first [tauto|congruence|intros [?|?]; first [tauto|congruence]].
Qed.

Lemma responds_list (responders : list string) (item : Sent.t) :
  responds (list_to_set responders) item
  = bool_decide (Sent.epc item ∈ responders).
Proof. unfold responds. apply bool_decide_ext, elem_of_list_to_set. Qed.

Lemma actual_set_not_idle (st : PacketType) (responders : list string)
    (resolved : option (list string)) (noise_mask : Z)
    (extra : option Impairments) :
  st <> IDLE ->
  actual_set (mkSlotResult st responders resolved noise_mask extra)
  = list_to_set responders.
Proof. intros Hst. unfold actual_set. destruct st; [congruence|reflexivity..]. Qed.

(** C4.  A call of [get_next_command] with a pending group sent at
    redundancy 4 (its tags pairwise distinct), for a tag [item] of the
    group that neither result set holds yet; the previous result is not
    idle and lists the slot's responders, which stay fixed.  The verdict of
    the call on [item] under a noise mask is the result set the returned
    state files its EPC in.  With the tag's 4-bit sub-field of the mask
    clean the verdict is the ground truth; with any single bit of the mask
    flipped inside the sub-field the verdict is still the ground truth (a
    responding tag still reaches 3 of 4, a silent one does not); with two
    bits flipped inside the sub-field a responding tag is filed missing. *)
Theorem majority_vote_tolerance (self : LODS_MTI_Algorithm)
    (st : PacketType) (responders : list string)
    (resolved : option (list string)) (extra : option Impairments)
    (noise : Z) (item : Sent.t) :
  schedulable self ->
  context_ok (last_sent_context self) 4 ->
  NoDup (Sent.epc <$> last_sent_context self) ->
  item ∈ last_sent_context self ->
  Sent.epc item ∉ verified_present self ∪ verified_missing self ->
  st <> IDLE ->
  (forall t, Sent.slot item * 4 <= t < Sent.slot item * 4 + 4 ->
             Z.testbit noise t = false) ->
  let responding := bool_decide (Sent.epc item ∈ responders) in
  let verdict (noise_mask : Z) (present : bool) :=
    exists self' cmd,
      get_next_command self
        (mkSlotResult st responders resolved noise_mask extra)
      = Ok (self', cmd) /\
      (Sent.epc item ∈ (get_results self').1 <-> present = true) /\
      (Sent.epc item ∈ (get_results self').2 <-> present = false) in
  verdict noise responding /\
  (forall b, Sent.slot item * 4 <= b < Sent.slot item * 4 + 4 ->
     verdict (Z.lxor noise (2 ^ b)) responding) /\
  (forall b1 b2,
     Sent.slot item * 4 <= b1 < Sent.slot item * 4 + 4 ->
     Sent.slot item * 4 <= b2 < Sent.slot item * 4 + 4 ->
     b1 <> b2 ->
     responding = true ->
     verdict (Z.lxor (Z.lxor noise (2 ^ b1)) (2 ^ b2)) false).
Proof.
  intros Hsch Hok Hnd Hin Hfresh Hst Hclean responding verdict.
  destruct (superimpose_total (list_to_set responders) (last_sent_context self) 0)
    as [bitmap Hs].
  { intros i Hi. rewrite (ctx_rho _ _ Hok i Hi).
    pose proof (ctx_slot _ _ Hok i Hi). lia. }
  assert (forall m,
            exists self' cmd,
              get_next_command self (mkSlotResult st responders resolved m extra)
              = Ok (self', cmd) /\
              let vote := voted_present (Z.lxor bitmap m) (vote_threshold_of 4) item in
              (Sent.epc item ∈ (get_results self').1 <-> vote = true) /\
              (Sent.epc item ∈ (get_results self').2 <-> vote = false)) as Hcall.
  { intros m.
    destruct (get_next_command_total self
                (mkSlotResult st responders resolved m extra) Hsch)
      as (self' & cmd & E & _).
    exists self', cmd. split; [exact E|].
    destruct (get_next_command_files _ _ _ _ _ _ Hok Hnd Hin Hfresh E)
      as (bitmap' & Hs' & Hv).
    rewrite actual_set_not_idle in Hs' by exact Hst.
    rewrite Hs in Hs'. injection Hs' as <-. exact Hv. }
  destruct (sub_field_vote _ _ _ _ _ Hok Hs Hin Hclean) as (V0 & V1 & V2).
  rewrite responds_list in V0, V1, V2. fold responding in V0, V1, V2.
  unfold verdict. split; [|split].
  - destruct (Hcall noise) as (self' & cmd & E & Hv). cbv zeta in Hv.
    rewrite V0 in Hv. eauto.
  - intros b Hb. destruct (Hcall (Z.lxor noise (2 ^ b))) as (self' & cmd & E & Hv).
    cbv zeta in Hv. rewrite (V1 b Hb) in Hv. eauto.
  - intros b1 b2 Hb1 Hb2 Hne Hresp.
    destruct (Hcall (Z.lxor (Z.lxor noise (2 ^ b1)) (2 ^ b2)))
      as (self' & cmd & E & Hv).
    cbv zeta in Hv. rewrite (V2 b1 b2 Hb1 Hb2 Hne Hresp) in Hv. eauto.
Qed.

Lemma example_pending_schedulable : schedulable example_pending.
Proof.
  destruct (get_next_command_total example_algorithm
              (mkSlotResult IDLE [] None 0 None) example_algorithm_schedulable)
    as (self' & cmd & E & Hs & _).
  unfold example_pending. rewrite E. exact Hs.
Qed.

Lemma majority_vote_tolerance_witness :
  let item := Sent.mk "000000000000000000000002" 2 4 in
  let verdict (noise_mask : Z) (present : bool) :=
    exists self' cmd,
      get_next_command example_pending
        (mkSlotResult COLLISION
           ["000000000000000000000000"; "000000000000000000000002"]
           None noise_mask None)
      = Ok (self', cmd) /\
      (Sent.epc item ∈ (get_results self').1 <-> present = true) /\
      (Sent.epc item ∈ (get_results self').2 <-> present = false) in
  verdict 0 true /\
  (forall b, Sent.slot item * 4 <= b < Sent.slot item * 4 + 4 ->
     verdict (Z.lxor 0 (2 ^ b)) true) /\
  (forall b1 b2,
     Sent.slot item * 4 <= b1 < Sent.slot item * 4 + 4 ->
     Sent.slot item * 4 <= b2 < Sent.slot item * 4 + 4 ->
     b1 <> b2 ->
     true = true ->
     verdict (Z.lxor (Z.lxor 0 (2 ^ b1)) (2 ^ b2)) false).
Proof.
  apply (majority_vote_tolerance example_pending COLLISION
           ["000000000000000000000000"; "000000000000000000000002"]
           None None 0 (Sent.mk "000000000000000000000002" 2 4)).
  - exact example_pending_schedulable.
  - constructor.
    + apply Forall_forall. vm_compute. repeat constructor.
    + apply Forall_forall. vm_compute. repeat constructor; discriminate.
    + apply (bool_decide_eq_true_1
               (NoDup (Sent.slot <$> last_sent_context example_pending))).
      vm_compute. reflexivity.
  - apply (bool_decide_eq_true_1
             (NoDup (Sent.epc <$> last_sent_context example_pending))).
    vm_compute. reflexivity.
  - vm_compute. right. right. left.
  - apply (bool_decide_eq_true_1 (_ ∉ _)). vm_compute. reflexivity.
  - discriminate.
  - intros t _. apply Z.bits_0.
Defined.

(** ** Idle results *)

Section IdleResults.
Context {S : Type} `{AlgorithmInterface S}.
Variable config : SimulationConfig.
Variable R : Random.
Variable true_tags : list Tag.

(** The result a slot of the loop leaves for the next call: if its status
    is IDLE its noise mask is 0. *)
Lemma body_idle_clean_mask (ks ks' : Kernel S) :
  loop_body config R true_tags ks = Ok (Continue ks') ->
  status (prev_result ks') = IDLE -> channel_noise_mask (prev_result ks') = 0.
Proof.
  unfold loop_body. intros E.
  destruct (_ >? _); [discriminate|].
  inv_bind E. destruct (_ <? 0); [discriminate|].
  inv_bind E. inv_bind E. inv_bind E. inv_bind E. inv_bind E.
  injection E as <-. cbn [prev_result status channel_noise_mask].
  exact (idle_result_has_clean_mask _ _ _ _ _ _ _ E4).
Qed.

(** So it is for every result the loop hands to the protocol, the initial
    [SlotResult(IDLE, [])] included. *)
Lemma reaches_idle_clean_mask (alg : S) (n : nat) (ks : Kernel S) :
  reaches config R true_tags (Kernel_init alg) n ks ->
  status (prev_result ks) = IDLE -> channel_noise_mask (prev_result ks) = 0.
Proof.
  induction 1 as [|n ks ks' _ _ _ E]; [reflexivity|].
  exact (body_idle_clean_mask _ _ E).
Qed.

End IdleResults.

(** C10.  In a run of the kernel over the flagship protocol, built with
    valid parameters: at every call of [get_next_command] the loop makes
    with a pending group, if the status of the previous result is IDLE
    (an empty slot, or a reply lost as a whole packet) the call returns
    and files every tag of the group as missing and none as present,
    whatever identifiers the result lists as responders. *)
Theorem idle_result_marks_group_missing (self0 alg0 : LODS_MTI_Algorithm)
    (config : SimulationConfig) (R : Random)
    (expected_tags true_tags : list Tag) (n : nat)
    (ks : Kernel LODS_MTI_Algorithm) :
  parameters_ok self0 ->
  initialize self0 expected_tags = Ok alg0 ->
  reaches config R true_tags (Kernel_init alg0) n ks ->
  last_sent_context (algorithm ks) <> [] ->
  status (prev_result ks) = IDLE ->
  exists self' cmd,
    get_next_command (algorithm ks) (prev_result ks) = Ok (self', cmd) /\
    (get_results self').1 = (get_results (algorithm ks)).1 /\
    (get_results self').2
    = (get_results (algorithm ks)).2 ∪ epcs_of (last_sent_context (algorithm ks)) /\
    forall item, item ∈ last_sent_context (algorithm ks) ->
                 Sent.epc item ∈ (get_results self').2.
Proof.
  intros Hpar Hinit Hr Hpending Hidle.
  cbn [initialize LODS_interface] in Hinit.
  destruct (initialize_schedulable _ _ _ Hpar Hinit) as (Hs0 & _).
  assert (forall s r s' cmd,
            schedulable s -> get_next_command s r = Ok (s', cmd) ->
            schedulable s') as Hstep.
  { intros s r s' cmd Hs E.
    destruct (get_next_command_total s r Hs) as (s1 & cmd1 & E1 & Hs1 & _).
    cbn [get_next_command LODS_interface] in E. rewrite E in E1.
    injection E1 as <- _. exact Hs1. }
  pose proof (reaches_invariant config R true_tags _ Hstep
                (Kernel_init alg0) _ _ Hs0 Hr) as Hs.
  pose proof (reaches_idle_clean_mask _ _ _ _ _ _ Hr Hidle) as Hmask.
  destruct (get_next_command_total _ (prev_result ks) Hs) as (self' & cmd & E & _).
  destruct (last_sent_context (algorithm ks)) as [|first rest] eqn:Hl;
    [congruence|].
  assert (forall item, item ∈ first :: rest ->
            1 <= Sent.rho item /\ 0 <= Sent.slot item) as Hctx.
  { intros item Hin. apply (sch_context _ Hs). rewrite Hl. exact Hin. }
  destruct (clean_idle_marks_group_missing _ _ _ _ Hl Hidle Hmask Hctx)
    as [_ Hsets].
  destruct (Hsets _ _ E) as [Hp Hm].
  exists self', cmd. cbn [get_results LODS_interface LODS_get_results fst snd].
  split; [exact E|]. split; [exact Hp|]. split; [exact Hm|].
  intros item Hin. rewrite Hm, elem_of_union, elem_of_epcs_of. eauto.
Qed.

(** A channel that loses every reply as a whole packet. *)
Definition lossy_config : SimulationConfig :=
  {| TOTAL_TAGS := 4;
     MISSING_RATE := 0%float;
     ENABLE_NOISE := true;
     packet_error_rate := 1%float;
     BIT_ERROR_RATE := 0%float;
     ENABLE_CAPTURE_EFFECT := false;
     CAPTURE_RATIO_DB := 3%float;
     ENABLE_ENERGY_TRACKING := false;
     CLOCK_DRIFT_RATE := 0%float;
     BURST_ERASURE_LEN := 0;
     JITTER_OFFSET := 0;
     GUARD_INTERVAL_BITS := 0%float |}.

(** The state after the first slot of the example run on that channel: the
    first three tags are pending, two of them replied, the reply is lost. *)
Definition lost_slot : Kernel LODS_MTI_Algorithm :=
  match loop_body lossy_config example_random example_tags
          (Kernel_init example_algorithm) with
  | Ok f => after f
  | _ => Kernel_init example_algorithm
  end.

Lemma lost_slot_reached :
  reaches lossy_config example_random example_tags
    (Kernel_init example_algorithm) 1 lost_slot.
Proof.
  econstructor; [constructor|reflexivity|vm_compute; reflexivity].
Qed.

Lemma idle_result_marks_group_missing_witness :
  (status (prev_result lost_slot) = IDLE /\
   tag_ids (prev_result lost_slot)
   = ["000000000000000000000000"; "000000000000000000000002"]) /\
  exists self' cmd,
    get_next_command (algorithm lost_slot) (prev_result lost_slot)
    = Ok (self', cmd) /\
    (get_results self').1 = (get_results (algorithm lost_slot)).1 /\
    (get_results self').2
    = (get_results (algorithm lost_slot)).2
      ∪ epcs_of (last_sent_context (algorithm lost_slot)) /\
    forall item, item ∈ last_sent_context (algorithm lost_slot) ->
                 Sent.epc item ∈ (get_results self').2.
Proof.
  split; [split; vm_compute; reflexivity|].
  apply (idle_result_marks_group_missing LODS_default example_algorithm
           lossy_config example_random example_tags example_tags 1 lost_slot).
  - split; cbn; lia.
  - reflexivity.
  - exact lost_slot_reached.
  - vm_compute. discriminate.
  - vm_compute. reflexivity.
Defined.
